(** * Springs: a mass-spring-damper simulation (C, raylib)

    Shallow embedding of the physics core of the program, in its version
    with [double] coefficients and the wind force: [mass_force_append],
    [mass_reset_forces], [mass_update], [spring_update], the [system_*]
    container operations, [system_init_grid] and one tick of the loop of
    [main]; followed by the properties of its specification.

    The C program computes on IEEE-754 numbers: [Vector2] components are
    [float] (binary32) and the coefficients ([mass], [length], [strength],
    [dampening], [dt]) are [double] (binary64).  The embedding is written
    over an interface of scalar operations ([Arith]); its instance is the
    binary floating-point arithmetic of the Standard Library's [SpecFloat]
    (round to nearest even), the arithmetic of the program.  Properties
    that do not depend on rounding are proved for every instance.

    State is passed explicitly.  A [Mass *] is an index into the mass array
    of the owning [System]; the arrays keep their fixed number of slots and
    the counts say how many are in use, as in the C structs. *)

From Stdlib Require Import ZArith NArith Bool Lia String Ascii.
From Stdlib Require Import Floats.SpecFloat.
From stdpp Require Import base list.

Local Open Scope N_scope.

(** ** Scalar arithmetic *)

(** The two floating-point types of the program. *)
Inductive ctype := c_float | c_double.

Definition prec_of (t : ctype) : Z :=
  match t with c_float => 24%Z | c_double => 53%Z end.

Definition emax_of (t : ctype) : Z :=
  match t with c_float => 128%Z | c_double => 1024%Z end.

(** The operations C applies to [float] and [double] values.  [a_cast t]
    is the conversion to type [t] and [a_of_Z t] the conversion of an
    integer ([int] or [size_t]) to type [t]. *)
Class Arith (T : Type) := {
  a_add : ctype -> T -> T -> T;
  a_sub : ctype -> T -> T -> T;
  a_mul : ctype -> T -> T -> T;
  a_div : ctype -> T -> T -> T;
  a_neg : T -> T;
  a_cast : ctype -> T -> T;
  a_of_Z : ctype -> Z -> T
}.

(** IEEE-754 binary arithmetic, round to nearest even. *)
Definition sf_cast (t : ctype) (x : spec_float) : spec_float :=
  match x with
  | S754_finite s m e => binary_round (prec_of t) (emax_of t) s m e
  | _ => x
  end.

Definition sf_of_Z (t : ctype) (z : Z) : spec_float :=
  binary_normalize (prec_of t) (emax_of t) z 0 false.

#[export] Instance binary_arith : Arith spec_float := {
  a_add t := SFadd (prec_of t) (emax_of t);
  a_sub t := SFsub (prec_of t) (emax_of t);
  a_mul t := SFmul (prec_of t) (emax_of t);
  a_div t := SFdiv (prec_of t) (emax_of t);
  a_neg := SFopp;
  a_cast := sf_cast;
  a_of_Z := sf_of_Z
}.

(** ** Program output

    The only effect of the core besides its state is [printf] of an error
    line; a computation returns its result and the lines it printed. *)

Definition Out (A : Type) : Type := (A * list string)%type.

Definition ret {A} (a : A) : Out A := (a, []).

Definition bind {A B} (m : Out A) (f : A -> Out B) : Out B :=
  let '(a, o1) := m in let '(b, o2) := f a in (b, o1 ++ o2).

Definition printf (s : string) : Out unit := (tt, [s]).

Notation "x <- c1 ;; c2" := (bind c1 (fun x => c2))
  (at level 100, c1 at next level, right associativity).
Notation "c1 ;; c2" := (bind c1 (fun _ => c2))
  (at level 100, right associativity).

(** [for (size_t i = 0; i < n; ++i) body] where the body does not change
    the bound [n]: the body runs for i = 0, 1, ..., n-1. *)
Fixpoint for_range {S : Type} (fuel : nat) (i : N)
    (body : N -> S -> Out S) (s : S) : Out S :=
  match fuel with
  | O => ret s
  | Datatypes.S fuel' => s' <- body i s ;; for_range fuel' (N.succ i) body s'
  end.

Definition for_loop {S : Type} (n : N) (body : N -> S -> Out S) (s : S) : Out S :=
  for_range (N.to_nat n) 0 body s.

(** The same loop for a body that prints nothing. *)
Fixpoint iter_range {S : Type} (fuel : nat) (i : N)
    (body : N -> S -> S) (s : S) : S :=
  match fuel with
  | O => s
  | Datatypes.S fuel' => iter_range fuel' (N.succ i) body (body i s)
  end.

Definition iter_loop {S : Type} (n : N) (body : N -> S -> S) (s : S) : S :=
  iter_range (N.to_nat n) 0 body s.

(** ** [size_t] arithmetic (64 bits, wrapping) *)

Definition SIZE_MOD : N := 2 ^ 64.

Definition size_add (a b : N) : N := (a + b) mod SIZE_MOD.
Definition size_mul (a b : N) : N := (a * b) mod SIZE_MOD.
Definition size_sub (a b : N) : N :=
  Z.to_N ((Z.of_N a - Z.of_N b) mod Z.of_N SIZE_MOD).

(** ** Constants of the program *)

Definition FORCES_CAPACITY : N := 64.
Definition SYSTEM_CAPACITY : N := 8096.

Definition newline : string := String (ascii_of_nat 10) EmptyString.

Definition ERR_FORCES : string :=
  "ERROR: Cannot append any more forces to mass" ++ newline.
Definition ERR_MASSES : string :=
  "ERROR: Cannot add more masses to the system" ++ newline.
Definition ERR_SPRINGS : string :=
  "ERROR: Cannot add more springs to the system" ++ newline.
Definition ERR_FIRST : string :=
  "ERROR: Index to first mass out of range" ++ newline.
Definition ERR_SECOND : string :=
  "ERROR: Index to second mass out of range" ++ newline.

(** ** Data model *)

(** raylib's [Vector2]: two [float] components [x] and [y]. *)
Record Vector2 (T : Type) := V2 { vx : T; vy : T }.
Arguments V2 {T} _ _.
Arguments vx {T} _.
Arguments vy {T} _.

(** [forces] is the array [Vector2 forces[FORCES_CAPACITY]]; its first
    [force_count] entries are the forces accumulated in the current step. *)
Record Mass (T : Type) := mkMass {
  position : Vector2 T;
  velocity : Vector2 T;
  acceleration : Vector2 T;
  forces : list (Vector2 T);
  force_count : N;
  mass : T;
  fixed : bool
}.
Arguments mkMass {T} _ _ _ _ _ _ _.
Arguments position {T} _.
Arguments velocity {T} _.
Arguments acceleration {T} _.
Arguments forces {T} _.
Arguments force_count {T} _.
Arguments mass {T} _.
Arguments fixed {T} _.

(** A [Mass *]: null, or the address [&system->masses[i]] of a slot of
    the mass array of the system that owns the spring. *)
Inductive MassPtr := NullPtr | MassAt (i : N).

Record Spring (T : Type) := mkSpring {
  first : MassPtr;
  second : MassPtr;
  length_ : T;
  strength : T;
  dampening : T
}.
Arguments mkSpring {T} _ _ _ _ _.
Arguments first {T} _.
Arguments second {T} _.
Arguments length_ {T} _.
Arguments strength {T} _.
Arguments dampening {T} _.

(** [masses] and [springs] are the arrays of [SYSTEM_CAPACITY] slots; the
    first [mass_count] and [spring_count] slots are the collections. *)
Record System (T : Type) := mkSystem {
  masses : list (Mass T);
  springs : list (Spring T);
  mass_count : N;
  spring_count : N
}.
Arguments mkSystem {T} _ _ _ _.
Arguments masses {T} _.
Arguments springs {T} _.
Arguments mass_count {T} _.
Arguments spring_count {T} _.

(** The two functions of raymath.h (raylib, not part of the sources) that
    need more than the four operations: the length takes a square root, and
    the normalisation treats the zero vector differently in different
    versions of the library.  They are parameters of the embedding. *)
Class Raymath (T : Type) := {
  Vector2Length : Vector2 T -> T;
  Vector2Normalize : Vector2 T -> Vector2 T
}.

Section Core.
Context {T : Type} {AT : Arith T}.

#[local] Abbreviation Vec := (Vector2 T).

(** *** raymath.h: componentwise [float] operations

    raymath.h belongs to raylib and is not among the sources. *)

(** Modelled from the spec: raymath.h's [Vector2Add], the sum of two
    vectors, componentwise in [float]. *)
Definition Vector2Add (v1 v2 : Vec) : Vec :=
  V2 (a_add c_float (vx v1) (vx v2)) (a_add c_float (vy v1) (vy v2)).

(** Modelled from the spec: raymath.h's [Vector2Subtract], the difference
    of two vectors, componentwise in [float]. *)
Definition Vector2Subtract (v1 v2 : Vec) : Vec :=
  V2 (a_sub c_float (vx v1) (vx v2)) (a_sub c_float (vy v1) (vy v2)).

(** Modelled from the spec: raymath.h's [Vector2Scale], a vector times a
    [float] scalar. *)
Definition Vector2Scale (v : Vec) (scale : T) : Vec :=
  V2 (a_mul c_float (vx v) scale) (a_mul c_float (vy v) scale).

(** Modelled from the spec: raymath.h's [Vector2DotProduct]. *)
Definition Vector2DotProduct (v1 v2 : Vec) : T :=
  a_add c_float (a_mul c_float (vx v1) (vx v2))
                (a_mul c_float (vy v1) (vy v2)).

(** The vector [{0}]. *)
Definition Vector2Zero : Vec := V2 (a_of_Z c_float 0) (a_of_Z c_float 0).

Definition GRAVITATIONAL_ACCELERATION : Vec :=
  V2 (a_of_Z c_float 0) (a_of_Z c_float 98).

(** *** Field assignments *)

Definition set_position (m : Mass T) (v : Vec) : Mass T :=
  mkMass v (velocity m) (acceleration m) (forces m) (force_count m)
         (mass m) (fixed m).

Definition set_velocity (m : Mass T) (v : Vec) : Mass T :=
  mkMass (position m) v (acceleration m) (forces m) (force_count m)
         (mass m) (fixed m).

Definition set_acceleration (m : Mass T) (v : Vec) : Mass T :=
  mkMass (position m) (velocity m) v (forces m) (force_count m)
         (mass m) (fixed m).

Definition set_forces (m : Mass T) (fs : list Vec) (n : N) : Mass T :=
  mkMass (position m) (velocity m) (acceleration m) fs n (mass m) (fixed m).

(** [Mass m = {0}] *)
Definition Mass_zero : Mass T :=
  mkMass Vector2Zero Vector2Zero Vector2Zero
         (replicate (N.to_nat FORCES_CAPACITY) Vector2Zero) 0
         (a_of_Z c_double 0) false.

(** *** Mass *)

Definition mass_force_append (m : Mass T) (force : Vec) : Out (Mass T) :=
  if FORCES_CAPACITY <=? force_count m then
    printf ERR_FORCES ;; ret m
  else
    ret (set_forces m (<[N.to_nat (force_count m) := force]> (forces m))
                    (size_add (force_count m) 1)).

Definition mass_reset_forces (m : Mass T) : Mass T :=
  set_forces m (forces m) 0.

(** A read [forces[i]] beyond the array (possible only if [force_count]
    exceeded the capacity, which [mass_force_append] never produces) is
    undefined in C; the model skips the iteration. *)
Definition mass_update (m : Mass T) (dt : T) : Mass T :=
  if fixed m then m
  else
    let m := set_acceleration m GRAVITATIONAL_ACCELERATION in
    let m :=
      iter_loop (force_count m) (fun i m =>
        match forces m !! N.to_nat i with
        | Some f =>
            let acceleration_from_force :=
              Vector2Scale f
                (a_cast c_float
                   (a_div c_double (a_of_Z c_double 1) (mass m))) in
            set_acceleration m
              (Vector2Add (acceleration m) acceleration_from_force)
        | None => m
        end) m in
    let m :=
      set_velocity m
        (Vector2Add (velocity m)
           (Vector2Scale (acceleration m) (a_cast c_float dt))) in
    set_position m
      (Vector2Add (position m)
         (Vector2Scale (velocity m) (a_cast c_float dt))).

(** *** Pointers into the mass array *)

Definition deref (p : MassPtr) (ms : list (Mass T)) : option (Mass T) :=
  match p with
  | NullPtr => None
  | MassAt i => ms !! N.to_nat i
  end.

(** A read [p->field].  Reading through a null or out-of-range pointer is
    undefined in C; the model reads a zeroed mass there.  Springs stored
    by [system_add_spring] never hold such a pointer. *)
Definition mass_at (p : MassPtr) (ms : list (Mass T)) : Mass T :=
  default Mass_zero (deref p ms).

(** A call [f(p, ...)] of a function that updates the mass [*p] in place
    (undefined in C for a null or out-of-range pointer; no effect in the
    model). *)
Definition update_at (p : MassPtr) (f : Mass T -> Out (Mass T))
    (ms : list (Mass T)) : Out (list (Mass T)) :=
  match p with
  | NullPtr => ret ms
  | MassAt i =>
      match ms !! N.to_nat i with
      | Some m => m' <- f m ;; ret (<[N.to_nat i := m']> ms)
      | None => ret ms
      end
  end.

(** *** Spring *)

Context {RM : Raymath T}.

(** [spring->first] and [spring->second] are read in the mass array [ms]
    of the system that owns the spring; the four calls of
    [mass_force_append] update that array in place. *)
Definition spring_update (spring : Spring T) (ms : list (Mass T))
    : Out (list (Mass T)) :=
  let span :=
    Vector2Subtract (position (mass_at (second spring) ms))
                    (position (mass_at (first spring) ms)) in
  let force_direction := Vector2Normalize span in
  (* Spring force *)
  let displacement :=
    a_sub c_double (length_ spring) (a_cast c_double (Vector2Length span)) in
  ms <- update_at (first spring) (fun m =>
          mass_force_append m
            (Vector2Scale force_direction
               (a_cast c_float
                  (a_mul c_double (strength spring) (a_neg displacement))))) ms ;;
  ms <- update_at (second spring) (fun m =>
          mass_force_append m
            (Vector2Scale force_direction
               (a_cast c_float
                  (a_mul c_double (strength spring) displacement)))) ms ;;
  (* Dampener force *)
  let displacement_rate_first :=
    a_cast c_double
      (Vector2DotProduct (velocity (mass_at (first spring) ms)) force_direction) in
  let displacement_rate_second :=
    a_cast c_double
      (a_neg (Vector2DotProduct (velocity (mass_at (second spring) ms))
                                force_direction)) in
  let displacement_rate :=
    a_add c_double displacement_rate_first displacement_rate_second in
  ms <- update_at (first spring) (fun m =>
          mass_force_append m
            (Vector2Scale force_direction
               (a_cast c_float
                  (a_mul c_double (dampening spring) (a_neg displacement_rate))))) ms ;;
  update_at (second spring) (fun m =>
    mass_force_append m
      (Vector2Scale force_direction
         (a_cast c_float
            (a_mul c_double (dampening spring) displacement_rate)))) ms.

(** *** System *)

Definition set_masses (sys : System T) (ms : list (Mass T)) : System T :=
  mkSystem ms (springs sys) (mass_count sys) (spring_count sys).

(** [System system = {0}] *)
Definition Spring_zero : Spring T :=
  mkSpring NullPtr NullPtr (a_of_Z c_double 0) (a_of_Z c_double 0)
           (a_of_Z c_double 0).

Definition System_zero : System T :=
  mkSystem (replicate (N.to_nat SYSTEM_CAPACITY) Mass_zero)
           (replicate (N.to_nat SYSTEM_CAPACITY) Spring_zero) 0 0.

Definition system_add_mass (sys : System T) (m : Mass T) : Out (System T) :=
  if SYSTEM_CAPACITY <=? mass_count sys then
    printf ERR_MASSES ;; ret sys
  else
    ret (mkSystem (<[N.to_nat (mass_count sys) := m]> (masses sys))
                  (springs sys)
                  (size_add (mass_count sys) 1)
                  (spring_count sys)).

Definition system_add_spring (sys : System T) (spring : Spring T)
    (m1 m2 : N) : Out (System T) :=
  if SYSTEM_CAPACITY <=? spring_count sys then
    printf ERR_SPRINGS ;; ret sys
  else if mass_count sys <=? m1 then
    printf ERR_FIRST ;; ret sys
  else if mass_count sys <=? m2 then
    printf ERR_SECOND ;; ret sys
  else
    let spring :=
      mkSpring (MassAt m1) (MassAt m2) (length_ spring) (strength spring)
               (dampening spring) in
    ret (mkSystem (masses sys)
                  (<[N.to_nat (spring_count sys) := spring]> (springs sys))
                  (mass_count sys)
                  (size_add (spring_count sys) 1)).

(** An index beyond an array (possible only if a count exceeded
    [SYSTEM_CAPACITY], which the [system_add_*] functions never produce)
    is undefined in C; the model skips the iteration. *)
Definition system_spring_update (sys : System T) : Out (System T) :=
  for_loop (spring_count sys) (fun i sys =>
    match springs sys !! N.to_nat i with
    | Some spring =>
        ms <- spring_update spring (masses sys) ;; ret (set_masses sys ms)
    | None => ret sys
    end) sys.

Definition system_mass_update (sys : System T) (dt : T) : System T :=
  iter_loop (mass_count sys) (fun i sys =>
    match masses sys !! N.to_nat i with
    | Some m => set_masses sys (<[N.to_nat i := mass_update m dt]> (masses sys))
    | None => sys
    end) sys.

Definition system_mass_reset_forces (sys : System T) : System T :=
  iter_loop (mass_count sys) (fun i sys =>
    match masses sys !! N.to_nat i with
    | Some m =>
        set_masses sys (<[N.to_nat i := mass_reset_forces m]> (masses sys))
    | None => sys
    end) sys.

Definition system_mass_force_append (sys : System T) (force : Vec)
    : Out (System T) :=
  for_loop (mass_count sys) (fun i sys =>
    ms <- update_at (MassAt i) (fun m => mass_force_append m force)
                    (masses sys) ;;
    ret (set_masses sys ms)) sys.

Definition system_init_grid (sys : System T) (rows cols : N) (origin : Vec)
    (cell_size mass0 spring_strength spring_dampening : T) : Out (System T) :=
  let sys := mkSystem (masses sys) (springs sys) 0 0 in
  sys <- for_loop rows (fun r sys =>
           for_loop cols (fun c sys =>
             let m := Mass_zero in
             let m :=
               set_position m
                 (Vector2Add origin
                    (Vector2Scale
                       (V2 (a_of_Z c_float (Z.of_N c))
                           (a_of_Z c_float (Z.of_N r)))
                       (a_cast c_float cell_size))) in
             let m :=
               mkMass (position m) (velocity m) (acceleration m) (forces m)
                      (force_count m) mass0 (fixed m) in
             let m :=
               mkMass (position m) (velocity m) (acceleration m) (forces m)
                      (force_count m) (mass m) (r =? 0) in
             system_add_mass sys m) sys) sys ;;
  for_loop rows (fun r sys =>
    for_loop cols (fun c sys =>
      let m0 := size_add (size_mul r cols) c in
      let m1 := size_add (size_add (size_mul r cols) c) 1 in
      let m2 := size_add (size_mul (size_add r 1) cols) c in
      sys <- (if negb (c =? size_sub cols 1) && (m1 <? size_mul rows cols)
              then system_add_spring sys
                     (mkSpring NullPtr NullPtr cell_size spring_strength
                               spring_dampening) m0 m1
              else ret sys) ;;
      if negb (r =? size_sub rows 1) && (m2 <? size_mul rows cols)
      then system_add_spring sys
             (mkSpring NullPtr NullPtr cell_size spring_strength
                       spring_dampening) m0 m2
      else ret sys) sys) sys.

(** *** One tick of the driving loop of [main] (simulation running) *)

Definition WIND_STRENGTH : T := a_of_Z c_float 10.

Definition tick (wind_on : bool) (dt : T) (sys : System T) : Out (System T) :=
  sys <- system_spring_update sys ;;
  let sys := system_mass_update sys dt in
  let sys := system_mass_reset_forces sys in
  if wind_on then
    system_mass_force_append sys (V2 WIND_STRENGTH (a_of_Z c_float 0))
  else ret sys.

End Core.

(** ** raymath.h at the program's arithmetic *)

(** Modelled from the spec: raymath.h's [Vector2Length], the Euclidean
    length sqrtf(x*x + y*y). *)
Definition sf_Vector2Length (v : Vector2 spec_float) : spec_float :=
  SFsqrt 24 128
    (SFadd 24 128 (SFmul 24 128 (vx v) (vx v)) (SFmul 24 128 (vy v) (vy v))).

(** [Vector2Normalize] of raylib 4 and later (the program needs raylib 5.5
    for [Vector4Lerp]): the vector scaled by the reciprocal of its length
    when the length is positive, the zero vector otherwise. *)
Definition sf_Vector2Normalize (v : Vector2 spec_float) : Vector2 spec_float :=
  let length := sf_Vector2Length v in
  if SFltb (sf_of_Z c_float 0) length then
    let ilength := SFdiv 24 128 (sf_of_Z c_float 1) length in
    V2 (SFmul 24 128 (vx v) ilength) (SFmul 24 128 (vy v) ilength)
  else V2 (sf_of_Z c_float 0) (sf_of_Z c_float 0).

(** Modelled from the spec: normalize as the specification describes it,
    the vector scaled by the reciprocal of its length, which is not a
    number for the zero vector.  This is [Vector2Normalize] of raylib 3 and
    earlier. *)
Definition sf_Vector2Normalize_unguarded (v : Vector2 spec_float)
    : Vector2 spec_float :=
  Vector2Scale v (SFdiv 24 128 (sf_of_Z c_float 1) (sf_Vector2Length v)).

Definition raymath : Raymath spec_float :=
  {| Vector2Length := sf_Vector2Length;
     Vector2Normalize := sf_Vector2Normalize |}.

Definition raymath_unguarded : Raymath spec_float :=
  {| Vector2Length := sf_Vector2Length;
     Vector2Normalize := sf_Vector2Normalize_unguarded |}.

Definition f32 (z : Z) : spec_float := sf_of_Z c_float z.
Definition f64 (z : Z) : spec_float := sf_of_Z c_double z.

(** ** Specification-level definitions *)

Section Specification.
Context {T : Type} {AT : Arith T}.

#[local] Abbreviation Vec := (Vector2 T).

(** The forces accumulated on a mass in the current step. *)
Definition accumulated (m : Mass T) : list Vec :=
  take (N.to_nat (force_count m)) (forces m).

(** The collections of a system: the used slots of its arrays. *)
Definition mass_collection (sys : System T) : list (Mass T) :=
  take (N.to_nat (mass_count sys)) (masses sys).

Definition spring_collection (sys : System T) : list (Spring T) :=
  take (N.to_nat (spring_count sys)) (springs sys).

(** The force array has [FORCES_CAPACITY] slots. *)
Definition wf_mass (m : Mass T) : Prop :=
  length (forces m) = N.to_nat FORCES_CAPACITY.

(** The mass and spring arrays have [SYSTEM_CAPACITY] slots. *)
Definition wf_system (sys : System T) : Prop :=
  length (masses sys) = N.to_nat SYSTEM_CAPACITY /\
  length (springs sys) = N.to_nat SYSTEM_CAPACITY.

(** The acceleration a force adds to a mass of inertia [mass0]: the force
    scaled by the reciprocal [1 / mass0] (computed in [double], passed as
    [float]). *)
Definition acceleration_from (mass0 : T) (force : Vec) : Vec :=
  Vector2Scale force
    (a_cast c_float (a_div c_double (a_of_Z c_double 1) mass0)).

(** [integrate(dt)] in the words of the specification: gravity plus the
    accelerations of the accumulated forces, then the velocity, then the
    position from the new velocity. *)
Definition integrate_spec (m : Mass T) (dt : T) : Mass T :=
  let a :=
    foldl (fun a force => Vector2Add a (acceleration_from (mass m) force))
          GRAVITATIONAL_ACCELERATION (accumulated m) in
  let v := Vector2Add (velocity m) (Vector2Scale a (a_cast c_float dt)) in
  let p := Vector2Add (position m) (Vector2Scale v (a_cast c_float dt)) in
  mkMass p v a (forces m) (force_count m) (mass m) (fixed m).

(** Every fixed mass of [ms] is found in the same slot of [ms'], still
    fixed, with the same position and velocity. *)
Definition unmoved (ms ms' : list (Mass T)) : Prop :=
  forall (i : nat) (m : Mass T),
    ms !! i = Some m -> fixed m = true ->
    exists m', ms' !! i = Some m' /\ fixed m' = true /\
               position m' = position m /\ velocity m' = velocity m.

(** What an operation on a single mass must keep for fixed masses to stay
    in place. *)
Definition keeps_fixed (m m' : Mass T) : Prop :=
  fixed m = true ->
  fixed m' = true /\ position m' = position m /\ velocity m' = velocity m.

(** A spring is bound in a collection of [n] masses: both endpoints are
    addresses of slots below [n]. *)
Definition spring_bound (n : N) (s : Spring T) : Prop :=
  exists i j, first s = MassAt i /\ second s = MassAt j /\ i < n /\ j < n.

(** Every spring of the collection has both endpoints in the mass
    collection of the same system. *)
Definition endpoints_in_collection (sys : System T) : Prop :=
  forall s, s ∈ spring_collection sys -> spring_bound (mass_count sys) s.

(** No spring of the collection connects a mass to itself. *)
Definition endpoints_distinct (sys : System T) : Prop :=
  forall s, s ∈ spring_collection sys -> first s <> second s.

Definition counts_within_capacity (sys : System T) : Prop :=
  mass_count sys <= SYSTEM_CAPACITY /\ spring_count sys <= SYSTEM_CAPACITY.

Definition system_inv (sys : System T) : Prop :=
  counts_within_capacity sys /\ endpoints_in_collection sys.

(** The operation changes at most the contents of the mass array. *)
Definition same_topology (sys sys' : System T) : Prop :=
  springs sys' = springs sys /\ mass_count sys' = mass_count sys /\
  spring_count sys' = spring_count sys.

(** The operation [op] keeps the property [P] of systems. *)
Definition preserves (P : System T -> Prop) (op : System T -> System T)
    : Prop :=
  forall sys, P sys -> P (op sys).

Definition keeps_invariants (op : System T -> System T) : Prop :=
  preserves system_inv op /\ preserves endpoints_distinct op.

(** The mass after a successful [mass_force_append]. *)
Definition pushed (m : Mass T) (force : Vec) : Mass T :=
  set_forces m (<[N.to_nat (force_count m) := force]> (forces m))
             (force_count m + 1).

(** The negation of a vector (raymath.h's [Vector2Negate]). *)
Definition Vector2Negate (v : Vec) : Vec := V2 (a_neg (vx v)) (a_neg (vy v)).

(** The forces a step added to a mass: [m] before, [m'] after. *)
Definition applied (m m' : Mass T) : list Vec :=
  drop (N.to_nat (force_count m)) (accumulated m').

Definition vector_sum (fs : list Vec) : Vec := foldl Vector2Add Vector2Zero fs.

(** *** The lattice of buildGrid *)

(** The mass of row [r], column [c]: at origin + (c, r) * cell size, at
    rest, without forces, fixed exactly in row 0. *)
Definition lattice_mass (origin : Vec) (cell_size mass0 : T) (r c : N)
    : Mass T :=
  mkMass
    (Vector2Add origin
       (Vector2Scale (V2 (a_of_Z c_float (Z.of_N c)) (a_of_Z c_float (Z.of_N r)))
                     (a_cast c_float cell_size)))
    Vector2Zero Vector2Zero
    (replicate (N.to_nat FORCES_CAPACITY) Vector2Zero) 0 mass0 (r =? 0).

(** Two systems hold the same collections. *)
Definition same_collections (s1 s2 : System T) : Prop :=
  mass_count s1 = mass_count s2 /\ spring_count s1 = spring_count s2 /\
  mass_collection s1 = mass_collection s2 /\
  spring_collection s1 = spring_collection s2.

(** Same collections, in arrays of full size. *)
Definition alike (s1 s2 : System T) : Prop :=
  same_collections s1 s2 /\ wf_system s1 /\ wf_system s2.

(** *** Superposition *)

(** Applying forces to a mass, in order. *)
Definition apply_forces (m : Mass T) (fs : list Vec) : Mass T :=
  foldl (fun m force => fst (mass_force_append m force)) m fs.

(** All the forces accumulated, then one integration. *)
Definition integrate_once (m : Mass T) (fs : list Vec) (dt : T) : Mass T :=
  mass_update (apply_forces m fs) dt.

(** One integration pass per force: the force is applied, the mass is
    integrated and its force list is reset, as in one tick. *)
Definition integrate_each (m : Mass T) (fs : list Vec) (dt : T) : Mass T :=
  foldl (fun m force =>
           mass_reset_forces (mass_update (fst (mass_force_append m force)) dt))
        m fs.

(** *** The four contributions of one spring step *)

Context {RM : Raymath T}.

Definition spring_span (spring : Spring T) (ms : list (Mass T)) : Vec :=
  Vector2Subtract (position (mass_at (second spring) ms))
                  (position (mass_at (first spring) ms)).

Definition spring_direction (spring : Spring T) (ms : list (Mass T)) : Vec :=
  Vector2Normalize (spring_span spring ms).

Definition spring_displacement (spring : Spring T) (ms : list (Mass T)) : T :=
  a_sub c_double (length_ spring)
        (a_cast c_double (Vector2Length (spring_span spring ms))).

Definition spring_force_first (spring : Spring T) (ms : list (Mass T)) : Vec :=
  Vector2Scale (spring_direction spring ms)
    (a_cast c_float
       (a_mul c_double (strength spring)
              (a_neg (spring_displacement spring ms)))).

Definition spring_force_second (spring : Spring T) (ms : list (Mass T)) : Vec :=
  Vector2Scale (spring_direction spring ms)
    (a_cast c_float
       (a_mul c_double (strength spring) (spring_displacement spring ms))).

Definition displacement_rate (spring : Spring T) (ms : list (Mass T)) : T :=
  a_add c_double
    (a_cast c_double
       (Vector2DotProduct (velocity (mass_at (first spring) ms))
                          (spring_direction spring ms)))
    (a_cast c_double
       (a_neg (Vector2DotProduct (velocity (mass_at (second spring) ms))
                                 (spring_direction spring ms)))).

Definition dampener_force_first (spring : Spring T) (ms : list (Mass T)) : Vec :=
  Vector2Scale (spring_direction spring ms)
    (a_cast c_float
       (a_mul c_double (dampening spring)
              (a_neg (displacement_rate spring ms)))).

Definition dampener_force_second (spring : Spring T) (ms : list (Mass T)) : Vec :=
  Vector2Scale (spring_direction spring ms)
    (a_cast c_float
       (a_mul c_double (dampening spring) (displacement_rate spring ms))).

End Specification.

(** ** Floating-point values *)

(** Zeros and finite numbers, as opposed to infinities and NaN. *)
Definition sf_finite (x : spec_float) : bool :=
  match x with
  | S754_zero _ | S754_finite _ _ _ => true
  | _ => false
  end.

Definition sf_is_zero (x : spec_float) : bool :=
  match x with
  | S754_zero _ => true
  | _ => false
  end.

Definition finite_vec (v : Vector2 spec_float) : Prop :=
  sf_finite (vx v) = true /\ sf_finite (vy v) = true.

Definition zero_vec (v : Vector2 spec_float) : Prop :=
  sf_is_zero (vx v) = true /\ sf_is_zero (vy v) = true.

(** ** Example inputs *)

Definition v2 (x y : Z) : Vector2 spec_float := V2 (f32 x) (f32 y).

(** A free mass of inertia 1 with [n] forces (all zero) accumulated. *)
Definition example_mass (p v : Vector2 spec_float) (n : N) : Mass spec_float :=
  mkMass p v Vector2Zero (replicate (N.to_nat FORCES_CAPACITY) Vector2Zero) n
         (f64 1) false.

(** A mass array whose first two slots hold a mass at (0,0) moving with
    velocity (1,0) and a mass at rest at (1,0). *)
Definition example_masses (n_first n_second : N) : list (Mass spec_float) :=
  example_mass (v2 0 0) (v2 1 0) n_first ::
  example_mass (v2 1 0) (v2 0 0) n_second ::
  replicate (N.to_nat SYSTEM_CAPACITY - 2) Mass_zero.

(** A spring between them: rest length 2, strength 1, dampening 1. *)
Definition example_spring : Spring spec_float :=
  mkSpring (MassAt 0) (MassAt 1) (f64 2) (f64 1) (f64 1).

(** Two masses at rest at the same place, and a spring between them whose
    strength times rest length, 2^127 * 2, exceeds the range of [float]. *)
Definition coincident_masses : list (Mass spec_float) :=
  example_mass (v2 0 0) (v2 0 0) 0 ::
  example_mass (v2 0 0) (v2 0 0) 0 ::
  replicate (N.to_nat SYSTEM_CAPACITY - 2) Mass_zero.

Definition stiff_spring : Spring spec_float :=
  mkSpring (MassAt 0) (MassAt 1) (f64 2) (f64 (2 ^ 127)) (f64 1).

(** A spring between the example masses whose spring force, 2^127 * 3,
    exceeds the range of [float]. *)
Definition overflowing_spring : Spring spec_float :=
  mkSpring (MassAt 0) (MassAt 1) (f64 4) (f64 (2 ^ 127)) (f64 1).

(** A system whose mass collection is the two example masses. *)
Definition two_mass_system : System spec_float :=
  mkSystem (example_masses 0 0)
           (replicate (N.to_nat SYSTEM_CAPACITY) Spring_zero) 2 0.

(** A system whose mass collection is full. *)
Definition full_system : System spec_float :=
  mkSystem (example_masses 0 0)
           (replicate (N.to_nat SYSTEM_CAPACITY) Spring_zero)
           SYSTEM_CAPACITY 0.

(** The zeroed system after one [system_add_mass]. *)
Definition one_mass_system : System spec_float :=
  fst (system_add_mass System_zero Mass_zero).

(** A fixed mass with two forces accumulated. *)
Definition pinned_mass : Mass spec_float :=
  mkMass (v2 3 4) (v2 0 0) Vector2Zero
         (replicate (N.to_nat FORCES_CAPACITY) (v2 5 5)) 2 (f64 1) true.

(** ** The driving loop of [main] *)

(** What one iteration of the loop reads from the window: the three key
    presses and the frame time ([GetFrameTime], a [float]). *)
Record Frame (T : Type) := mkFrame {
  key_space : bool;
  key_period : bool;
  key_enter : bool;
  frame_time : T
}.
Arguments mkFrame {T}.
Arguments key_space {T}.
Arguments key_period {T}.
Arguments key_enter {T}.
Arguments frame_time {T}.

(** The local variables of [main]. *)
Record Program (T : Type) := mkProgram {
  running : bool;
  wind_on : bool;
  system : System T
}.
Arguments mkProgram {T}.
Arguments running {T}.
Arguments wind_on {T}.
Arguments system {T}.

Section Main.
Context {T : Type} {AT : Arith T} {RM : Raymath T}.

Definition TIME_SCALE : T := a_of_Z c_float 1.
Definition DEFAULT_GRID_ROWS : N := 20.
Definition DEFAULT_GRID_COLS : N := 20.
Definition DEFAULT_GRID_SIZE : T := a_of_Z c_float 25.
Definition DEFAULT_GRID_ORIGIN : Vector2 T :=
  V2 (a_of_Z c_float 10) (a_of_Z c_float 10).
Definition DEFAULT_GRID_MASS : T := a_of_Z c_float 1.
Definition DEFAULT_GRID_STRENGTH : T := a_of_Z c_float 1000.
Definition DEFAULT_GRID_DAMPENING : T := a_of_Z c_float 1.

(** The [float] constants are converted to the [double] parameters of
    [system_init_grid]. *)
Definition INIT_DEFAULT_GRID (sys : System T) : Out (System T) :=
  system_init_grid sys DEFAULT_GRID_ROWS DEFAULT_GRID_COLS DEFAULT_GRID_ORIGIN
    (a_cast c_double DEFAULT_GRID_SIZE) (a_cast c_double DEFAULT_GRID_MASS)
    (a_cast c_double DEFAULT_GRID_STRENGTH)
    (a_cast c_double DEFAULT_GRID_DAMPENING).

(** [main] up to the loop: both switches off, the zeroed system filled with
    the default grid. *)
Definition main_start : Out (Program T) :=
  sys <- INIT_DEFAULT_GRID System_zero ;;
  ret (mkProgram false false sys).

(** One iteration of the loop.  Drawing reads the system and prints
    nothing on the standard output; it is not modelled. *)
Definition main_frame (fr : Frame T) (st : Program T) : Out (Program T) :=
  let running' := if key_space fr then negb (running st) else running st in
  let wind_on' := if key_period fr then negb (wind_on st) else wind_on st in
  sys <- (if key_enter fr then INIT_DEFAULT_GRID (system st)
          else ret (system st)) ;;
  if negb running' then ret (mkProgram running' wind_on' sys)
  else
    let dt := a_cast c_double (a_mul c_float TIME_SCALE (frame_time fr)) in
    sys <- tick wind_on' dt sys ;;
    ret (mkProgram running' wind_on' sys).

(** The loop over the frames shown before the window is closed. *)
Fixpoint main_loop (frames : list (Frame T)) (st : Program T)
    : Out (Program T) :=
  match frames with
  | [] => ret st
  | fr :: frames => st <- main_frame fr st ;; main_loop frames st
  end.

Definition main (frames : list (Frame T)) : Out (Program T) :=
  st <- main_start ;; main_loop frames st.

End Main.

(** ** Further specification-level definitions *)

Section Bounds.
Context {T : Type} {AT : Arith T}.

(** The force array has its full size and the force count is within it:
    every read [forces[i]] with [i < force_count] is inside the array. *)
Definition mass_ok (m : Mass T) : Prop :=
  wf_mass m /\ force_count m <= FORCES_CAPACITY.

Definition arrays_ok (sys : System T) : Prop :=
  wf_system sys /\ Forall mass_ok (masses sys).

(** [m'] is [m] with forces appended to its list and nothing else
    changed. *)
Definition forces_appended (m m' : Mass T) : Prop :=
  position m' = position m /\ velocity m' = velocity m /\
  acceleration m' = acceleration m /\ mass m' = mass m /\
  fixed m' = fixed m /\
  length (forces m') = length (forces m) /\
  force_count m <= force_count m' /\
  (force_count m <= FORCES_CAPACITY -> force_count m' <= FORCES_CAPACITY) /\
  (wf_mass m -> exists fs, accumulated m' = accumulated m ++ fs).

(** Slot by slot, [ms'] is [ms] with forces appended. *)
Definition only_forces_appended (ms ms' : list (Mass T)) : Prop :=
  length ms' = length ms /\
  forall (i : nat) (m : Mass T),
    ms !! i = Some m -> exists m', ms' !! i = Some m' /\ forces_appended m m'.

(** The number of spring ends attached to the mass of slot [i]. *)
Definition ptr_is (p : MassPtr) (i : N) : bool :=
  match p with
  | MassAt j => j =? i
  | NullPtr => false
  end.

Definition ends_at (s : Spring T) (i : N) : N :=
  (if ptr_is (first s) i then 1 else 0) + (if ptr_is (second s) i then 1 else 0).

Fixpoint incidence (i : N) (l : list (Spring T)) : N :=
  match l with
  | [] => 0
  | s :: l => ends_at s i + incidence i l
  end.

Definition ptr_incidence (p : MassPtr) (l : list (Spring T)) : N :=
  match p with
  | MassAt i => incidence i l
  | NullPtr => 0
  end.

(** The largest number of spring ends attached to one mass. *)
Definition max_incidence (l : list (Spring T)) : N :=
  foldr (fun s acc =>
           N.max (N.max (ptr_incidence (first s) l)
                        (ptr_incidence (second s) l)) acc) 0 l.

(** The number of edges of a lattice of [rows] by [cols] masses. *)
Definition grid_spring_count (rows cols : N) : N :=
  rows * (cols - 1) + (rows - 1) * cols.

(** A spring along an edge of the lattice: from the mass of row [r],
    column [c] to its right or lower neighbour. *)
Definition lattice_edge (rows cols : N) (cell_size k d : T) (s : Spring T)
    : Prop :=
  exists r c,
    r < rows /\ c < cols /\ first s = MassAt (r * cols + c) /\
    ((second s = MassAt (r * cols + c + 1) /\ c + 1 < cols) \/
     (second s = MassAt ((r + 1) * cols + c) /\ r + 1 < rows)) /\
    length_ s = cell_size /\ strength s = k /\ dampening s = d.

(** Forces applied to one mass in order, with the lines printed. *)
Fixpoint mass_force_append_all (m : Mass T) (fs : list (Vector2 T))
    : Out (Mass T) :=
  match fs with
  | [] => ret m
  | f :: fs => m <- mass_force_append m f ;; mass_force_append_all m fs
  end.

(** The masses of row 0 of the default grid are in place, fixed and at
    rest. *)
Definition top_row_pinned (sys : System T) : Prop :=
  forall c, c < DEFAULT_GRID_COLS ->
    exists m,
      masses sys !! N.to_nat c = Some m /\ fixed m = true /\
      velocity m = Vector2Zero /\
      position m =
        Vector2Add DEFAULT_GRID_ORIGIN
          (Vector2Scale (V2 (a_of_Z c_float (Z.of_N c)) (a_of_Z c_float 0))
                        (a_cast c_float (a_cast c_double DEFAULT_GRID_SIZE))).

(** What the system of the running program satisfies after every frame:
    arrays and force counts within bounds, the springs of the default grid
    between masses of the collection, at most the wind force accumulated on
    a mass, and the top row in place. *)
Definition cloth (sys : System T) : Prop :=
  arrays_ok sys /\ system_inv sys /\ endpoints_distinct sys /\
  mass_count sys = DEFAULT_GRID_ROWS * DEFAULT_GRID_COLS /\
  spring_collection sys
    = spring_collection (fst (INIT_DEFAULT_GRID System_zero)) /\
  spring_count sys = grid_spring_count DEFAULT_GRID_ROWS DEFAULT_GRID_COLS /\
  Forall (fun m => force_count m <= 1) (mass_collection sys) /\
  top_row_pinned sys.

End Bounds.

(** ** Further example inputs *)

(** A spring of rest length 1 between the slots 0 and 1, and two masses one
    unit apart that move with the same velocity. *)
Definition rest_spring : Spring spec_float :=
  mkSpring (MassAt 0) (MassAt 1) (f64 1) (f64 1000) (f64 1).

Definition drifting_masses : list (Mass spec_float) :=
  example_mass (v2 0 0) (v2 3 4) 0 ::
  example_mass (v2 1 0) (v2 3 4) 0 ::
  replicate (N.to_nat SYSTEM_CAPACITY - 2) Mass_zero.

(** A spring from the mass of slot 0 to itself. *)
Definition looped_spring : Spring spec_float :=
  mkSpring (MassAt 0) (MassAt 0) (f64 2) (f64 1) (f64 1).

(** The two example masses joined by the example spring. *)
Definition sprung_system : System spec_float :=
  fst (system_add_spring two_mass_system example_spring 0 1).

(** A frame in which only ENTER is pressed. *)
Definition enter_frame : Frame spec_float := mkFrame false false true (f32 0).

(** A free mass of inertia 0 with the force (1,0) accumulated. *)
Definition weightless_mass : Mass spec_float :=
  mkMass (v2 0 0) (v2 0 0) Vector2Zero
         (replicate (N.to_nat FORCES_CAPACITY) (v2 1 0)) 1 (f64 0) false.

(** Both components are an infinity or NaN. *)
Definition lost_vec (v : Vector2 spec_float) : Prop :=
  sf_finite (vx v) = false /\ sf_finite (vy v) = false.

(** * Properties *)

(** ** The output monad and the loops *)

Lemma bind_ret_l {A B} (a : A) (f : A -> Out B) : bind (ret a) f = f a.
Proof. unfold bind, ret. destruct (f a) as [b o]. reflexivity. Qed.

Lemma bind_ret_l_out {A B} (a : A) (f : A -> Out B) : bind (a, []) f = f a.
Proof. exact (bind_ret_l a f). Qed.

Lemma bind_out {A B} (a : A) (o : list string) (f : A -> Out B) :
  bind (a, o) f = (fst (f a), o ++ snd (f a)).
Proof. unfold bind. destruct (f a). reflexivity. Qed.

Lemma bind_fst {A B} (m : Out A) (f : A -> Out B) :
  fst (bind m f) = fst (f (fst m)).
Proof. destruct m as [a o1]. simpl. destruct (f a). reflexivity. Qed.

Lemma bind_snd {A B} (m : Out A) (f : A -> Out B) :
  snd (bind m f) = snd m ++ snd (f (fst m)).
Proof. destruct m as [a o1]. simpl. destruct (f a). reflexivity. Qed.

(** Invariant rule for [for_range]: [P j s o] relates the loop index, the
    state and the lines printed so far. *)
Lemma for_range_inv {S} (P : N -> S -> list string -> Prop)
    (body : N -> S -> Out S) (fuel : nat) :
  forall i s o,
    P i s o ->
    (forall j s o, i <= j < i + N.of_nat fuel -> P j s o ->
       P (N.succ j) (fst (body j s)) (o ++ snd (body j s))) ->
    P (i + N.of_nat fuel) (fst (for_range fuel i body s))
      (o ++ snd (for_range fuel i body s)).
Proof.
  induction fuel as [|fuel IH]; intros i s o H0 Hstep.
  - simpl. rewrite N.add_0_r, app_nil_r. exact H0.
  - cbn [for_range]. rewrite bind_fst, bind_snd, app_assoc.
    replace (i + N.of_nat (Datatypes.S fuel)) with (N.succ i + N.of_nat fuel) by lia.
    apply IH.
    + apply Hstep; [lia | exact H0].
    + intros j s' o' Hj. apply Hstep. lia.
Qed.

Lemma for_loop_inv {S} (P : N -> S -> list string -> Prop)
    (body : N -> S -> Out S) (n : N) (s : S) :
  P 0 s [] ->
  (forall j s o, j < n -> P j s o ->
     P (N.succ j) (fst (body j s)) (o ++ snd (body j s))) ->
  P n (fst (for_loop n body s)) (snd (for_loop n body s)).
Proof.
  intros H0 Hstep. unfold for_loop.
  pose proof (for_range_inv P body (N.to_nat n) 0 s [] H0) as H.
  rewrite N2Nat.id in H. simpl in H. apply H.
  intros j s' o' Hj. apply Hstep. lia.
Qed.

Lemma iter_range_inv {S} (P : N -> S -> Prop) (body : N -> S -> S)
    (fuel : nat) :
  forall i s,
    P i s ->
    (forall j s, i <= j < i + N.of_nat fuel -> P j s -> P (N.succ j) (body j s)) ->
    P (i + N.of_nat fuel) (iter_range fuel i body s).
Proof.
  induction fuel as [|fuel IH]; intros i s H0 Hstep.
  - simpl. rewrite N.add_0_r. exact H0.
  - cbn [iter_range].
    replace (i + N.of_nat (Datatypes.S fuel)) with (N.succ i + N.of_nat fuel) by lia.
    apply IH.
    + apply Hstep; [lia | exact H0].
    + intros j s' Hj. apply Hstep. lia.
Qed.

Lemma iter_loop_inv {S} (P : N -> S -> Prop) (body : N -> S -> S)
    (n : N) (s : S) :
  P 0 s ->
  (forall j s, j < n -> P j s -> P (N.succ j) (body j s)) ->
  P n (iter_loop n body s).
Proof.
  intros H0 Hstep. unfold iter_loop.
  pose proof (iter_range_inv P body (N.to_nat n) 0 s H0) as H.
  rewrite N2Nat.id in H. simpl in H. apply H.
  intros j s' Hj. apply Hstep. lia.
Qed.

Lemma insert_twice_alternating {A} (l : list A) (i j : nat) (a1 a2 b1 b2 : A) :
  i <> j ->
  <[j := b2]> (<[i := a2]> (<[j := b1]> (<[i := a1]> l)))
  = <[j := b2]> (<[i := a2]> l).
Proof.
  intros Hne.
  rewrite (list_insert_insert_ne (<[i := a1]> l) i j a2 b1) by assumption.
  rewrite !list_insert_insert_eq. reflexivity.
Qed.

Lemma size_add_small (a b : N) : a + b < SIZE_MOD -> size_add a b = a + b.
Proof. intros H. unfold size_add. apply N.mod_small. exact H. Qed.

(** Arithmetic goals about counts below the capacities. *)
Ltac size_lia :=
  unfold SYSTEM_CAPACITY, FORCES_CAPACITY, SIZE_MOD in *; simpl; lia.

Section Mass_properties.
Context {T : Type} {AT : Arith T}.

#[local] Abbreviation Vec := (Vector2 T).

Lemma set_acceleration_id (m : Mass T) : set_acceleration m (acceleration m) = m.
Proof. destruct m; reflexivity. Qed.

Lemma mass_update_loop (fuel k : nat) (m : Mass T) :
  iter_range fuel (N.of_nat k)
    (fun i m =>
       match forces m !! N.to_nat i with
       | Some f =>
           set_acceleration m
             (Vector2Add (acceleration m)
                (Vector2Scale f
                   (a_cast c_float
                      (a_div c_double (a_of_Z c_double 1) (mass m)))))
       | None => m
       end) m
  = set_acceleration m
      (foldl (fun a force => Vector2Add a (acceleration_from (mass m) force))
             (acceleration m) (take fuel (drop k (forces m)))).
Proof.
  revert k m. induction fuel as [|fuel IH]; intros k m.
  - simpl. symmetry. apply set_acceleration_id.
  - cbn [iter_range]. rewrite Nat2N.id.
    replace (N.succ (N.of_nat k)) with (N.of_nat (Datatypes.S k)) by lia.
    destruct (forces m !! k) as [f|] eqn:Hk.
    + rewrite IH. cbn [set_acceleration forces mass acceleration].
      rewrite (drop_S _ _ _ Hk). cbn [take foldl].
      reflexivity.
    + rewrite IH.
      apply lookup_ge_None_1 in Hk.
      rewrite !drop_ge by lia. rewrite !take_nil. reflexivity.
Qed.

Lemma mass_update_free (m : Mass T) (dt : T) :
  fixed m = false ->
  mass_update m dt = integrate_spec m dt.
Proof.
  intros Hfree. unfold mass_update, integrate_spec, accumulated, iter_loop.
  rewrite Hfree.
  change 0 with (N.of_nat 0).
  rewrite mass_update_loop.
  unfold set_position, set_velocity, set_acceleration. simpl.
  rewrite drop_0, Hfree. reflexivity.
Qed.

(** C1. For every non-fixed mass and every dt, mass_update sets the
    acceleration to gravity plus the accelerations (force scaled by 1/mass)
    of the accumulated forces, then adds acceleration * dt to the velocity,
    then adds the updated velocity * dt to the position. *)
Theorem mass_update_integrates (m : Mass T) (dt : T) :
  fixed m = false ->
  acceleration (mass_update m dt) =
    foldl (fun a force => Vector2Add a (acceleration_from (mass m) force))
          GRAVITATIONAL_ACCELERATION (accumulated m) /\
  velocity (mass_update m dt) =
    Vector2Add (velocity m)
      (Vector2Scale (acceleration (mass_update m dt)) (a_cast c_float dt)) /\
  position (mass_update m dt) =
    Vector2Add (position m)
      (Vector2Scale (velocity (mass_update m dt)) (a_cast c_float dt)) /\
  mass_update m dt = integrate_spec m dt.
Proof.
  intros Hfree. rewrite (mass_update_free m dt Hfree).
  unfold integrate_spec. simpl. auto.
Qed.

(** *** applyForce and addMass *)

Lemma mass_force_append_full (m : Mass T) (force : Vec) :
  FORCES_CAPACITY <= force_count m ->
  mass_force_append m force = (m, [ERR_FORCES]).
Proof.
  intros H. unfold mass_force_append.
  apply N.leb_le in H. rewrite H. reflexivity.
Qed.

Lemma mass_force_append_free (m : Mass T) (force : Vec) :
  force_count m < FORCES_CAPACITY ->
  mass_force_append m force = (pushed m force, []).
Proof.
  intros H. unfold mass_force_append.
  apply N.leb_gt in H as Hb. rewrite Hb.
  rewrite size_add_small by size_lia. reflexivity.
Qed.

Lemma accumulated_append (m : Mass T) (force : Vec) :
  wf_mass m -> force_count m < FORCES_CAPACITY ->
  accumulated (set_forces m (<[N.to_nat (force_count m) := force]> (forces m))
                          (force_count m + 1))
  = accumulated m ++ [force].
Proof.
  intros Hwf H. unfold accumulated, wf_mass in *. simpl.
  replace (N.to_nat (force_count m + 1)) with (Datatypes.S (N.to_nat (force_count m))) by lia.
  erewrite take_S_r.
  - rewrite take_insert_ge by lia. reflexivity.
  - apply list_lookup_insert_eq. lia.
Qed.

(** C6. Capacity rejection is non-mutating: addMass on a full mass
    collection and applyForce on a full force list report an error and
    change nothing; otherwise applyForce appends the force and the force
    count grows by exactly one. *)
Theorem capacity_rejection_is_non_mutating :
  (forall (sys : System T) (m : Mass T),
     SYSTEM_CAPACITY <= mass_count sys ->
     system_add_mass sys m = (sys, [ERR_MASSES])) /\
  (forall (m : Mass T) (force : Vec),
     FORCES_CAPACITY <= force_count m ->
     mass_force_append m force = (m, [ERR_FORCES])) /\
  (forall (m : Mass T) (force : Vec),
     wf_mass m -> force_count m < FORCES_CAPACITY ->
     exists m',
       mass_force_append m force = (m', []) /\
       force_count m' = force_count m + 1 /\
       accumulated m' = accumulated m ++ [force] /\
       position m' = position m /\ velocity m' = velocity m /\
       acceleration m' = acceleration m /\ mass m' = mass m /\
       fixed m' = fixed m).
Proof.
  split; [|split].
  - intros sys m H. unfold system_add_mass.
    apply N.leb_le in H. rewrite H. reflexivity.
  - apply mass_force_append_full.
  - intros m force Hwf H. eexists. split.
    + apply mass_force_append_free. exact H.
    + split; [reflexivity|]. split; [|repeat split; reflexivity].
      apply accumulated_append; assumption.
Qed.

End Mass_properties.

Section System_properties.
Context {T : Type} {AT : Arith T}.

(** *** addSpring *)

(** C5. addSpring succeeds exactly when the spring collection is not full
    and both indices are below the mass count; it then binds the endpoints
    to the masses at those indices and appends the spring.  Otherwise it
    reports an error and leaves the whole system as it was. *)
Theorem system_add_spring_validates
    (sys : System T) (spring : Spring T) (m1 m2 : N) :
  (spring_count sys < SYSTEM_CAPACITY ->
   m1 < mass_count sys -> m2 < mass_count sys ->
   wf_system sys ->
   exists sys',
     system_add_spring sys spring m1 m2 = (sys', []) /\
     spring_collection sys' =
       spring_collection sys ++
         [mkSpring (MassAt m1) (MassAt m2) (length_ spring)
                   (strength spring) (dampening spring)] /\
     spring_count sys' = spring_count sys + 1 /\
     masses sys' = masses sys /\ mass_count sys' = mass_count sys) /\
  (SYSTEM_CAPACITY <= spring_count sys \/
   mass_count sys <= m1 \/ mass_count sys <= m2 ->
   exists msg,
     msg ∈ [ERR_SPRINGS; ERR_FIRST; ERR_SECOND] /\
     system_add_spring sys spring m1 m2 = (sys, [msg])).
Proof.
  unfold system_add_spring. split.
  - intros Hs H1 H2 [_ Hlen].
    rewrite (proj2 (N.leb_gt _ _) Hs), (proj2 (N.leb_gt _ _) H1),
            (proj2 (N.leb_gt _ _) H2).
    eexists. split; [reflexivity|].
    rewrite size_add_small
      by size_lia.
    split; [|repeat split; reflexivity].
    unfold spring_collection. simpl.
    replace (N.to_nat (spring_count sys + 1))
      with (Datatypes.S (N.to_nat (spring_count sys))) by lia.
    erewrite take_S_r.
    + rewrite take_insert_ge by lia. reflexivity.
    + apply list_lookup_insert_eq. lia.
  - intros H.
    destruct (SYSTEM_CAPACITY <=? spring_count sys) eqn:E0;
      [eexists; split; [|reflexivity]; repeat constructor|].
    destruct (mass_count sys <=? m1) eqn:E1;
      [eexists; split; [|reflexivity]; repeat constructor|].
    destruct (mass_count sys <=? m2) eqn:E2;
      [eexists; split; [|reflexivity]; repeat constructor|].
    apply N.leb_gt in E0, E1, E2. lia.
Qed.

(** *** Fixed masses *)

Lemma unmoved_refl (ms : list (Mass T)) : unmoved ms ms.
Proof. intros i m Hi Hf. exists m. auto. Qed.

Lemma unmoved_trans (ms1 ms2 ms3 : list (Mass T)) :
  unmoved ms1 ms2 -> unmoved ms2 ms3 -> unmoved ms1 ms3.
Proof.
  intros H12 H23 i m Hi Hf.
  destruct (H12 i m Hi Hf) as (m2 & Hi2 & Hf2 & Hp2 & Hv2).
  destruct (H23 i m2 Hi2 Hf2) as (m3 & Hi3 & Hf3 & Hp3 & Hv3).
  exists m3. repeat split; congruence.
Qed.

Lemma unmoved_insert (ms : list (Mass T)) (i : nat) (m m' : Mass T) :
  ms !! i = Some m -> keeps_fixed m m' -> unmoved ms (<[i := m']> ms).
Proof.
  intros Hi Hk j mj Hj Hf.
  destruct (decide (i = j)) as [->|Hne].
  - rewrite Hi in Hj. injection Hj as <-.
    exists m'. split.
    + apply list_lookup_insert_eq. eapply lookup_lt_Some; eassumption.
    + apply Hk. exact Hf.
  - exists mj. rewrite list_lookup_insert_ne by assumption. auto.
Qed.

Lemma mass_force_append_keeps (m : Mass T) (force : Vector2 T) :
  keeps_fixed m (fst (mass_force_append m force)).
Proof.
  unfold mass_force_append, keeps_fixed.
  destruct (FORCES_CAPACITY <=? force_count m); simpl; auto.
Qed.

Lemma mass_reset_forces_keeps (m : Mass T) :
  keeps_fixed m (mass_reset_forces m).
Proof. unfold keeps_fixed. simpl. auto. Qed.

Lemma mass_update_fixed (m : Mass T) (dt : T) :
  fixed m = true -> mass_update m dt = m.
Proof. intros H. unfold mass_update. rewrite H. reflexivity. Qed.

Lemma mass_update_keeps (m : Mass T) (dt : T) :
  keeps_fixed m (mass_update m dt).
Proof. intros H. rewrite mass_update_fixed by assumption. auto. Qed.

Lemma update_at_unmoved (p : MassPtr) (f : Mass T -> Out (Mass T))
    (ms : list (Mass T)) :
  (forall m, keeps_fixed m (fst (f m))) ->
  unmoved ms (fst (update_at p f ms)).
Proof.
  intros Hf. unfold update_at.
  destruct p as [|i]; [apply unmoved_refl|].
  destruct (ms !! N.to_nat i) as [m|] eqn:Hi; [|apply unmoved_refl].
  rewrite bind_fst. simpl.
  eapply unmoved_insert; [eassumption | apply Hf].
Qed.

Lemma system_mass_update_unmoved (sys : System T) (dt : T) :
  unmoved (masses sys) (masses (system_mass_update sys dt)).
Proof.
  unfold system_mass_update.
  apply (iter_loop_inv (fun _ s => unmoved (masses sys) (masses s))).
  - apply unmoved_refl.
  - intros j s _ IH.
    destruct (masses s !! N.to_nat j) as [m|] eqn:Hj; [|exact IH].
    simpl. eapply unmoved_trans; [exact IH|].
    eapply unmoved_insert; [eassumption | apply mass_update_keeps].
Qed.

Lemma system_mass_reset_forces_unmoved (sys : System T) :
  unmoved (masses sys) (masses (system_mass_reset_forces sys)).
Proof.
  unfold system_mass_reset_forces.
  apply (iter_loop_inv (fun _ s => unmoved (masses sys) (masses s))).
  - apply unmoved_refl.
  - intros j s _ IH.
    destruct (masses s !! N.to_nat j) as [m|] eqn:Hj; [|exact IH].
    simpl. eapply unmoved_trans; [exact IH|].
    eapply unmoved_insert; [eassumption | apply mass_reset_forces_keeps].
Qed.

Lemma system_mass_force_append_unmoved (sys : System T) (force : Vector2 T) :
  unmoved (masses sys) (masses (fst (system_mass_force_append sys force))).
Proof.
  unfold system_mass_force_append.
  apply (for_loop_inv (fun _ s _ => unmoved (masses sys) (masses s))).
  - apply unmoved_refl.
  - intros j s o _ IH. rewrite bind_fst. cbn [ret set_masses fst masses].
    eapply unmoved_trans; [exact IH|].
    apply update_at_unmoved. intros m. apply mass_force_append_keeps.
Qed.

Context {RM : Raymath T}.

Lemma spring_update_unmoved (spring : Spring T) (ms : list (Mass T)) :
  unmoved ms (fst (spring_update spring ms)).
Proof.
  unfold spring_update. rewrite !bind_fst.
  repeat (eapply unmoved_trans;
          [|apply update_at_unmoved; intros m; apply mass_force_append_keeps]).
  apply unmoved_refl.
Qed.

Lemma system_spring_update_unmoved (sys : System T) :
  unmoved (masses sys) (masses (fst (system_spring_update sys))).
Proof.
  unfold system_spring_update.
  apply (for_loop_inv (fun _ s _ => unmoved (masses sys) (masses s))).
  - apply unmoved_refl.
  - intros j s o _ IH.
    destruct (springs s !! N.to_nat j) as [spring|]; [|exact IH].
    rewrite bind_fst. cbn [ret set_masses fst masses].
    eapply unmoved_trans; [exact IH | apply spring_update_unmoved].
Qed.

Lemma tick_unmoved (wind_on : bool) (dt : T) (sys : System T) :
  unmoved (masses sys) (masses (fst (tick wind_on dt sys))).
Proof.
  unfold tick. rewrite bind_fst.
  eapply unmoved_trans; [apply system_spring_update_unmoved|].
  eapply unmoved_trans; [apply system_mass_update_unmoved|].
  eapply unmoved_trans; [apply system_mass_reset_forces_unmoved|].
  destruct wind_on.
  - apply system_mass_force_append_unmoved.
  - apply unmoved_refl.
Qed.

Lemma system_add_spring_unmoved (sys : System T) (spring : Spring T)
    (m1 m2 : N) :
  unmoved (masses sys) (masses (fst (system_add_spring sys spring m1 m2))).
Proof.
  unfold system_add_spring.
  destruct (SYSTEM_CAPACITY <=? spring_count sys); [apply unmoved_refl|].
  destruct (mass_count sys <=? m1); [apply unmoved_refl|].
  destruct (mass_count sys <=? m2); apply unmoved_refl.
Qed.

Lemma system_add_mass_unmoved (sys : System T) (m : Mass T) :
  unmoved (mass_collection sys)
          (mass_collection (fst (system_add_mass sys m))).
Proof.
  unfold system_add_mass, mass_collection.
  destruct (SYSTEM_CAPACITY <=? mass_count sys) eqn:E; [apply unmoved_refl|].
  apply N.leb_gt in E. cbn [fst ret masses mass_count].
  rewrite size_add_small
    by size_lia.
  intros i m0 Hi Hfix. exists m0. split; [|auto].
  apply lookup_take_Some in Hi as [Hi Hlt].
  apply lookup_take_Some. split; [|lia].
  rewrite list_lookup_insert_ne by lia. exact Hi.
Qed.

(** C7. A fixed mass never moves: integrate is the identity on it for every
    dt and every accumulated forces, applyForce keeps its position and
    velocity, and stepSprings, stepMasses, resetForces, applyUniformForce, a
    whole tick of the driving loop, addSpring and addMass leave every fixed
    mass of the system fixed, at the same position and with the same
    velocity. *)
Theorem fixed_masses_never_move :
  (forall (m : Mass T) (dt : T), fixed m = true -> mass_update m dt = m) /\
  (forall (m : Mass T) (force : Vector2 T),
     fixed m = true ->
     fixed (fst (mass_force_append m force)) = true /\
     position (fst (mass_force_append m force)) = position m /\
     velocity (fst (mass_force_append m force)) = velocity m) /\
  (forall sys : System T,
     unmoved (masses sys) (masses (fst (system_spring_update sys)))) /\
  (forall (sys : System T) (dt : T),
     unmoved (masses sys) (masses (system_mass_update sys dt))) /\
  (forall sys : System T,
     unmoved (masses sys) (masses (system_mass_reset_forces sys))) /\
  (forall (sys : System T) (force : Vector2 T),
     unmoved (masses sys)
             (masses (fst (system_mass_force_append sys force)))) /\
  (forall (wind_on : bool) (dt : T) (sys : System T),
     unmoved (masses sys) (masses (fst (tick wind_on dt sys)))) /\
  (forall (sys : System T) (spring : Spring T) (m1 m2 : N),
     unmoved (masses sys) (masses (fst (system_add_spring sys spring m1 m2)))) /\
  (forall (sys : System T) (m : Mass T),
     unmoved (mass_collection sys)
             (mass_collection (fst (system_add_mass sys m)))).
Proof.
  split; [apply mass_update_fixed|].
  split; [intros m force Hm; apply mass_force_append_keeps; exact Hm|].
  split; [apply system_spring_update_unmoved|].
  split; [apply system_mass_update_unmoved|].
  split; [apply system_mass_reset_forces_unmoved|].
  split; [apply system_mass_force_append_unmoved|].
  split; [apply tick_unmoved|].
  split; [apply system_add_spring_unmoved | apply system_add_mass_unmoved].
Qed.

End System_properties.

Section Spring_properties.
Context {T : Type} {AT : Arith T} {RM : Raymath T}.

(** *** One spring step *)

Lemma mass_force_append_velocity (m : Mass T) (force : Vector2 T) :
  velocity (fst (mass_force_append m force)) = velocity m.
Proof.
  unfold mass_force_append.
  destruct (FORCES_CAPACITY <=? force_count m); reflexivity.
Qed.

Lemma mass_at_update_at_velocity (p q : MassPtr) (force : Vector2 T)
    (ms : list (Mass T)) :
  velocity
    (mass_at p (fst (update_at q (fun m => mass_force_append m force) ms)))
  = velocity (mass_at p ms).
Proof.
  unfold update_at.
  destruct q as [|j]; [reflexivity|].
  destruct (ms !! N.to_nat j) as [mj|] eqn:Hj; [|reflexivity].
  rewrite bind_fst. cbn [ret fst].
  unfold mass_at, deref. destruct p as [|i]; [reflexivity|].
  destruct (decide (N.to_nat j = N.to_nat i)) as [Heq|Hne].
  - rewrite <- Heq. rewrite list_lookup_insert_eq
      by (eapply lookup_lt_Some; eassumption).
    rewrite Hj. simpl. apply mass_force_append_velocity.
  - rewrite list_lookup_insert_ne by assumption. reflexivity.
Qed.

(** [spring_update] appends the four contributions computed from the state
    at the call: the velocities it reads between the appends are not
    changed by them. *)
Lemma spring_update_contributions (spring : Spring T) (ms : list (Mass T)) :
  spring_update spring ms =
    (ms1 <- update_at (first spring) (fun m =>
              mass_force_append m (spring_force_first spring ms)) ms ;;
     ms2 <- update_at (second spring) (fun m =>
              mass_force_append m (spring_force_second spring ms)) ms1 ;;
     ms3 <- update_at (first spring) (fun m =>
              mass_force_append m (dampener_force_first spring ms)) ms2 ;;
     update_at (second spring) (fun m =>
       mass_force_append m (dampener_force_second spring ms)) ms3).
Proof.
  unfold spring_update, bind.
  fold (spring_span spring ms). fold (spring_direction spring ms).
  fold (spring_displacement spring ms).
  fold (spring_force_first spring ms). fold (spring_force_second spring ms).
  pose proof (mass_at_update_at_velocity (first spring) (first spring)
                (spring_force_first spring ms) ms) as V1.
  pose proof (fun ms' => mass_at_update_at_velocity (first spring)
                (second spring) (spring_force_second spring ms) ms') as V2.
  pose proof (mass_at_update_at_velocity (second spring) (first spring)
                (spring_force_first spring ms) ms) as W1.
  pose proof (fun ms' => mass_at_update_at_velocity (second spring)
                (second spring) (spring_force_second spring ms) ms') as W2.
  destruct (update_at (first spring) _ ms) as [ms1 o1].
  specialize (V2 ms1). specialize (W2 ms1).
  destruct (update_at (second spring) _ ms1) as [ms2 o2].
  cbn [fst] in V1, V2, W1, W2.
  unfold dampener_force_first, dampener_force_second, displacement_rate.
  rewrite V2, V1, W2, W1. reflexivity.
Qed.

Lemma update_at_append_free (i : N) (ms : list (Mass T)) (m : Mass T)
    (force : Vector2 T) :
  ms !! N.to_nat i = Some m -> force_count m < FORCES_CAPACITY ->
  update_at (MassAt i) (fun m => mass_force_append m force) ms
  = (<[N.to_nat i := pushed m force]> ms, []).
Proof.
  intros Hi Hfree. unfold update_at. rewrite Hi.
  rewrite mass_force_append_free by assumption. reflexivity.
Qed.

Lemma update_at_append_full (i : N) (ms : list (Mass T)) (m : Mass T)
    (force : Vector2 T) :
  ms !! N.to_nat i = Some m -> FORCES_CAPACITY <= force_count m ->
  update_at (MassAt i) (fun m => mass_force_append m force) ms
  = (ms, [ERR_FORCES]).
Proof.
  intros Hi Hfull. unfold update_at. rewrite Hi.
  rewrite mass_force_append_full by assumption.
  unfold bind, ret. simpl. rewrite list_insert_id by assumption. reflexivity.
Qed.

Lemma pushed_wf (m : Mass T) (force : Vector2 T) :
  wf_mass m -> wf_mass (pushed m force).
Proof.
  unfold wf_mass, pushed. simpl. rewrite length_insert. auto.
Qed.

Lemma accumulated_pushed (m : Mass T) (force : Vector2 T) :
  wf_mass m -> force_count m < FORCES_CAPACITY ->
  accumulated (pushed m force) = accumulated m ++ [force].
Proof. apply accumulated_append. Qed.

Lemma accumulated_pushed2 (m : Mass T) (f1 f2 : Vector2 T) :
  wf_mass m -> force_count m + 2 <= FORCES_CAPACITY ->
  accumulated (pushed (pushed m f1) f2) = accumulated m ++ [f1; f2].
Proof.
  intros Hwf Hfree.
  rewrite accumulated_pushed.
  - rewrite accumulated_pushed by (assumption || lia).
    rewrite <- app_assoc. reflexivity.
  - apply pushed_wf. assumption.
  - simpl. lia.
Qed.

(** Both endpoints distinct and with two free slots each: the spring force
    and the dampener force are appended to [first], their counterparts to
    [second], and nothing is printed. *)
Lemma spring_update_paired (spring : Spring T) (ms : list (Mass T))
    (i j : N) (mi mj : Mass T) :
  first spring = MassAt i -> second spring = MassAt j -> i <> j ->
  ms !! N.to_nat i = Some mi -> ms !! N.to_nat j = Some mj ->
  force_count mi + 2 <= FORCES_CAPACITY ->
  force_count mj + 2 <= FORCES_CAPACITY ->
  spring_update spring ms =
    (<[N.to_nat j :=
         pushed (pushed mj (spring_force_second spring ms))
                (dampener_force_second spring ms)]>
       (<[N.to_nat i :=
            pushed (pushed mi (spring_force_first spring ms))
                   (dampener_force_first spring ms)]> ms), []).
Proof.
  intros Hf Hs Hne Hi Hj Hfi Hfj.
  assert (Hne' : N.to_nat i <> N.to_nat j) by lia.
  assert (Hli : (N.to_nat i < length ms)%nat)
    by (eapply lookup_lt_Some; eassumption).
  assert (Hlj : (N.to_nat j < length ms)%nat)
    by (eapply lookup_lt_Some; eassumption).
  rewrite spring_update_contributions, Hf, Hs.
  rewrite (update_at_append_free i ms mi) by (assumption || lia).
  rewrite bind_ret_l_out.
  erewrite (update_at_append_free j _ mj);
    [| rewrite list_lookup_insert_ne by assumption; exact Hj | lia].
  rewrite bind_ret_l_out.
  erewrite (update_at_append_free i _ (pushed mi _));
    [| rewrite list_lookup_insert_ne by congruence;
       apply list_lookup_insert_eq; assumption
     | simpl; lia].
  rewrite bind_ret_l_out.
  erewrite (update_at_append_free j _ (pushed mj _));
    [| rewrite list_lookup_insert_ne by assumption;
       apply list_lookup_insert_eq; rewrite length_insert; assumption
     | simpl; lia].
  rewrite insert_twice_alternating by assumption. reflexivity.
Qed.

(** [first] full, [second] distinct with two free slots: both appends to
    [first] are rejected and both appends to [second] are made. *)
Lemma spring_update_first_full (spring : Spring T) (ms : list (Mass T))
    (i j : N) (mi mj : Mass T) :
  first spring = MassAt i -> second spring = MassAt j -> i <> j ->
  ms !! N.to_nat i = Some mi -> ms !! N.to_nat j = Some mj ->
  FORCES_CAPACITY <= force_count mi ->
  force_count mj + 2 <= FORCES_CAPACITY ->
  spring_update spring ms =
    (<[N.to_nat j :=
         pushed (pushed mj (spring_force_second spring ms))
                (dampener_force_second spring ms)]> ms,
     [ERR_FORCES; ERR_FORCES]).
Proof.
  intros Hf Hs Hne Hi Hj Hfull Hfj.
  assert (Hne' : N.to_nat j <> N.to_nat i) by lia.
  assert (Hlj : (N.to_nat j < length ms)%nat)
    by (eapply lookup_lt_Some; eassumption).
  rewrite spring_update_contributions, Hf, Hs.
  rewrite (update_at_append_full i ms mi) by assumption.
  rewrite bind_out.
  rewrite (update_at_append_free j ms mj) by (assumption || lia).
  rewrite bind_ret_l_out.
  erewrite (update_at_append_full i _ mi);
    [| rewrite list_lookup_insert_ne by assumption; exact Hi | assumption].
  rewrite bind_out.
  erewrite (update_at_append_free j _ (pushed mj _));
    [| apply list_lookup_insert_eq; assumption | simpl; lia].
  simpl. rewrite list_insert_insert_eq. reflexivity.
Qed.

Lemma applied_pushed2 (m : Mass T) (f1 f2 : Vector2 T) :
  wf_mass m -> force_count m + 2 <= FORCES_CAPACITY ->
  applied m (pushed (pushed m f1) f2) = [f1; f2].
Proof.
  intros Hwf Hfree. unfold applied.
  rewrite accumulated_pushed2 by assumption.
  rewrite drop_app_length'; [reflexivity|].
  unfold accumulated, wf_mass in *. rewrite length_take_le; [reflexivity|].
  unfold FORCES_CAPACITY in *. lia.
Qed.

End Spring_properties.

Section Float_properties.

(** *** Negation in binary floating-point arithmetic *)

Lemma binary_round_aux_opp (prec emax : Z) (s : bool) (m e : Z)
    (l : location) :
  binary_round_aux prec emax (negb s) m e l
  = SFopp (binary_round_aux prec emax s m e l).
Proof.
  unfold binary_round_aux.
  destruct (shr_fexp prec emax m e l) as [mrs e'].
  destruct (shr_fexp prec emax _ e' loc_Exact) as [mrs' e''].
  destruct (shr_m mrs'); [reflexivity | | reflexivity].
  destruct (Z.leb e'' (emax - prec)); reflexivity.
Qed.

Lemma binary_round_opp (prec emax : Z) (s : bool) (m : positive) (e : Z) :
  binary_round prec emax (negb s) m e = SFopp (binary_round prec emax s m e).
Proof.
  unfold binary_round.
  destruct (shl_align m e _) as [mz ez]. apply binary_round_aux_opp.
Qed.

Lemma sf_cast_opp (t : ctype) (x : spec_float) :
  sf_cast t (SFopp x) = SFopp (sf_cast t x).
Proof. destruct x; simpl; try reflexivity. apply binary_round_opp. Qed.

Lemma SFopp_involutive (x : spec_float) : SFopp (SFopp x) = x.
Proof. destruct x; simpl; rewrite ?negb_involutive; reflexivity. Qed.

Lemma SFmul_opp_r (prec emax : Z) (x y : spec_float) :
  SFmul prec emax x (SFopp y) = SFopp (SFmul prec emax x y).
Proof.
  destruct x as [sx|sx| |sx mx ex], y as [sy|sy| |sy my ey]; simpl;
    try reflexivity;
    replace (xorb sx (negb sy)) with (negb (xorb sx sy))
      by (destruct sx, sy; reflexivity);
    try reflexivity.
  apply binary_round_aux_opp.
Qed.

Lemma SFadd_opp_diag (prec emax : Z) (x : spec_float) :
  sf_finite x = true -> SFadd prec emax x (SFopp x) = S754_zero false.
Proof.
  destruct x as [s|s| |s m e]; simpl; try discriminate; intros _.
  - destruct s; reflexivity.
  - rewrite Z.min_id.
    destruct (shl_align m e e) as [m' e']. simpl.
    destruct s; cbn [cond_Zopp negb];
      rewrite ?Z.add_opp_diag_l, ?Z.add_opp_diag_r; reflexivity.
Qed.

Context {RM : Raymath spec_float}.

Lemma spring_force_second_negate (spring : Spring spec_float)
    (ms : list (Mass spec_float)) :
  spring_force_second spring ms = Vector2Negate (spring_force_first spring ms).
Proof.
  unfold spring_force_first, spring_force_second, Vector2Negate, Vector2Scale.
  cbn [a_mul a_neg a_cast binary_arith vx vy].
  rewrite !SFmul_opp_r, !sf_cast_opp, !SFmul_opp_r, !SFopp_involutive.
  reflexivity.
Qed.

Lemma dampener_force_second_negate (spring : Spring spec_float)
    (ms : list (Mass spec_float)) :
  dampener_force_second spring ms
  = Vector2Negate (dampener_force_first spring ms).
Proof.
  unfold dampener_force_first, dampener_force_second, Vector2Negate,
    Vector2Scale.
  cbn [a_mul a_neg a_cast binary_arith vx vy].
  rewrite !SFmul_opp_r, !sf_cast_opp, !SFmul_opp_r, !SFopp_involutive.
  reflexivity.
Qed.

Lemma Vector2Add_negate (v : Vector2 spec_float) :
  finite_vec v -> Vector2Add v (Vector2Negate v) = Vector2Zero.
Proof.
  intros [Hx Hy]. unfold Vector2Add, Vector2Negate, Vector2Zero.
  cbn [a_add a_neg a_of_Z binary_arith vx vy].
  rewrite !SFadd_opp_diag by assumption. reflexivity.
Qed.

(** C2 (amended). A spring step on two distinct endpoints whose force lists
    each have at least two free slots reports nothing and applies to the
    first endpoint exactly the spring force and the dampener force, and to
    the second endpoint their exact negations, in the same order; each
    finite contribution and its negation add up to the zero vector. *)
Theorem spring_update_newtons_third_law
    (spring : Spring spec_float) (ms : list (Mass spec_float))
    (i j : N) (mi mj : Mass spec_float) :
  first spring = MassAt i -> second spring = MassAt j -> i <> j ->
  ms !! N.to_nat i = Some mi -> ms !! N.to_nat j = Some mj ->
  wf_mass mi -> wf_mass mj ->
  force_count mi + 2 <= FORCES_CAPACITY ->
  force_count mj + 2 <= FORCES_CAPACITY ->
  exists mi' mj',
    snd (spring_update spring ms) = [] /\
    fst (spring_update spring ms) !! N.to_nat i = Some mi' /\
    fst (spring_update spring ms) !! N.to_nat j = Some mj' /\
    applied mi mi' =
      [spring_force_first spring ms; dampener_force_first spring ms] /\
    applied mj mj' = map Vector2Negate (applied mi mi') /\
    (forall f, f ∈ applied mi mi' -> finite_vec f ->
               Vector2Add f (Vector2Negate f) = Vector2Zero).
Proof.
  intros Hf Hs Hne Hi Hj Hwi Hwj Hfi Hfj.
  assert (Hne' : N.to_nat i <> N.to_nat j) by lia.
  rewrite (spring_update_paired spring ms i j mi mj) by assumption.
  cbn [fst snd].
  eexists _, _. split; [reflexivity|].
  split.
  { rewrite list_lookup_insert_ne by congruence.
    apply list_lookup_insert_eq. eapply lookup_lt_Some; eassumption. }
  split.
  { apply list_lookup_insert_eq. rewrite length_insert.
    eapply lookup_lt_Some; eassumption. }
  rewrite !applied_pushed2 by assumption.
  split; [reflexivity|]. split.
  - rewrite spring_force_second_negate, dampener_force_second_negate.
    reflexivity.
  - intros f _. apply Vector2Add_negate.
Qed.

End Float_properties.

Lemma spring_update_newtons_third_law_witness :
  exists mi' mj',
    snd (spring_update (RM := raymath) example_spring (example_masses 0 0)) = [] /\
    fst (spring_update (RM := raymath) example_spring (example_masses 0 0))
      !! N.to_nat 0 = Some mi' /\
    fst (spring_update (RM := raymath) example_spring (example_masses 0 0))
      !! N.to_nat 1 = Some mj' /\
    applied (example_mass (v2 0 0) (v2 1 0) 0) mi' =
      [spring_force_first (RM := raymath) example_spring (example_masses 0 0);
       dampener_force_first (RM := raymath) example_spring (example_masses 0 0)] /\
    applied (example_mass (v2 1 0) (v2 0 0) 0) mj' =
      map Vector2Negate (applied (example_mass (v2 0 0) (v2 1 0) 0) mi') /\
    (forall f, f ∈ applied (example_mass (v2 0 0) (v2 1 0) 0) mi' ->
               finite_vec f -> Vector2Add f (Vector2Negate f) = Vector2Zero).
Proof.
  apply (spring_update_newtons_third_law (RM := raymath) example_spring
           (example_masses 0 0) 0 1).
  - reflexivity.
  - reflexivity.
  - discriminate.
  - reflexivity.
  - reflexivity.
  - reflexivity.
  - reflexivity.
  - vm_compute. discriminate.
  - vm_compute. discriminate.
Defined.

(** The finiteness condition is needed: a spring force that overflows is
    infinite along the spring, and an infinite contribution and its negation
    add up to NaN, not to zero. *)
Lemma spring_update_overflow_sum :
  let f := spring_force_first (RM := raymath) overflowing_spring
             (example_masses 0 0) in
  f = V2 (S754_infinity true) S754_nan /\
  spring_force_second (RM := raymath) overflowing_spring (example_masses 0 0)
    = Vector2Negate f /\
  Vector2Add f (Vector2Negate f) = V2 S754_nan S754_nan.
Proof. vm_compute. repeat split. Qed.

(** C2 (as stated) fails when an endpoint has a single free slot: with 63
    forces on the first endpoint and none on the second, neither list is at
    capacity, the first endpoint receives the spring force only and the
    second receives both contributions, which add up to (1, 0). *)
Lemma spring_update_last_slot_unpaired :
  let ms := example_masses 63 0 in
  let ms' := fst (spring_update (RM := raymath) example_spring ms) in
  force_count (mass_at (MassAt 0) ms) < FORCES_CAPACITY /\
  force_count (mass_at (MassAt 1) ms) < FORCES_CAPACITY /\
  applied (mass_at (MassAt 0) ms) (mass_at (MassAt 0) ms')
    = [V2 (f32 (-1)) (S754_zero true)] /\
  applied (mass_at (MassAt 1) ms) (mass_at (MassAt 1) ms')
    = [v2 1 0; v2 1 0] /\
  vector_sum (applied (mass_at (MassAt 0) ms) (mass_at (MassAt 0) ms') ++
              applied (mass_at (MassAt 1) ms) (mass_at (MassAt 1) ms'))
    = v2 1 0 /\
  v2 1 0 <> Vector2Zero.
Proof.
  vm_compute. repeat split; discriminate.
Qed.

Section Invariant.
Context {T : Type} {AT : Arith T}.

(** *** Spring endpoints *)

Lemma elem_of_take_insert {A} (l : list A) (n : nat) (b s : A) :
  s ∈ take (Datatypes.S n) (<[n := b]> l) -> s ∈ take n l \/ s = b.
Proof.
  intros H. apply elem_of_take in H as (i & Hi & Hlt).
  destruct (decide (i = n)) as [->|Hne].
  - destruct (decide (n < length l)%nat) as [Hn|Hn].
    + rewrite list_lookup_insert_eq in Hi by assumption.
      right. congruence.
    + rewrite list_insert_ge in Hi by lia.
      apply lookup_lt_Some in Hi. lia.
  - rewrite list_lookup_insert_ne in Hi by congruence.
    left. apply elem_of_take. exists i. split; [assumption | lia].
Qed.

Lemma spring_bound_mono (n n' : N) (s : Spring T) :
  n <= n' -> spring_bound n s -> spring_bound n' s.
Proof.
  intros Hle (i & j & Hi & Hj & Hin & Hjn).
  exists i, j. repeat split; try assumption; lia.
Qed.

Lemma system_inv_zero : system_inv (System_zero (T := T)).
Proof.
  split.
  - split; simpl; unfold SYSTEM_CAPACITY; lia.
  - intros s Hs. unfold spring_collection in Hs. simpl in Hs.
    apply elem_of_nil in Hs. contradiction.
Qed.

Lemma endpoints_distinct_zero : endpoints_distinct (System_zero (T := T)).
Proof.
  intros s Hs. unfold spring_collection in Hs. simpl in Hs.
  apply elem_of_nil in Hs. contradiction.
Qed.

Lemma system_add_mass_inv (m : Mass T) :
  preserves system_inv (fun sys => fst (system_add_mass sys m)).
Proof.
  intros sys [[Hm Hs] Hb]. unfold system_add_mass.
  destruct (SYSTEM_CAPACITY <=? mass_count sys) eqn:E; simpl.
  - split; [split|]; assumption.
  - apply N.leb_gt in E.
    assert (Hsz : size_add (mass_count sys) 1 = mass_count sys + 1)
      by (apply size_add_small; size_lia).
    split; [split|]; simpl; rewrite ?Hsz; try lia.
    intros s Hin. simpl. rewrite ?Hsz.
    apply spring_bound_mono with (n := mass_count sys); [lia|].
    apply Hb. exact Hin.
Qed.

Lemma system_add_mass_distinct (m : Mass T) :
  preserves endpoints_distinct (fun sys => fst (system_add_mass sys m)).
Proof.
  intros sys Hd. unfold system_add_mass.
  destruct (SYSTEM_CAPACITY <=? mass_count sys); simpl; exact Hd.
Qed.

Lemma system_add_spring_collection (sys : System T) (spring : Spring T)
    (m1 m2 : N) (s : Spring T) :
  s ∈ spring_collection (fst (system_add_spring sys spring m1 m2)) ->
  s ∈ spring_collection sys \/
  (s = mkSpring (MassAt m1) (MassAt m2) (length_ spring) (strength spring)
                (dampening spring) /\
   spring_count sys < SYSTEM_CAPACITY /\
   m1 < mass_count sys /\ m2 < mass_count sys).
Proof.
  unfold system_add_spring.
  destruct (SYSTEM_CAPACITY <=? spring_count sys) eqn:E0; [simpl; auto|].
  destruct (mass_count sys <=? m1) eqn:E1; [simpl; auto|].
  destruct (mass_count sys <=? m2) eqn:E2; [simpl; auto|].
  apply N.leb_gt in E0, E1, E2.
  unfold spring_collection. simpl.
  rewrite size_add_small
    by size_lia.
  replace (N.to_nat (spring_count sys + 1))
    with (Datatypes.S (N.to_nat (spring_count sys))) by lia.
  intros H. apply elem_of_take_insert in H as [H|H]; auto.
Qed.

Lemma system_add_spring_counts (sys : System T) (spring : Spring T)
    (m1 m2 : N) :
  mass_count (fst (system_add_spring sys spring m1 m2)) = mass_count sys /\
  (spring_count sys <= SYSTEM_CAPACITY ->
   spring_count (fst (system_add_spring sys spring m1 m2)) <= SYSTEM_CAPACITY).
Proof.
  unfold system_add_spring.
  destruct (SYSTEM_CAPACITY <=? spring_count sys) eqn:E0; [simpl; auto|].
  destruct (mass_count sys <=? m1) eqn:E1; [simpl; auto|].
  destruct (mass_count sys <=? m2) eqn:E2; [simpl; auto|].
  apply N.leb_gt in E0. simpl. split; [reflexivity|]. intros _.
  rewrite size_add_small
    by size_lia.
  lia.
Qed.

Lemma system_add_spring_inv (spring : Spring T) (m1 m2 : N) :
  preserves system_inv (fun sys => fst (system_add_spring sys spring m1 m2)).
Proof.
  intros sys [[Hm Hs] Hb].
  destruct (system_add_spring_counts sys spring m1 m2) as [Hmc Hsc].
  split; [split|].
  - simpl. rewrite Hmc. exact Hm.
  - apply Hsc. exact Hs.
  - intros s Hin. simpl. rewrite Hmc.
    apply system_add_spring_collection in Hin as [Hin|(-> & _ & H1 & H2)].
    + apply Hb. exact Hin.
    + exists m1, m2. auto.
Qed.

Lemma system_add_spring_distinct (spring : Spring T) (m1 m2 : N) :
  m1 <> m2 ->
  preserves endpoints_distinct
    (fun sys => fst (system_add_spring sys spring m1 m2)).
Proof.
  intros Hne sys Hd s Hin.
  apply system_add_spring_collection in Hin as [Hin|(-> & _)].
  - apply Hd. exact Hin.
  - simpl. congruence.
Qed.

Lemma same_topology_refl (sys : System T) : same_topology sys sys.
Proof. repeat split. Qed.

Lemma same_topology_trans (s1 s2 s3 : System T) :
  same_topology s1 s2 -> same_topology s2 s3 -> same_topology s1 s3.
Proof.
  intros (A1 & B1 & C1) (A2 & B2 & C2). repeat split; congruence.
Qed.

Lemma same_topology_set_masses (sys : System T) (ms : list (Mass T)) :
  same_topology sys (set_masses sys ms).
Proof. repeat split. Qed.

Lemma same_topology_inv (sys sys' : System T) :
  same_topology sys sys' ->
  (system_inv sys -> system_inv sys') /\
  (endpoints_distinct sys -> endpoints_distinct sys').
Proof.
  intros (Hs & Hm & Hc).
  unfold system_inv, counts_within_capacity, endpoints_in_collection,
    endpoints_distinct, spring_collection.
  rewrite Hs, Hm, Hc. auto.
Qed.

Lemma size_add_lt (a b : N) : size_add a b < SIZE_MOD.
Proof. unfold size_add. apply N.mod_lt. discriminate. Qed.

Lemma size_add_1_neq (a : N) : a < SIZE_MOD -> size_add a 1 <> a.
Proof.
  intros Ha. unfold size_add.
  destruct (decide (a + 1 < SIZE_MOD)) as [Hlt|Hge].
  - rewrite N.mod_small by assumption. lia.
  - replace (a + 1) with SIZE_MOD by lia.
    rewrite N.Div0.mod_same. unfold SIZE_MOD in *. simpl in *. lia.
Qed.

Lemma grid_below_neq (r cols c : N) :
  0 < cols < SIZE_MOD ->
  size_add (size_mul (size_add r 1) cols) c <> size_add (size_mul r cols) c.
Proof.
  intros [Hpos Hlt]. unfold size_add, size_mul.
  rewrite N.Div0.mul_mod_idemp_l, !N.Div0.add_mod_idemp_l.
  replace ((r + 1) * cols + c) with ((r * cols + c) + cols) by lia.
  generalize (r * cols + c). intros x Heq.
  assert (HM : SIZE_MOD <> 0) by discriminate.
  pose proof (N.div_mod (x + cols) SIZE_MOD HM) as H2.
  pose proof (N.div_mod x SIZE_MOD HM) as H0.
  rewrite Heq in H2.
  generalize dependent ((x + cols) / SIZE_MOD).
  generalize dependent (x / SIZE_MOD).
  generalize dependent (x mod SIZE_MOD).
  generalize dependent SIZE_MOD.
  intros M Hlt HM Heq m q0 H0 q2 H2.
  assert (Hq : cols + M * q0 = M * q2) by lia.
  destruct (N.le_gt_cases q2 q0) as [Hle|Hgt].
  - assert (M * q2 <= M * q0) by (apply N.mul_le_mono_l; assumption). lia.
  - assert (M * (q0 + 1) <= M * q2) by (apply N.mul_le_mono_l; lia). lia.
Qed.

Lemma system_init_grid_inv (sys : System T) (rows cols : N)
    (origin : Vector2 T) (cell_size mass0 spring_strength spring_dampening : T) :
  system_inv (fst (system_init_grid sys rows cols origin cell_size mass0
                     spring_strength spring_dampening)) /\
  (cols < SIZE_MOD ->
   endpoints_distinct
     (fst (system_init_grid sys rows cols origin cell_size mass0
             spring_strength spring_dampening))).
Proof.
  set (P := fun s : System T =>
              system_inv s /\ (cols < SIZE_MOD -> endpoints_distinct s)).
  change (P (fst (system_init_grid sys rows cols origin cell_size mass0
                    spring_strength spring_dampening))).
  unfold system_init_grid. rewrite bind_fst.
  apply (for_loop_inv (fun _ s _ => P s)).
  - apply (for_loop_inv (fun _ s _ => P s)).
    + split.
      * split; [split; simpl; unfold SYSTEM_CAPACITY; lia|].
        intros s Hs. unfold spring_collection in Hs. simpl in Hs.
        apply elem_of_nil in Hs. contradiction.
      * intros _ s Hs. unfold spring_collection in Hs. simpl in Hs.
        apply elem_of_nil in Hs. contradiction.
    + intros r s _ _ Hs.
      apply (for_loop_inv (fun _ s _ => P s)); [exact Hs|].
      intros c s' _ _ [Hi Hd]. split.
      * apply (system_add_mass_inv _ s' Hi).
      * intros Hc. apply (system_add_mass_distinct _ s' (Hd Hc)).
  - intros r s _ _ Hs.
    apply (for_loop_inv (fun _ s _ => P s)); [exact Hs|].
    intros c s' _ Hc HP. rewrite bind_fst.
    assert (Hstep : forall (b : bool) (s0 : System T) (spr : Spring T)
                      (x y : N),
               (cols < SIZE_MOD -> x <> y) -> P s0 ->
               P (fst (if b then system_add_spring s0 spr x y else ret s0))).
    { intros b s0 spr x y Hxy [Hi Hd]. destruct b; [|split; assumption].
      split.
      - apply (system_add_spring_inv _ _ _ s0 Hi).
      - intros Hcols.
        apply system_add_spring_distinct; [exact (Hxy Hcols)|exact (Hd Hcols)]. }
    apply Hstep.
    + intros Hcols Heq. apply (grid_below_neq r cols c); [lia|].
      symmetry. exact Heq.
    + apply Hstep; [|exact HP].
      intros _ Heq. apply (size_add_1_neq (size_add (size_mul r cols) c)).
      * apply size_add_lt.
      * symmetry. exact Heq.
Qed.

Lemma system_mass_update_topology (sys : System T) (dt : T) :
  same_topology sys (system_mass_update sys dt).
Proof.
  unfold system_mass_update.
  apply (iter_loop_inv (fun _ s => same_topology sys s)).
  - apply same_topology_refl.
  - intros j s _ IH.
    destruct (masses s !! N.to_nat j); [|exact IH].
    eapply same_topology_trans; [exact IH|apply same_topology_set_masses].
Qed.

Lemma system_mass_reset_forces_topology (sys : System T) :
  same_topology sys (system_mass_reset_forces sys).
Proof.
  unfold system_mass_reset_forces.
  apply (iter_loop_inv (fun _ s => same_topology sys s)).
  - apply same_topology_refl.
  - intros j s _ IH.
    destruct (masses s !! N.to_nat j); [|exact IH].
    eapply same_topology_trans; [exact IH|apply same_topology_set_masses].
Qed.

Lemma system_mass_force_append_topology (sys : System T) (force : Vector2 T) :
  same_topology sys (fst (system_mass_force_append sys force)).
Proof.
  unfold system_mass_force_append.
  apply (for_loop_inv (fun _ s _ => same_topology sys s)).
  - apply same_topology_refl.
  - intros j s o _ IH. rewrite bind_fst. cbn [ret fst].
    eapply same_topology_trans; [exact IH|apply same_topology_set_masses].
Qed.

Context {RM : Raymath T}.

Lemma system_spring_update_topology (sys : System T) :
  same_topology sys (fst (system_spring_update sys)).
Proof.
  unfold system_spring_update.
  apply (for_loop_inv (fun _ s _ => same_topology sys s)).
  - apply same_topology_refl.
  - intros j s o _ IH.
    destruct (springs s !! N.to_nat j); [|exact IH].
    rewrite bind_fst. cbn [ret fst].
    eapply same_topology_trans; [exact IH|apply same_topology_set_masses].
Qed.

Lemma tick_topology (wind_on : bool) (dt : T) (sys : System T) :
  same_topology sys (fst (tick wind_on dt sys)).
Proof.
  unfold tick. rewrite bind_fst.
  eapply same_topology_trans; [apply system_spring_update_topology|].
  eapply same_topology_trans; [apply system_mass_update_topology|].
  eapply same_topology_trans; [apply system_mass_reset_forces_topology|].
  destruct wind_on.
  - apply system_mass_force_append_topology.
  - apply same_topology_refl.
Qed.

(** C8 (amended). Every operation of the system keeps the invariant that
    the counts stay within capacity and that both endpoints of every spring
    of the collection are masses of the same system's collection: it holds
    in the zeroed system, is established by buildGrid from any state, and is
    kept by addMass, addSpring, stepSprings, stepMasses, resetForces,
    applyUniformForce and a whole tick.  Distinct endpoints are not checked
    by addSpring: they are kept by addSpring when it is called with two
    different indices, by the other operations always, and established by
    buildGrid (for a column count that is a size_t value). *)
Theorem spring_endpoints_invariant :
  (system_inv (System_zero (T := T)) /\
   endpoints_distinct (System_zero (T := T))) /\
  (forall (sys : System T) (rows cols : N) (origin : Vector2 T)
          (cell_size mass0 spring_strength spring_dampening : T),
     system_inv (fst (system_init_grid sys rows cols origin cell_size mass0
                        spring_strength spring_dampening)) /\
     (cols < SIZE_MOD ->
      endpoints_distinct
        (fst (system_init_grid sys rows cols origin cell_size mass0
                spring_strength spring_dampening)))) /\
  (forall m : Mass T,
     preserves system_inv (fun sys : System T => fst (system_add_mass sys m)) /\
     preserves endpoints_distinct (fun sys : System T => fst (system_add_mass sys m))) /\
  (forall (spring : Spring T) (m1 m2 : N),
     preserves system_inv
       (fun sys : System T => fst (system_add_spring sys spring m1 m2)) /\
     (m1 <> m2 ->
      preserves endpoints_distinct
        (fun sys : System T => fst (system_add_spring sys spring m1 m2)))) /\
  keeps_invariants (fun sys : System T => fst (system_spring_update sys)) /\
  (forall dt, keeps_invariants (fun sys : System T => system_mass_update sys dt)) /\
  keeps_invariants (fun sys : System T => system_mass_reset_forces sys) /\
  (forall force,
     keeps_invariants (fun sys : System T => fst (system_mass_force_append sys force))) /\
  (forall wind_on dt,
     keeps_invariants (fun sys : System T => fst (tick wind_on dt sys))).
Proof.
  split; [split; [apply system_inv_zero | apply endpoints_distinct_zero]|].
  split; [intros; apply system_init_grid_inv|].
  split; [intros m; split;
          [apply system_add_mass_inv | apply system_add_mass_distinct]|].
  split; [intros spring m1 m2; split;
          [apply system_add_spring_inv | apply system_add_spring_distinct]|].
  assert (Hkeep : forall op : System T -> System T,
            (forall sys, same_topology sys (op sys)) -> keeps_invariants op).
  { intros op Hop. split; intros sys;
      destruct (same_topology_inv sys (op sys) (Hop sys)); assumption. }
  split; [apply Hkeep; intros sys0; apply system_spring_update_topology|].
  split; [intros dt; apply Hkeep; intros sys0;
          apply system_mass_update_topology|].
  split; [apply Hkeep; intros sys0; apply system_mass_reset_forces_topology|].
  split; [intros force; apply Hkeep; intros sys0;
          apply system_mass_force_append_topology|].
  intros wind_on dt. apply Hkeep. intros sys0. apply tick_topology.
Qed.

End Invariant.

(** C10. The four appends of a spring step are independent: when the force
    list of the first endpoint is full and the second endpoint has at least
    two free slots, both appends to the first endpoint are rejected
    with an error line each, the first endpoint is unchanged, and the second
    endpoint still receives its spring force and its dampener force.  On the
    example the unpaired forces add up to (2, 0): a nonzero net force. *)
Theorem spring_update_unpaired_on_overflow :
  (forall (T : Type) (AT : Arith T) (RM : Raymath T) (spring : Spring T)
          (ms : list (Mass T)) (i j : N) (mi mj : Mass T),
     first spring = MassAt i -> second spring = MassAt j ->
     ms !! N.to_nat i = Some mi -> ms !! N.to_nat j = Some mj ->
     FORCES_CAPACITY <= force_count mi ->
     wf_mass mj -> force_count mj + 2 <= FORCES_CAPACITY ->
     exists mj',
       snd (spring_update spring ms) = [ERR_FORCES; ERR_FORCES] /\
       fst (spring_update spring ms) !! N.to_nat i = Some mi /\
       fst (spring_update spring ms) !! N.to_nat j = Some mj' /\
       applied mj mj' =
         [spring_force_second spring ms; dampener_force_second spring ms]) /\
  (let ms := example_masses 64 0 in
   let ms' := fst (spring_update (RM := raymath) example_spring ms) in
   applied (mass_at (MassAt 0) ms) (mass_at (MassAt 0) ms') = [] /\
   applied (mass_at (MassAt 1) ms) (mass_at (MassAt 1) ms')
     = [v2 1 0; v2 1 0] /\
   vector_sum (applied (mass_at (MassAt 0) ms) (mass_at (MassAt 0) ms') ++
               applied (mass_at (MassAt 1) ms) (mass_at (MassAt 1) ms'))
     = v2 2 0 /\
   v2 2 0 <> Vector2Zero).
Proof.
  split.
  - intros T AT RM spring ms i j mi mj Hf Hs Hi Hj Hfull Hwj Hfj.
    assert (Hne : i <> j).
    { intros ->. rewrite Hi in Hj. injection Hj as ->. lia. }
    rewrite (spring_update_first_full spring ms i j mi mj) by assumption.
    cbn [fst snd]. eexists. split; [reflexivity|].
    split; [rewrite list_lookup_insert_ne by lia; exact Hi|].
    split; [apply list_lookup_insert_eq; eapply lookup_lt_Some; eassumption|].
    apply applied_pushed2; assumption.
  - vm_compute. repeat split; discriminate.
Qed.

Lemma spring_update_unpaired_on_overflow_witness :
  exists mj',
    snd (spring_update (RM := raymath) example_spring (example_masses 64 0))
      = [ERR_FORCES; ERR_FORCES] /\
    fst (spring_update (RM := raymath) example_spring (example_masses 64 0))
      !! N.to_nat 0 = Some (example_mass (v2 0 0) (v2 1 0) 64) /\
    fst (spring_update (RM := raymath) example_spring (example_masses 64 0))
      !! N.to_nat 1 = Some mj' /\
    applied (example_mass (v2 1 0) (v2 0 0) 0) mj' =
      [spring_force_second (RM := raymath) example_spring (example_masses 64 0);
       dampener_force_second (RM := raymath) example_spring
         (example_masses 64 0)].
Proof.
  apply (proj1 spring_update_unpaired_on_overflow spec_float binary_arith
           raymath example_spring (example_masses 64 0) 0 1).
  - reflexivity.
  - reflexivity.
  - reflexivity.
  - reflexivity.
  - vm_compute. discriminate.
  - reflexivity.
  - vm_compute. discriminate.
Defined.

Section Zero_span.
Context {RM : Raymath spec_float}.

(** *** Coincident endpoints *)

Lemma SFsub_diag (prec emax : Z) (x : spec_float) :
  sf_finite x = true -> SFsub prec emax x x = S754_zero false.
Proof.
  destruct x as [s|s| |s m e]; simpl; try discriminate; intros _.
  - destruct s; reflexivity.
  - rewrite Z.min_id. destruct (shl_align m e e) as [m' e']. simpl.
    rewrite Z.sub_diag. reflexivity.
Qed.

Lemma SFsub_zero_r (prec emax : Z) (x : spec_float) :
  SFsub prec emax x (S754_zero false) = x.
Proof. destruct x as [[|]|[|]| |s m e]; reflexivity. Qed.

Lemma SFmul_zero_l (prec emax : Z) (z k : spec_float) :
  sf_is_zero z = true -> sf_finite k = true ->
  sf_is_zero (SFmul prec emax z k) = true.
Proof. destruct z, k; simpl; try discriminate; reflexivity. Qed.

Lemma SFmul_zero_r (prec emax : Z) (x z : spec_float) :
  sf_finite x = true -> sf_is_zero z = true ->
  sf_is_zero (SFmul prec emax x z) = true.
Proof. destruct x, z; simpl; try discriminate; reflexivity. Qed.

Lemma SFadd_zero_zero (prec emax : Z) (x y : spec_float) :
  sf_is_zero x = true -> sf_is_zero y = true ->
  sf_is_zero (SFadd prec emax x y) = true.
Proof.
  destruct x as [[|]| | |], y as [[|]| | |]; simpl; try discriminate;
    reflexivity.
Qed.

Lemma sf_cast_zero (t : ctype) (z : spec_float) :
  sf_is_zero z = true -> sf_is_zero (sf_cast t z) = true.
Proof. destruct z; simpl; try discriminate; reflexivity. Qed.

Lemma SFopp_zero (z : spec_float) :
  sf_is_zero z = true -> sf_is_zero (SFopp z) = true.
Proof. destruct z; simpl; try discriminate; reflexivity. Qed.

Lemma SFopp_finite (x : spec_float) : sf_finite (SFopp x) = sf_finite x.
Proof. destruct x; reflexivity. Qed.

Lemma sf_zero_finite (z : spec_float) :
  sf_is_zero z = true -> sf_finite z = true.
Proof. destruct z; simpl; try discriminate; reflexivity. Qed.

Lemma Vector2Scale_zero (d : Vector2 spec_float) (k : spec_float) :
  zero_vec d -> sf_finite k = true -> zero_vec (Vector2Scale d k).
Proof.
  intros [Hx Hy] Hk. split; simpl; apply SFmul_zero_l; assumption.
Qed.

Lemma Vector2DotProduct_zero (v d : Vector2 spec_float) :
  finite_vec v -> zero_vec d -> sf_is_zero (Vector2DotProduct v d) = true.
Proof.
  intros [Hx Hy] [Dx Dy]. unfold Vector2DotProduct. simpl.
  apply SFadd_zero_zero; apply SFmul_zero_r; assumption.
Qed.

Lemma spring_span_coincident (spring : Spring spec_float)
    (ms : list (Mass spec_float)) :
  position (mass_at (first spring) ms) = position (mass_at (second spring) ms) ->
  finite_vec (position (mass_at (first spring) ms)) ->
  spring_span spring ms = Vector2Zero.
Proof.
  intros Heq [Hx Hy]. unfold spring_span, Vector2Subtract, Vector2Zero.
  rewrite <- Heq. cbn [a_sub a_of_Z binary_arith].
  rewrite !SFsub_diag by assumption. reflexivity.
Qed.

(** C9 (amended). When the two endpoints of a spring are at the same finite
    position, the span is the zero vector; if the library's Vector2Normalize
    and Vector2Length map the zero vector to a zero vector and to 0 (as
    raymath's do since raylib 4), and the endpoint velocities, the dampening
    and the float value of strength * length are finite, then the four
    contributions that spring_update appends are zero vectors. *)
Theorem spring_update_zero_span
    (spring : Spring spec_float) (ms : list (Mass spec_float)) :
  position (mass_at (first spring) ms) = position (mass_at (second spring) ms) ->
  finite_vec (position (mass_at (first spring) ms)) ->
  zero_vec (Vector2Normalize Vector2Zero) ->
  Vector2Length Vector2Zero = S754_zero false ->
  finite_vec (velocity (mass_at (first spring) ms)) ->
  finite_vec (velocity (mass_at (second spring) ms)) ->
  sf_finite (dampening spring) = true ->
  sf_finite (a_cast c_float
               (a_mul c_double (strength spring) (length_ spring))) = true ->
  spring_span spring ms = Vector2Zero /\
  spring_update spring ms =
    (ms1 <- update_at (first spring) (fun m =>
              mass_force_append m (spring_force_first spring ms)) ms ;;
     ms2 <- update_at (second spring) (fun m =>
              mass_force_append m (spring_force_second spring ms)) ms1 ;;
     ms3 <- update_at (first spring) (fun m =>
              mass_force_append m (dampener_force_first spring ms)) ms2 ;;
     update_at (second spring) (fun m =>
       mass_force_append m (dampener_force_second spring ms)) ms3) /\
  zero_vec (spring_force_first spring ms) /\
  zero_vec (spring_force_second spring ms) /\
  zero_vec (dampener_force_first spring ms) /\
  zero_vec (dampener_force_second spring ms).
Proof.
  intros Hpos Hfin Hnorm Hlen Hv1 Hv2 Hdamp Hk.
  pose proof (spring_span_coincident spring ms Hpos Hfin) as Hspan.
  split; [exact Hspan|]. split; [apply spring_update_contributions|].
  assert (Hdir : zero_vec (spring_direction spring ms))
    by (unfold spring_direction; rewrite Hspan; exact Hnorm).
  assert (Hdisp : spring_displacement spring ms = length_ spring).
  { unfold spring_displacement. rewrite Hspan, Hlen.
    cbn [a_sub a_cast binary_arith sf_cast]. apply SFsub_zero_r. }
  cbn [a_cast a_mul binary_arith] in Hk.
  assert (Hrate : sf_is_zero (displacement_rate spring ms) = true).
  { unfold displacement_rate. cbn [a_add a_cast a_neg binary_arith].
    apply SFadd_zero_zero; apply sf_cast_zero.
    - apply Vector2DotProduct_zero; assumption.
    - apply SFopp_zero. apply Vector2DotProduct_zero; assumption. }
  assert (Hrate_k : forall z, sf_is_zero z = true ->
            sf_finite (sf_cast c_float
                         (SFmul (prec_of c_double) (emax_of c_double)
                                (dampening spring) z)) = true).
  { intros z Hz. apply sf_zero_finite, sf_cast_zero.
    apply SFmul_zero_r; assumption. }
  unfold spring_force_first, spring_force_second, dampener_force_first,
    dampener_force_second.
  rewrite Hdisp. cbn [a_cast a_mul a_neg binary_arith].
  split; [|split; [|split]]; apply Vector2Scale_zero; try exact Hdir.
  - rewrite SFmul_opp_r, sf_cast_opp, SFopp_finite. exact Hk.
  - exact Hk.
  - apply Hrate_k. apply SFopp_zero. exact Hrate.
  - apply Hrate_k. exact Hrate.
Qed.

End Zero_span.

Lemma spring_update_zero_span_witness :
  zero_vec (spring_force_first (RM := raymath) example_spring coincident_masses) /\
  zero_vec (spring_force_second (RM := raymath) example_spring coincident_masses) /\
  zero_vec (dampener_force_first (RM := raymath) example_spring coincident_masses) /\
  zero_vec (dampener_force_second (RM := raymath) example_spring coincident_masses).
Proof.
  refine (proj2 (proj2 (spring_update_zero_span (RM := raymath)
                          example_spring coincident_masses _ _ _ _ _ _ _ _)));
    vm_compute; auto.
Defined.

(** C9 (as stated) fails: spring_update has no test of the separation.  For
    two masses at rest at the same place and a spring of rest length 2 and
    strength 2^127, the product strength * length overflows to an infinite
    float and both spring forces are NaN, whether Vector2Normalize returns
    the zero vector for the zero span (raylib 4 and later) or divides by the
    zero length (raylib 3 and earlier). *)
Lemma spring_update_coincident_not_finite :
  let ms := coincident_masses in
  position (mass_at (first stiff_spring) ms)
    = position (mass_at (second stiff_spring) ms) /\
  spring_span stiff_spring ms = Vector2Zero /\
  (let ms' := fst (spring_update (RM := raymath) stiff_spring ms) in
   applied (mass_at (MassAt 0) ms) (mass_at (MassAt 0) ms')
     = [V2 S754_nan S754_nan; V2 (S754_zero true) (S754_zero true)] /\
   applied (mass_at (MassAt 1) ms) (mass_at (MassAt 1) ms')
     = [V2 S754_nan S754_nan; V2 (S754_zero false) (S754_zero false)]) /\
  (let ms' := fst (spring_update (RM := raymath_unguarded) stiff_spring ms) in
   applied (mass_at (MassAt 0) ms) (mass_at (MassAt 0) ms')
     = [V2 S754_nan S754_nan; V2 S754_nan S754_nan] /\
   applied (mass_at (MassAt 1) ms) (mass_at (MassAt 1) ms')
     = [V2 S754_nan S754_nan; V2 S754_nan S754_nan]) /\
  ~ zero_vec (V2 S754_nan S754_nan).
Proof.
  vm_compute. repeat split; intros [H _]; discriminate.
Qed.

Section Superposition.
Context {T : Type} {AT : Arith T}.

(** *** Superposition *)

Lemma apply_forces_cons (m : Mass T) (f : Vector2 T) (fs : list (Vector2 T)) :
  apply_forces m (f :: fs) = apply_forces (fst (mass_force_append m f)) fs.
Proof. reflexivity. Qed.

Lemma integrate_each_cons (m : Mass T) (f : Vector2 T) (fs : list (Vector2 T))
    (dt : T) :
  integrate_each m (f :: fs) dt =
    integrate_each
      (mass_reset_forces (mass_update (fst (mass_force_append m f)) dt)) fs dt.
Proof. reflexivity. Qed.

Lemma apply_forces_accumulated (fs : list (Vector2 T)) :
  forall m : Mass T,
    wf_mass m ->
    force_count m + N.of_nat (length fs) <= FORCES_CAPACITY ->
    accumulated (apply_forces m fs) = accumulated m ++ fs /\
    velocity (apply_forces m fs) = velocity m /\
    mass (apply_forces m fs) = mass m /\
    fixed (apply_forces m fs) = fixed m.
Proof.
  induction fs as [|f fs IH]; intros m Hwf Hcap.
  - simpl. rewrite app_nil_r. auto.
  - rewrite apply_forces_cons.
    rewrite mass_force_append_free by (simpl length in Hcap; lia).
    cbn [fst].
    destruct (IH (pushed m f)) as (Ha & Hv & Hm & Hf).
    + apply pushed_wf. assumption.
    + simpl in *. lia.
    + rewrite Ha, Hv, Hm, Hf.
      rewrite accumulated_pushed by (assumption || simpl length in Hcap; lia).
      rewrite <- app_assoc. auto.
Qed.

Lemma integrate_once_velocity (m : Mass T) (fs : list (Vector2 T)) (dt : T) :
  fixed m = false -> wf_mass m -> force_count m = 0 ->
  N.of_nat (length fs) <= FORCES_CAPACITY ->
  velocity (integrate_once m fs dt) =
    Vector2Add (velocity m)
      (Vector2Scale
         (foldl (fun a force => Vector2Add a (acceleration_from (mass m) force))
                GRAVITATIONAL_ACCELERATION fs)
         (a_cast c_float dt)).
Proof.
  intros Hfree Hwf Hcount Hcap.
  destruct (apply_forces_accumulated fs m Hwf) as (Ha & Hv & Hm & Hf);
    [lia|].
  unfold integrate_once.
  rewrite mass_update_free by congruence.
  unfold integrate_spec. cbn [velocity].
  rewrite Ha, Hv, Hm. unfold accumulated. rewrite Hcount. reflexivity.
Qed.

Lemma integrate_pass (m : Mass T) (f : Vector2 T) (dt : T) :
  fixed m = false -> wf_mass m -> force_count m = 0 ->
  let m' := mass_reset_forces (mass_update (fst (mass_force_append m f)) dt) in
  velocity m' =
    Vector2Add (velocity m)
      (Vector2Scale
         (Vector2Add GRAVITATIONAL_ACCELERATION (acceleration_from (mass m) f))
         (a_cast c_float dt)) /\
  fixed m' = false /\ wf_mass m' /\ force_count m' = 0 /\ mass m' = mass m.
Proof.
  intros Hfree Hwf Hcount.
  assert (Hlt : force_count m < FORCES_CAPACITY)
    by (rewrite Hcount; reflexivity).
  rewrite mass_force_append_free by assumption. cbn [fst].
  rewrite mass_update_free by exact Hfree.
  unfold integrate_spec, mass_reset_forces, set_forces.
  cbn [velocity forces force_count mass fixed position acceleration].
  rewrite (accumulated_pushed m f Hwf Hlt).
  unfold accumulated. rewrite Hcount. simpl.
  repeat split; try assumption.
  unfold wf_mass in *. simpl. rewrite length_insert. assumption.
Qed.

Lemma integrate_each_velocity (fs : list (Vector2 T)) (dt : T) :
  forall m : Mass T,
    fixed m = false -> wf_mass m -> force_count m = 0 ->
    velocity (integrate_each m fs dt) =
      foldl (fun v force =>
               Vector2Add v
                 (Vector2Scale
                    (Vector2Add GRAVITATIONAL_ACCELERATION
                                (acceleration_from (mass m) force))
                    (a_cast c_float dt)))
            (velocity m) fs.
Proof.
  induction fs as [|f fs IH]; intros m Hfree Hwf Hcount; [reflexivity|].
  rewrite integrate_each_cons.
  destruct (integrate_pass m f dt Hfree Hwf Hcount)
    as (Hv & Hf & Hw & Hc & Hm).
  rewrite IH by assumption. rewrite Hv, Hm. reflexivity.
Qed.

End Superposition.

Section Slack.

(** *** Forces that are zero, in binary floating-point arithmetic *)

Lemma zero_force_acceleration (mass0 : spec_float) :
  sf_finite (a_cast c_float (a_div c_double (a_of_Z c_double 1) mass0)) = true ->
  zero_vec (acceleration_from mass0 Vector2Zero).
Proof.
  intros Hk. unfold acceleration_from. apply Vector2Scale_zero; [|exact Hk].
  split; reflexivity.
Qed.

Lemma gravity_plus_zero (z : Vector2 spec_float) :
  zero_vec z ->
  Vector2Add GRAVITATIONAL_ACCELERATION z = GRAVITATIONAL_ACCELERATION.
Proof.
  destruct z as [[[|]| | |] [[|]| | |]]; intros [Hx Hy];
    try discriminate; reflexivity.
Qed.

Lemma slack_once_fold (mass0 : spec_float) (n : nat) :
  sf_finite (a_cast c_float (a_div c_double (a_of_Z c_double 1) mass0)) = true ->
  foldl (fun a force => Vector2Add a (acceleration_from mass0 force))
        GRAVITATIONAL_ACCELERATION (replicate n Vector2Zero)
  = GRAVITATIONAL_ACCELERATION.
Proof.
  intros Hk. induction n as [|n IH]; [reflexivity|].
  cbn [replicate foldl].
  rewrite (gravity_plus_zero _ (zero_force_acceleration mass0 Hk)).
  exact IH.
Qed.

Lemma slack_each_fold (mass0 k : spec_float) (n : nat) :
  sf_finite (a_cast c_float (a_div c_double (a_of_Z c_double 1) mass0)) = true ->
  forall v : Vector2 spec_float,
    foldl (fun v force =>
             Vector2Add v
               (Vector2Scale
                  (Vector2Add GRAVITATIONAL_ACCELERATION
                              (acceleration_from mass0 force)) k))
          v (replicate n Vector2Zero)
    = Nat.iter n
        (fun v => Vector2Add v (Vector2Scale GRAVITATIONAL_ACCELERATION k)) v.
Proof.
  intros Hk. induction n as [|n IH]; intros v; [reflexivity|].
  cbn [replicate foldl].
  rewrite (gravity_plus_zero _ (zero_force_acceleration mass0 Hk)).
  rewrite IH, Nat.iter_succ_r. reflexivity.
Qed.

End Slack.

(** C4 (amended). What the two procedures compute, in the arithmetic of
    the program, for a non-fixed mass with an empty force list and at most
    FORCES_CAPACITY forces.  One integration with all the forces
    accumulated gives the velocity v0 + (g + F1/m + ... + FN/m) * dt, the
    sum taken from left to right starting at gravity.  N passes with one
    force each (apply, integrate, reset) update the velocity N times by
    v <- v + (g + Fi/m) * dt: every pass adds gravity again.  For one force
    the two velocities are equal.  In float arithmetic, for N forces that
    are zero and a finite reciprocal of the inertia, one integration gives
    v0 + g * dt and the N passes give v0 with g * dt added N times. *)
Theorem superposition_up_to_gravity :
  (forall (T : Type) (AT : Arith T) (m : Mass T) (fs : list (Vector2 T))
          (dt : T),
     fixed m = false -> wf_mass m -> force_count m = 0 ->
     N.of_nat (length fs) <= FORCES_CAPACITY ->
     velocity (integrate_once m fs dt) =
       Vector2Add (velocity m)
         (Vector2Scale
            (foldl (fun a force =>
                      Vector2Add a (acceleration_from (mass m) force))
                   GRAVITATIONAL_ACCELERATION fs)
            (a_cast c_float dt)) /\
     velocity (integrate_each m fs dt) =
       foldl (fun v force =>
                Vector2Add v
                  (Vector2Scale
                     (Vector2Add GRAVITATIONAL_ACCELERATION
                                 (acceleration_from (mass m) force))
                     (a_cast c_float dt)))
             (velocity m) fs /\
     (forall f, fs = [f] ->
        velocity (integrate_each m fs dt) = velocity (integrate_once m fs dt))) /\
  (forall (m : Mass spec_float) (n : nat) (dt : spec_float),
     fixed m = false -> wf_mass m -> force_count m = 0 ->
     N.of_nat n <= FORCES_CAPACITY ->
     sf_finite (a_cast c_float
                  (a_div c_double (a_of_Z c_double 1) (mass m))) = true ->
     velocity (integrate_once m (replicate n Vector2Zero) dt) =
       Vector2Add (velocity m)
         (Vector2Scale GRAVITATIONAL_ACCELERATION (a_cast c_float dt)) /\
     velocity (integrate_each m (replicate n Vector2Zero) dt) =
       Nat.iter n
         (fun v => Vector2Add v
                     (Vector2Scale GRAVITATIONAL_ACCELERATION
                                   (a_cast c_float dt)))
         (velocity m)).
Proof.
  split.
  - intros T AT m fs dt Hfree Hwf Hcount Hcap.
    pose proof (integrate_once_velocity m fs dt Hfree Hwf Hcount Hcap) as Honce.
    pose proof (integrate_each_velocity fs dt m Hfree Hwf Hcount) as Heach.
    split; [exact Honce|]. split; [exact Heach|].
    intros f ->. rewrite Honce, Heach. reflexivity.
  - intros m n dt Hfree Hwf Hcount Hcap Hk.
    rewrite integrate_once_velocity, integrate_each_velocity
      by (rewrite ?length_replicate; assumption).
    rewrite slack_once_fold, slack_each_fold by exact Hk.
    split; reflexivity.
Qed.

Lemma superposition_up_to_gravity_witness :
  velocity (integrate_once (example_mass (v2 0 0) (v2 0 0) 0)
              [v2 1 0; v2 2 0] (f64 1)) = v2 3 98 /\
  velocity (integrate_each (example_mass (v2 0 0) (v2 0 0) 0)
              [v2 1 0; v2 2 0] (f64 1)) = v2 3 196 /\
  velocity (integrate_each (example_mass (v2 0 0) (v2 0 0) 0)
              (replicate 2 Vector2Zero) (f64 1)) = v2 0 196.
Proof.
  destruct (proj1 superposition_up_to_gravity spec_float binary_arith
              (example_mass (v2 0 0) (v2 0 0) 0) [v2 1 0; v2 2 0] (f64 1))
    as (Honce & Heach & _).
  - reflexivity.
  - reflexivity.
  - reflexivity.
  - vm_compute. discriminate.
  - destruct (proj2 superposition_up_to_gravity
                (example_mass (v2 0 0) (v2 0 0) 0) 2%nat (f64 1))
      as (_ & Hslack).
    + reflexivity.
    + reflexivity.
    + reflexivity.
    + vm_compute. discriminate.
    + vm_compute. reflexivity.
    + rewrite Honce, Heach, Hslack. vm_compute. repeat split.
Defined.

(** C4 (as stated) fails: gravity is added at every integration.  For a
    mass at rest of inertia 1, the forces (1,0) and (2,0) and dt = 1, one
    integration of both forces gives the velocity (3, 98), two integrations
    of one force each give (3, 196). *)
Lemma superposition_counts_gravity_twice :
  let m := example_mass (v2 0 0) (v2 0 0) 0 in
  velocity m = Vector2Zero /\
  velocity (integrate_once m [v2 1 0; v2 2 0] (f64 1)) = v2 3 98 /\
  velocity (integrate_each m [v2 1 0; v2 2 0] (f64 1)) = v2 3 196 /\
  v2 3 98 <> v2 3 196.
Proof.
  vm_compute. repeat split; discriminate.
Qed.

Section Grid.
Context {T : Type} {AT : Arith T}.

(** *** buildGrid: the lattice of masses *)

Lemma row_major_lt (r r' cols c c' : N) :
  c' < cols -> r' < r \/ (r' = r /\ c' < c) -> r' * cols + c' < r * cols + c.
Proof.
  intros Hc [Hr | [-> Hc']]; [|lia].
  assert (H : (r' + 1) * cols <= r * cols) by (apply N.mul_le_mono_r; lia).
  rewrite N.mul_add_distr_r, N.mul_1_l in H. lia.
Qed.

Lemma row_major_capacity (r rows cols c : N) :
  r < rows -> c < cols -> rows * cols <= SYSTEM_CAPACITY ->
  r * cols + c < SYSTEM_CAPACITY.
Proof.
  intros Hr Hc Hcap.
  assert (H : (r + 1) * cols <= rows * cols) by (apply N.mul_le_mono_r; lia).
  rewrite N.mul_add_distr_r, N.mul_1_l in H. lia.
Qed.

Lemma system_add_mass_free (sys : System T) (m : Mass T) :
  mass_count sys < SYSTEM_CAPACITY ->
  system_add_mass sys m =
    (mkSystem (<[N.to_nat (mass_count sys) := m]> (masses sys)) (springs sys)
              (mass_count sys + 1) (spring_count sys), []).
Proof.
  intros H. unfold system_add_mass.
  rewrite (proj2 (N.leb_gt _ _) H).
  rewrite size_add_small
    by size_lia.
  reflexivity.
Qed.

Lemma grid_masses_loop (sys : System T) (rows cols : N) (origin : Vector2 T)
    (cell_size mass0 : T) :
  length (masses sys) = N.to_nat SYSTEM_CAPACITY ->
  rows * cols <= SYSTEM_CAPACITY ->
  let s1 :=
    fst (for_loop rows (fun r s =>
           for_loop cols (fun c s =>
             system_add_mass s (lattice_mass origin cell_size mass0 r c)) s)
           (mkSystem (masses sys) (springs sys) 0 0)) in
  mass_count s1 = rows * cols /\
  forall r c, r < rows -> c < cols ->
    masses s1 !! N.to_nat (r * cols + c)
    = Some (lattice_mass origin cell_size mass0 r c).
Proof.
  intros Hlen Hcap.
  set (filled := fun (r c : N) (s : System T) =>
         mass_count s = r * cols + c /\
         length (masses s) = N.to_nat SYSTEM_CAPACITY /\
         forall r' c', c' < cols -> r' < r \/ (r' = r /\ c' < c) ->
           masses s !! N.to_nat (r' * cols + c')
           = Some (lattice_mass origin cell_size mass0 r' c')).
  assert (Hall : filled rows 0
            (fst (for_loop rows (fun r s =>
               for_loop cols (fun c s =>
                 system_add_mass s (lattice_mass origin cell_size mass0 r c)) s)
               (mkSystem (masses sys) (springs sys) 0 0)))).
  { apply (for_loop_inv (fun r s _ => filled r 0 s)).
    - split; [simpl; lia|]. split; [exact Hlen|].
      intros r' c' _ [Hr|[_ Hc]]; lia.
    - intros r s _ Hr Hs.
      assert (Hrow : filled r cols
                (fst (for_loop cols (fun c s0 =>
                   system_add_mass s0
                     (lattice_mass origin cell_size mass0 r c)) s))).
      { apply (for_loop_inv (fun c s0 _ => filled r c s0)); [exact Hs|].
        intros c s0 _ Hc (Hcount & Hl & Hlook).
        assert (Hfree : mass_count s0 < SYSTEM_CAPACITY)
          by (rewrite Hcount; eapply row_major_capacity; eassumption).
        rewrite system_add_mass_free by exact Hfree. cbn [fst].
        split; [simpl; lia|]. split; [simpl; rewrite length_insert; exact Hl|].
        intros r' c' Hc' Hin. cbn [masses]. rewrite Hcount.
        destruct (decide (r' = r /\ c' = c)) as [[-> ->]|Hne].
        - apply list_lookup_insert_eq. rewrite Hl, <- Hcount. lia.
        - assert (Hprev : r' < r \/ (r' = r /\ c' < c)) by lia.
          pose proof (row_major_lt r r' cols c c' Hc' Hprev).
          rewrite list_lookup_insert_ne by lia.
          apply Hlook; assumption. }
      destruct Hrow as (Hcount & Hl & Hlook).
      split; [lia|]. split; [exact Hl|].
      intros r' c' Hc' Hin. apply Hlook; [exact Hc'|]. lia. }
  destruct Hall as (Hcount & _ & Hlook).
  split; [simpl; lia|].
  intros r c Hr Hc. apply Hlook; [exact Hc|]. left. exact Hr.
Qed.

Lemma system_add_spring_masses (sys : System T) (spring : Spring T)
    (m1 m2 : N) :
  masses (fst (system_add_spring sys spring m1 m2)) = masses sys /\
  mass_count (fst (system_add_spring sys spring m1 m2)) = mass_count sys.
Proof.
  unfold system_add_spring.
  destruct (SYSTEM_CAPACITY <=? spring_count sys); [simpl; auto|].
  destruct (mass_count sys <=? m1); [simpl; auto|].
  destruct (mass_count sys <=? m2); simpl; auto.
Qed.

Lemma system_init_grid_masses (sys : System T) (rows cols : N)
    (origin : Vector2 T)
    (cell_size mass0 spring_strength spring_dampening : T) :
  length (masses sys) = N.to_nat SYSTEM_CAPACITY ->
  rows * cols <= SYSTEM_CAPACITY ->
  mass_count (fst (system_init_grid sys rows cols origin cell_size mass0
                     spring_strength spring_dampening)) = rows * cols /\
  forall r c, r < rows -> c < cols ->
    masses (fst (system_init_grid sys rows cols origin cell_size mass0
                   spring_strength spring_dampening))
      !! N.to_nat (r * cols + c)
    = Some (lattice_mass origin cell_size mass0 r c).
Proof.
  intros Hlen Hcap.
  pose proof (grid_masses_loop sys rows cols origin cell_size mass0 Hlen Hcap)
    as Hgrid. cbv zeta in Hgrid.
  unfold system_init_grid. rewrite bind_fst.
  change (fst (for_loop rows _ (mkSystem (masses sys) (springs sys) 0 0)))
    with (fst (for_loop rows (fun r s =>
                 for_loop cols (fun c s =>
                   system_add_mass s
                     (lattice_mass origin cell_size mass0 r c)) s)
                 (mkSystem (masses sys) (springs sys) 0 0))).
  revert Hgrid.
  generalize (fst (for_loop rows (fun r s =>
                 for_loop cols (fun c s =>
                   system_add_mass s
                     (lattice_mass origin cell_size mass0 r c)) s)
                 (mkSystem (masses sys) (springs sys) 0 0))).
  intros s1 [Hcount Hlook].
  assert (Hkeep : masses (fst (for_loop rows (fun r sys0 =>
      for_loop cols (fun c sys1 =>
        sys2 <- (if negb (c =? size_sub cols 1) &&
                    (size_add (size_add (size_mul r cols) c) 1
                       <? size_mul rows cols)
                 then system_add_spring sys1
                        (mkSpring NullPtr NullPtr cell_size spring_strength
                                  spring_dampening)
                        (size_add (size_mul r cols) c)
                        (size_add (size_add (size_mul r cols) c) 1)
                 else ret sys1) ;;
        (if negb (r =? size_sub rows 1) &&
            (size_add (size_mul (size_add r 1) cols) c <? size_mul rows cols)
         then system_add_spring sys2
                (mkSpring NullPtr NullPtr cell_size spring_strength
                          spring_dampening)
                (size_add (size_mul r cols) c)
                (size_add (size_mul (size_add r 1) cols) c)
         else ret sys2)) sys0) s1)) = masses s1 /\
    mass_count (fst (for_loop rows (fun r sys0 =>
      for_loop cols (fun c sys1 =>
        sys2 <- (if negb (c =? size_sub cols 1) &&
                    (size_add (size_add (size_mul r cols) c) 1
                       <? size_mul rows cols)
                 then system_add_spring sys1
                        (mkSpring NullPtr NullPtr cell_size spring_strength
                                  spring_dampening)
                        (size_add (size_mul r cols) c)
                        (size_add (size_add (size_mul r cols) c) 1)
                 else ret sys1) ;;
        (if negb (r =? size_sub rows 1) &&
            (size_add (size_mul (size_add r 1) cols) c <? size_mul rows cols)
         then system_add_spring sys2
                (mkSpring NullPtr NullPtr cell_size spring_strength
                          spring_dampening)
                (size_add (size_mul r cols) c)
                (size_add (size_mul (size_add r 1) cols) c)
         else ret sys2)) sys0) s1)) = mass_count s1).
  { set (kept := fun s : System T =>
                   masses s = masses s1 /\ mass_count s = mass_count s1).
    assert (Hstep : forall (b : bool) (s0 : System T) (spr : Spring T)
                      (x y : N),
               kept s0 ->
               kept (fst (if b then system_add_spring s0 spr x y else ret s0))).
    { intros b s0 spr x y [Hm Hc]. destruct b; [|split; assumption].
      destruct (system_add_spring_masses s0 spr x y) as [Hm' Hc'].
      split; congruence. }
    apply (for_loop_inv (fun _ s _ => kept s)); [split; reflexivity|].
    intros r s _ _ Hs.
    apply (for_loop_inv (fun _ s _ => kept s)); [exact Hs|].
    intros c s' _ _ Hs'. rewrite bind_fst.
    apply Hstep. apply Hstep. exact Hs'. }
  destruct Hkeep as [-> ->]. split; assumption.
Qed.

(** *** buildGrid: independence of the previous contents *)

Lemma for_range_rel {S} (R : S -> S -> Prop) (body : N -> S -> Out S)
    (fuel : nat) :
  (forall j s1 s2, R s1 s2 ->
     R (fst (body j s1)) (fst (body j s2)) /\
     snd (body j s1) = snd (body j s2)) ->
  forall i s1 s2,
    R s1 s2 ->
    R (fst (for_range fuel i body s1)) (fst (for_range fuel i body s2)) /\
    snd (for_range fuel i body s1) = snd (for_range fuel i body s2).
Proof.
  intros Hstep. induction fuel as [|fuel IH]; intros i s1 s2 HR.
  - simpl. auto.
  - cbn [for_range]. rewrite !bind_fst, !bind_snd.
    destruct (Hstep i s1 s2 HR) as [HR' Ho].
    destruct (IH (N.succ i) _ _ HR') as [HR'' Ho'].
    split; [exact HR''|]. rewrite Ho, Ho'. reflexivity.
Qed.

Lemma for_loop_rel {S} (R : S -> S -> Prop) (body : N -> S -> Out S) (n : N)
    (s1 s2 : S) :
  (forall j s1 s2, R s1 s2 ->
     R (fst (body j s1)) (fst (body j s2)) /\
     snd (body j s1) = snd (body j s2)) ->
  R s1 s2 ->
  R (fst (for_loop n body s1)) (fst (for_loop n body s2)) /\
  snd (for_loop n body s1) = snd (for_loop n body s2).
Proof. intros Hstep HR. apply for_range_rel; assumption. Qed.

Lemma take_insert_snoc {A} (l : list A) (n : nat) (x : A) :
  (n < length l)%nat ->
  take (Datatypes.S n) (<[n := x]> l) = take n l ++ [x].
Proof.
  intros H. erewrite take_S_r.
  - rewrite take_insert_ge by lia. reflexivity.
  - apply list_lookup_insert_eq. exact H.
Qed.

Lemma system_add_mass_alike (m : Mass T) (s1 s2 : System T) :
  alike s1 s2 ->
  alike (fst (system_add_mass s1 m)) (fst (system_add_mass s2 m)) /\
  snd (system_add_mass s1 m) = snd (system_add_mass s2 m).
Proof.
  intros [(Hm & Hs & Hmc & Hsc) [[Hl1 Hl1'] [Hl2 Hl2']]].
  unfold mass_collection, spring_collection in Hmc, Hsc.
  unfold system_add_mass. rewrite <- Hm in Hmc |- *.
  destruct (SYSTEM_CAPACITY <=? mass_count s1) eqn:E.
  - simpl. unfold alike, same_collections, wf_system, mass_collection,
      spring_collection. rewrite <- Hm. auto 10.
  - apply N.leb_gt in E.
    rewrite size_add_small
      by size_lia.
    simpl. split; [|reflexivity].
    unfold alike, same_collections, wf_system, mass_collection,
      spring_collection. simpl.
    rewrite !length_insert.
    replace (N.to_nat (mass_count s1 + 1))
      with (Datatypes.S (N.to_nat (mass_count s1))) by lia.
    rewrite !take_insert_snoc by lia.
    rewrite Hmc. auto 10.
Qed.

Lemma system_add_spring_alike (spring : Spring T) (m1 m2 : N)
    (s1 s2 : System T) :
  alike s1 s2 ->
  alike (fst (system_add_spring s1 spring m1 m2))
        (fst (system_add_spring s2 spring m1 m2)) /\
  snd (system_add_spring s1 spring m1 m2)
  = snd (system_add_spring s2 spring m1 m2).
Proof.
  intros Hsame.
  destruct Hsame as [(Hm & Hs & Hmc & Hsc) [[Hl1 Hl1'] [Hl2 Hl2']]] eqn:Hkeep.
  clear Hkeep.
  unfold mass_collection, spring_collection in Hmc, Hsc.
  unfold system_add_spring. rewrite <- Hm, <- Hs.
  rewrite <- Hm in Hmc. rewrite <- Hs in Hsc.
  destruct (SYSTEM_CAPACITY <=? spring_count s1) eqn:E;
    [simpl; split; [exact Hsame|reflexivity]|].
  destruct (mass_count s1 <=? m1);
    [simpl; split; [exact Hsame|reflexivity]|].
  destruct (mass_count s1 <=? m2);
    [simpl; split; [exact Hsame|reflexivity]|].
  apply N.leb_gt in E.
  rewrite size_add_small
    by size_lia.
  simpl. split; [|reflexivity].
  unfold alike, same_collections, wf_system, mass_collection,
    spring_collection. simpl.
  rewrite !length_insert.
  replace (N.to_nat (spring_count s1 + 1))
    with (Datatypes.S (N.to_nat (spring_count s1))) by lia.
  rewrite !take_insert_snoc by lia.
  rewrite Hsc. auto 10.
Qed.

Lemma system_init_grid_alike (sys1 sys2 : System T) (rows cols : N)
    (origin : Vector2 T)
    (cell_size mass0 spring_strength spring_dampening : T) :
  wf_system sys1 -> wf_system sys2 ->
  alike (fst (system_init_grid sys1 rows cols origin cell_size mass0
                spring_strength spring_dampening))
        (fst (system_init_grid sys2 rows cols origin cell_size mass0
                spring_strength spring_dampening)) /\
  snd (system_init_grid sys1 rows cols origin cell_size mass0
         spring_strength spring_dampening)
  = snd (system_init_grid sys2 rows cols origin cell_size mass0
           spring_strength spring_dampening).
Proof.
  intros Hwf1 Hwf2. unfold system_init_grid.
  rewrite !bind_fst, !bind_snd.
  assert (Hstep : forall (b : bool) (spr : Spring T) (x y : N)
                    (s1 s2 : System T),
             alike s1 s2 ->
             alike (fst (if b then system_add_spring s1 spr x y else ret s1))
                   (fst (if b then system_add_spring s2 spr x y else ret s2)) /\
             snd (if b then system_add_spring s1 spr x y else ret s1)
             = snd (if b then system_add_spring s2 spr x y else ret s2)).
  { intros b spr x y s1 s2 H. destruct b; [|simpl; auto].
    apply system_add_spring_alike. exact H. }
  match goal with
  | |- alike (fst (for_loop rows ?body2 (fst (for_loop rows ?body1 ?i1))))
             (fst (for_loop rows _ (fst (for_loop rows _ ?i2)))) /\ _ =>
      assert (H1 : alike (fst (for_loop rows body1 i1))
                         (fst (for_loop rows body1 i2)) /\
                   snd (for_loop rows body1 i1) = snd (for_loop rows body1 i2))
  end.
  { apply for_loop_rel.
    - intros r s1 s2 H. apply for_loop_rel; [|exact H].
      intros c s1' s2' H'. apply system_add_mass_alike. exact H'.
    - unfold alike, same_collections, wf_system, mass_collection,
        spring_collection in *. simpl. tauto. }
  destruct H1 as [H1 Ho1]. rewrite Ho1.
  match goal with
  | |- alike (fst (for_loop rows ?body2 ?a)) (fst (for_loop rows _ ?b)) /\ _ =>
      assert (H2 : alike (fst (for_loop rows body2 a))
                         (fst (for_loop rows body2 b)) /\
                   snd (for_loop rows body2 a) = snd (for_loop rows body2 b))
  end.
  { apply for_loop_rel; [|exact H1].
    intros r s1 s2 H. apply for_loop_rel; [|exact H].
    intros c s1' s2' H'. cbv beta zeta. rewrite !bind_fst, !bind_snd.
    destruct (Hstep (negb (c =? size_sub cols 1) &&
                       (size_add (size_add (size_mul r cols) c) 1
                          <? size_mul rows cols))
                (mkSpring NullPtr NullPtr cell_size spring_strength
                          spring_dampening)
                (size_add (size_mul r cols) c)
                (size_add (size_add (size_mul r cols) c) 1) s1' s2' H')
      as [Ha Hb].
    destruct (Hstep (negb (r =? size_sub rows 1) &&
                       (size_add (size_mul (size_add r 1) cols) c
                          <? size_mul rows cols))
                (mkSpring NullPtr NullPtr cell_size spring_strength
                          spring_dampening)
                (size_add (size_mul r cols) c)
                (size_add (size_mul (size_add r 1) cols) c) _ _ Ha)
      as [Ha' Hb'].
    split; [exact Ha'|]. exact (f_equal2 (@app string) Hb Hb'). }
  destruct H2 as [H2 Ho2]. split; [exact H2|]. rewrite Ho2. reflexivity.
Qed.

End Grid.

(** *** buildGrid: beyond the capacity *)

Section Grid_capacity.
Context {T : Type} {AT : Arith T}.

Lemma system_add_mass_at_capacity (sys : System T) (m : Mass T) :
  SYSTEM_CAPACITY <= mass_count sys ->
  system_add_mass sys m = (sys, [ERR_MASSES]).
Proof.
  intros H. unfold system_add_mass.
  rewrite (proj2 (N.leb_le _ _) H). reflexivity.
Qed.

Lemma system_add_spring_no_mass_report (sys : System T) (spring : Spring T)
    (m1 m2 : N) :
  ERR_MASSES ∉ snd (system_add_spring sys spring m1 m2).
Proof.
  unfold system_add_spring.
  destruct (SYSTEM_CAPACITY <=? spring_count sys);
    [|destruct (mass_count sys <=? m1); [|destruct (mass_count sys <=? m2)]];
    cbn; try apply not_elem_of_nil;
    (apply not_elem_of_cons; split; [discriminate|apply not_elem_of_nil]).
Qed.

(** buildGrid for any number of rows and columns: the masses are stored in
    row-major order while there is room; every further one is rejected. *)
Lemma system_init_grid_capacity (sys : System T) (rows cols : N)
    (origin : Vector2 T) (cell_size mass0 k d : T) :
  length (masses sys) = N.to_nat SYSTEM_CAPACITY ->
  mass_count (fst (system_init_grid sys rows cols origin cell_size mass0 k d))
    = N.min (rows * cols) SYSTEM_CAPACITY /\
  (forall r c, r < rows -> c < cols -> r * cols + c < SYSTEM_CAPACITY ->
     masses (fst (system_init_grid sys rows cols origin cell_size mass0 k d))
       !! N.to_nat (r * cols + c)
     = Some (lattice_mass origin cell_size mass0 r c)) /\
  exists rest,
    snd (system_init_grid sys rows cols origin cell_size mass0 k d)
      = replicate (N.to_nat (rows * cols - SYSTEM_CAPACITY)) ERR_MASSES
          ++ rest /\
    ERR_MASSES ∉ rest.
Proof.
  intros Hlen. unfold system_init_grid. rewrite bind_fst, bind_snd.
  set (filled := fun (r c : N) (s : System T) (o : list string) =>
         mass_count s = N.min (r * cols + c) SYSTEM_CAPACITY /\
         length (masses s) = N.to_nat SYSTEM_CAPACITY /\
         o = replicate (N.to_nat (r * cols + c - SYSTEM_CAPACITY)) ERR_MASSES /\
         forall r' c', c' < cols -> r' < r \/ (r' = r /\ c' < c) ->
           r' * cols + c' < SYSTEM_CAPACITY ->
           masses s !! N.to_nat (r' * cols + c')
           = Some (lattice_mass origin cell_size mass0 r' c')).
  match goal with
  | |- context [for_loop rows _ (fst (for_loop rows ?body1 ?init))] =>
      assert (H1 : filled rows 0 (fst (for_loop rows body1 init))
                          (snd (for_loop rows body1 init)))
  end.
  { apply (for_loop_inv (fun r s o => filled r 0 s o)).
    - split; [reflexivity|]. split; [exact Hlen|]. split; [reflexivity|].
      intros r' c' _ [Hr|[_ Hc]]; lia.
    - intros r s o Hr Hs.
      assert (Hrow : filled r cols
                (fst (for_loop cols (fun c s0 =>
                   system_add_mass s0
                     (lattice_mass origin cell_size mass0 r c)) s))
                (o ++ snd (for_loop cols (fun c s0 =>
                   system_add_mass s0
                     (lattice_mass origin cell_size mass0 r c)) s))).
      { apply (for_loop_inv (fun c s0 o0 => filled r c s0 (o ++ o0))).
        - rewrite app_nil_r. exact Hs.
        - intros c s0 o0 Hc (Hcount & Hl & Ho & Hlook).
          unfold filled. rewrite app_assoc, Ho.
          replace (r * cols + N.succ c) with (r * cols + c + 1) by lia.
          destruct (N.lt_ge_cases (r * cols + c) SYSTEM_CAPACITY) as [Hlt|Hge].
          + rewrite system_add_mass_free by lia. cbn [fst snd masses mass_count].
            rewrite app_nil_r.
            split; [lia|]. split; [rewrite length_insert; exact Hl|].
            split; [f_equal; lia|].
            intros r' c' Hc' Hin Hcap. rewrite Hcount, N.min_l by lia.
            destruct (decide (r' = r /\ c' = c)) as [[-> ->]|Hne].
            * apply list_lookup_insert_eq. rewrite Hl. lia.
            * assert (Hprev : r' < r \/ (r' = r /\ c' < c)) by lia.
              pose proof (row_major_lt r r' cols c c' Hc' Hprev).
              rewrite list_lookup_insert_ne by lia.
              apply Hlook; assumption.
          + rewrite system_add_mass_at_capacity by lia. cbn [fst snd].
            split; [lia|]. split; [exact Hl|]. split.
            * replace (N.to_nat (r * cols + c + 1 - SYSTEM_CAPACITY))
                with (S (N.to_nat (r * cols + c - SYSTEM_CAPACITY))) by lia.
              symmetry. apply replicate_S_end.
            * intros r' c' Hc' Hin Hcap.
              assert (Hprev : r' < r \/ (r' = r /\ c' < c)).
              { destruct (decide (r' = r /\ c' = c)) as [[-> ->]|Hne]; lia. }
              apply Hlook; assumption. }
      destruct Hrow as (Hcount & Hl & Ho & Hlook).
      assert (Hn : N.succ r * cols + 0 = r * cols + cols) by lia.
      split; [etransitivity; [exact Hcount|rewrite Hn; reflexivity]|].
      split; [exact Hl|]. split; [rewrite Hn; exact Ho|].
      intros r' c' Hc' Hin. apply Hlook; [exact Hc'|]. lia. }
  destruct H1 as (Hcount & _ & Ho & Hlook). rewrite Ho. clear Ho.
  rewrite N.add_0_r in Hcount |- *.
  revert Hcount Hlook.
  match goal with
  | |- context [for_loop rows _ (fst (for_loop rows ?body1 ?init))] =>
      generalize (fst (for_loop rows body1 init))
  end.
  intros s1 Hcount Hlook.
  set (kept := fun (s : System T) (o : list string) =>
         masses s = masses s1 /\ mass_count s = mass_count s1 /\
         ERR_MASSES ∉ o).
  match goal with
  | |- context [for_loop rows ?body2 s1] =>
      assert (H2 : kept (fst (for_loop rows body2 s1))
                        (snd (for_loop rows body2 s1)))
  end.
  { assert (Hstep : forall (b : bool) (s0 : System T) (o0 : list string)
                      (spr : Spring T) (x y : N),
               kept s0 o0 ->
               kept (fst (if b then system_add_spring s0 spr x y else ret s0))
                    (o0 ++ snd (if b then system_add_spring s0 spr x y
                                else ret s0))).
    { intros b s0 o0 spr x y (Hm & Hc & Ho). destruct b.
      - destruct (system_add_spring_masses s0 spr x y) as [Hm' Hc'].
        split; [congruence|]. split; [congruence|].
        apply not_elem_of_app. split; [exact Ho|].
        apply system_add_spring_no_mass_report.
      - cbn [ret fst snd]. rewrite app_nil_r. split_and!; assumption. }
    apply (for_loop_inv (fun _ s o => kept s o)).
    - split; [reflexivity|]. split; [reflexivity|apply not_elem_of_nil].
    - intros r s o _ Hs.
      apply (for_loop_inv (fun _ s0 o0 => kept s0 (o ++ o0))).
      + rewrite app_nil_r. exact Hs.
      + intros c s0 o0 _ Hs0. rewrite bind_fst, bind_snd, !app_assoc.
        apply Hstep, Hstep, Hs0. }
  destruct H2 as (Hm & Hc & Hrest).
  split; [rewrite Hc; exact Hcount|]. split.
  - intros r c Hr Hcl Hcap. rewrite Hm. apply Hlook; [exact Hcl| |exact Hcap].
    left. exact Hr.
  - eexists. split; [reflexivity|exact Hrest].
Qed.

End Grid_capacity.

Lemma two_mass_system_wf : wf_system two_mass_system.
Proof. split; vm_compute; reflexivity. Qed.

Lemma wf_system_zero {T : Type} {AT : Arith T} : wf_system (System_zero (T := T)).
Proof. split; unfold System_zero; cbn [masses springs]; apply length_replicate. Qed.

(** C3 (amended). buildGrid discards the previous collections: the masses,
    the springs and the error lines it produces depend on its arguments
    only.  When rows * cols does not exceed the capacity it creates exactly
    rows * cols masses, the mass of row r and column c at index
    r * cols + c, at origin + (c, r) * cellSize, at rest, with the given
    inertia, fixed exactly when r = 0.  buildGrid(2, 2, (0,0), 1, ...) gives
    the masses (0,0), (1,0), (0,1), (1,1), the first two fixed, and the
    springs 0-1, 0-2, 1-3, 2-3 of rest length 1, in this order.  For any
    rows and cols the mass count is the smaller of rows * cols and
    SYSTEM_CAPACITY: the masses whose row-major index is below the capacity
    are stored as above, and each of the rows * cols - SYSTEM_CAPACITY
    surplus masses is rejected with one report; these reports are printed
    first and no later line repeats that message. *)
Theorem system_init_grid_lattice :
  (forall (T : Type) (AT : Arith T) (sys1 sys2 : System T) (rows cols : N)
          (origin : Vector2 T)
          (cell_size mass0 spring_strength spring_dampening : T),
     wf_system sys1 -> wf_system sys2 ->
     same_collections
       (fst (system_init_grid sys1 rows cols origin cell_size mass0
               spring_strength spring_dampening))
       (fst (system_init_grid sys2 rows cols origin cell_size mass0
               spring_strength spring_dampening)) /\
     snd (system_init_grid sys1 rows cols origin cell_size mass0
            spring_strength spring_dampening)
     = snd (system_init_grid sys2 rows cols origin cell_size mass0
              spring_strength spring_dampening)) /\
  (forall (T : Type) (AT : Arith T) (sys : System T) (rows cols : N)
          (origin : Vector2 T)
          (cell_size mass0 spring_strength spring_dampening : T),
     wf_system sys -> rows * cols <= SYSTEM_CAPACITY ->
     mass_count (fst (system_init_grid sys rows cols origin cell_size mass0
                        spring_strength spring_dampening)) = rows * cols /\
     forall r c, r < rows -> c < cols ->
       masses (fst (system_init_grid sys rows cols origin cell_size mass0
                      spring_strength spring_dampening))
         !! N.to_nat (r * cols + c)
       = Some (lattice_mass origin cell_size mass0 r c)) /\
  (forall (sys : System spec_float)
          (mass0 spring_strength spring_dampening : spec_float),
     wf_system sys ->
     map (fun m => (position m, fixed m))
         (mass_collection
            (fst (system_init_grid sys 2 2 (v2 0 0) (f64 1) mass0
                    spring_strength spring_dampening)))
     = [(v2 0 0, true); (v2 1 0, true); (v2 0 1, false); (v2 1 1, false)] /\
     map (fun s => (first s, second s, length_ s))
         (spring_collection
            (fst (system_init_grid sys 2 2 (v2 0 0) (f64 1) mass0
                    spring_strength spring_dampening)))
     = [(MassAt 0, MassAt 1, f64 1); (MassAt 0, MassAt 2, f64 1);
        (MassAt 1, MassAt 3, f64 1); (MassAt 2, MassAt 3, f64 1)]) /\
  (forall (T : Type) (AT : Arith T) (sys : System T) (rows cols : N)
          (origin : Vector2 T)
          (cell_size mass0 spring_strength spring_dampening : T),
     wf_system sys ->
     mass_count (fst (system_init_grid sys rows cols origin cell_size mass0
                        spring_strength spring_dampening))
       = N.min (rows * cols) SYSTEM_CAPACITY /\
     (forall r c, r < rows -> c < cols -> r * cols + c < SYSTEM_CAPACITY ->
        masses (fst (system_init_grid sys rows cols origin cell_size mass0
                       spring_strength spring_dampening))
          !! N.to_nat (r * cols + c)
        = Some (lattice_mass origin cell_size mass0 r c)) /\
     exists rest,
       snd (system_init_grid sys rows cols origin cell_size mass0
              spring_strength spring_dampening)
         = replicate (N.to_nat (rows * cols - SYSTEM_CAPACITY)) ERR_MASSES
             ++ rest /\
       ERR_MASSES ∉ rest).
Proof.
  split; [|split; [|split]].
  - intros T AT sys1 sys2 rows cols origin cell_size mass0 k d Hwf1 Hwf2.
    destruct (system_init_grid_alike sys1 sys2 rows cols origin cell_size
                mass0 k d Hwf1 Hwf2) as [[Hsame _] Hout].
    split; assumption.
  - intros T AT sys rows cols origin cell_size mass0 k d [Hlen _] Hcap.
    apply system_init_grid_masses; assumption.
  - intros sys mass0 k d Hwf.
    destruct (system_init_grid_alike sys System_zero 2 2 (v2 0 0) (f64 1)
                mass0 k d Hwf wf_system_zero)
      as [[(_ & _ & Hm & Hs) _] _].
    rewrite Hm, Hs. vm_compute. split; reflexivity.
  - intros T AT sys rows cols origin cell_size mass0 k d [Hlen _].
    apply system_init_grid_capacity. exact Hlen.
Qed.

Lemma system_init_grid_lattice_witness :
  (mass_count (fst (system_init_grid System_zero 2 2 (v2 0 0) (f64 1) (f64 1)
                      (f64 1000) (f64 1))) = 2 * 2 /\
   forall r c, r < 2 -> c < 2 ->
     masses (fst (system_init_grid System_zero 2 2 (v2 0 0) (f64 1) (f64 1)
                    (f64 1000) (f64 1)))
       !! N.to_nat (r * 2 + c)
     = Some (lattice_mass (v2 0 0) (f64 1) (f64 1) r c)) /\
  map (fun s => (first s, second s, length_ s))
      (spring_collection
         (fst (system_init_grid two_mass_system 2 2 (v2 0 0) (f64 1) (f64 1)
                 (f64 1000) (f64 1))))
  = [(MassAt 0, MassAt 1, f64 1); (MassAt 0, MassAt 2, f64 1);
     (MassAt 1, MassAt 3, f64 1); (MassAt 2, MassAt 3, f64 1)] /\
  (mass_count (fst (system_init_grid System_zero 1 8097 (v2 0 0) (f64 1)
                      (f64 1) (f64 1000) (f64 1)))
     = N.min (1 * 8097) SYSTEM_CAPACITY /\
   exists rest,
     snd (system_init_grid System_zero 1 8097 (v2 0 0) (f64 1) (f64 1)
            (f64 1000) (f64 1))
       = replicate (N.to_nat (1 * 8097 - SYSTEM_CAPACITY)) ERR_MASSES ++ rest /\
     ERR_MASSES ∉ rest).
Proof.
  split; [|split].
  - apply (proj1 (proj2 system_init_grid_lattice) spec_float binary_arith
             System_zero 2 2 (v2 0 0) (f64 1) (f64 1) (f64 1000) (f64 1)).
    + exact wf_system_zero.
    + vm_compute. discriminate.
  - apply (proj1 (proj2 (proj2 system_init_grid_lattice)) two_mass_system
             (f64 1) (f64 1000) (f64 1)).
    exact two_mass_system_wf.
  - destruct (proj2 (proj2 (proj2 system_init_grid_lattice)) spec_float
                binary_arith System_zero 1 8097 (v2 0 0) (f64 1) (f64 1)
                (f64 1000) (f64 1) wf_system_zero) as (Hcount & _ & Hout).
    split; [exact Hcount|exact Hout].
Defined.

(** C3 (as stated) fails beyond the capacity: buildGrid(1, 8097, ...) stores
    8096 masses, not 1 * 8097, and reports the mass it could not add. *)
Lemma system_init_grid_over_capacity :
  let r := system_init_grid System_zero 1 8097 (v2 0 0) (f64 1) (f64 1)
             (f64 1000) (f64 1) in
  mass_count (fst r) = 8096 /\ 8096 <> 1 * 8097 /\
  snd r = [ERR_MASSES; ERR_SECOND].
Proof.
  vm_compute. repeat split. discriminate.
Qed.

(** ** Instances of the theorems on the example inputs *)

Lemma mass_update_integrates_witness :
  velocity (mass_update (example_mass (v2 0 0) (v2 1 0) 2) (f64 1)) = v2 1 98 /\
  position (mass_update (example_mass (v2 0 0) (v2 1 0) 2) (f64 1)) = v2 1 98.
Proof.
  destruct (mass_update_integrates (example_mass (v2 0 0) (v2 1 0) 2) (f64 1))
    as (Ha & Hv & Hp & _).
  - reflexivity.
  - rewrite Hp, Hv, Ha. vm_compute. split; reflexivity.
Defined.

Lemma capacity_rejection_is_non_mutating_witness :
  system_add_mass full_system Mass_zero = (full_system, [ERR_MASSES]) /\
  mass_force_append (example_mass (v2 0 0) (v2 1 0) 64) (v2 1 1)
    = (example_mass (v2 0 0) (v2 1 0) 64, [ERR_FORCES]) /\
  exists m',
    mass_force_append (example_mass (v2 0 0) (v2 1 0) 3) (v2 1 1) = (m', []) /\
    force_count m' = 3 + 1 /\
    accumulated m' =
      accumulated (example_mass (v2 0 0) (v2 1 0) 3) ++ [v2 1 1] /\
    position m' = v2 0 0 /\ velocity m' = v2 1 0 /\
    acceleration m' = Vector2Zero /\ mass m' = f64 1 /\ fixed m' = false.
Proof.
  split; [|split].
  - apply (proj1 capacity_rejection_is_non_mutating full_system Mass_zero).
    vm_compute. discriminate.
  - apply (proj1 (proj2 capacity_rejection_is_non_mutating)
             (example_mass (v2 0 0) (v2 1 0) 64) (v2 1 1)).
    vm_compute. discriminate.
  - apply (proj2 (proj2 capacity_rejection_is_non_mutating)
             (example_mass (v2 0 0) (v2 1 0) 3) (v2 1 1)).
    + reflexivity.
    + reflexivity.
Defined.

Lemma system_add_spring_validates_witness :
  (exists sys',
     system_add_spring two_mass_system example_spring 0 1 = (sys', []) /\
     spring_collection sys' =
       spring_collection two_mass_system ++
         [mkSpring (MassAt 0) (MassAt 1) (f64 2) (f64 1) (f64 1)] /\
     spring_count sys' = 0 + 1 /\
     masses sys' = masses two_mass_system /\ mass_count sys' = 2) /\
  (exists msg,
     msg ∈ [ERR_SPRINGS; ERR_FIRST; ERR_SECOND] /\
     system_add_spring two_mass_system example_spring 0 2
     = (two_mass_system, [msg])).
Proof.
  split.
  - apply (proj1 (system_add_spring_validates two_mass_system example_spring
                    0 1)).
    + reflexivity.
    + reflexivity.
    + reflexivity.
    + exact two_mass_system_wf.
  - apply (proj2 (system_add_spring_validates two_mass_system example_spring
                    0 2)).
    right. right. vm_compute. discriminate.
Defined.

Lemma fixed_masses_never_move_witness :
  mass_update pinned_mass (f64 1) = pinned_mass /\
  position (fst (mass_force_append pinned_mass (v2 7 7))) = v2 3 4.
Proof.
  split.
  - apply (proj1 (fixed_masses_never_move (RM := raymath)) pinned_mass (f64 1)).
    reflexivity.
  - apply (proj1 (proj2 (fixed_masses_never_move (RM := raymath)))
             pinned_mass (v2 7 7)).
    reflexivity.
Defined.

Lemma two_mass_system_distinct : endpoints_distinct two_mass_system.
Proof.
  intros s Hs. unfold spring_collection in Hs. simpl in Hs.
  apply elem_of_nil in Hs. contradiction.
Qed.

Lemma spring_endpoints_invariant_witness :
  endpoints_distinct (fst (system_add_spring two_mass_system example_spring 0 1)).
Proof.
  apply (proj2 (proj1 (proj2 (proj2 (proj2
           (spring_endpoints_invariant (RM := raymath)))))
           example_spring 0 1)).
  - discriminate.
  - exact two_mass_system_distinct.
Defined.

(** C8 (as stated) fails: addSpring does not compare its two indices.  On
    the system holding one mass, addSpring(spring, 0, 0) succeeds and the
    spring it stores has the mass 0 at both ends. *)
Lemma system_add_spring_self_loop :
  endpoints_distinct one_mass_system /\
  snd (system_add_spring one_mass_system Spring_zero 0 0) = [] /\
  spring_collection (fst (system_add_spring one_mass_system Spring_zero 0 0))
    = [mkSpring (MassAt 0) (MassAt 0) (f64 0) (f64 0) (f64 0)] /\
  ~ endpoints_distinct (fst (system_add_spring one_mass_system Spring_zero 0 0)).
Proof.
  assert (Hc : spring_collection
                 (fst (system_add_spring one_mass_system Spring_zero 0 0))
               = [mkSpring (MassAt 0) (MassAt 0) (f64 0) (f64 0) (f64 0)])
    by (vm_compute; reflexivity).
  split; [|split; [|split]].
  - intros s Hs. vm_compute in Hs. apply elem_of_nil in Hs. contradiction.
  - vm_compute. reflexivity.
  - exact Hc.
  - intros Hd.
    apply (Hd (mkSpring (MassAt 0) (MassAt 0) (f64 0) (f64 0) (f64 0))).
    + rewrite Hc. apply list_elem_of_singleton. reflexivity.
    + reflexivity.
Qed.

(** * Further properties *)

(** ** Loops over the mass array *)

Section Collections.
Context {T : Type} {AT : Arith T}.

Lemma set_masses_id (sys : System T) : set_masses sys (masses sys) = sys.
Proof. destruct sys; reflexivity. Qed.

Lemma insert_fmap_take_drop {A} (f : A -> A) (l : list A) (j : nat) (x : A) :
  l !! j = Some x ->
  <[j := f x]> ((f <$> take j l) ++ drop j l)
  = (f <$> take (S j) l) ++ drop (S j) l.
Proof.
  intros H. pose proof (lookup_lt_Some _ _ _ H) as Hlt.
  rewrite insert_app_r_alt by (rewrite length_fmap, length_take; lia).
  rewrite length_fmap, length_take.
  replace (j - j `min` length l)%nat with 0%nat by lia.
  rewrite (drop_S l x j H). cbn [insert list_insert].
  rewrite (take_S_r l j x H), fmap_app, <- app_assoc. reflexivity.
Qed.

Lemma lookup_fmap_take_drop {A} (f : A -> A) (l : list A) (j : nat) :
  ((f <$> take j l) ++ drop j l) !! j = l !! j.
Proof.
  destruct (decide (j < length l)%nat) as [Hlt|Hge].
  - rewrite lookup_app_r by (rewrite length_fmap, length_take; lia).
    rewrite length_fmap, length_take, lookup_drop. f_equal. lia.
  - rewrite (lookup_ge_None_2 l j) by lia.
    apply lookup_ge_None_2.
    rewrite length_app, length_fmap, length_take, length_drop. lia.
Qed.

Lemma take_fmap_take_drop {A} (f : A -> A) (l : list A) (n : nat) :
  take n ((f <$> take n l) ++ drop n l) = f <$> take n l.
Proof.
  destruct (decide (n <= length l)%nat) as [Hle|Hgt].
  - apply take_app_length'. rewrite length_fmap, length_take. lia.
  - rewrite (drop_ge l n) by lia. rewrite app_nil_r.
    apply take_ge. rewrite length_fmap, length_take. lia.
Qed.

Lemma drop_fmap_take_drop {A} (f : A -> A) (l : list A) (n : nat) :
  drop n ((f <$> take n l) ++ drop n l) = drop n l.
Proof.
  destruct (decide (n <= length l)%nat) as [Hle|Hgt].
  - apply drop_app_length'. rewrite length_fmap, length_take. lia.
  - rewrite (drop_ge l n) by lia. rewrite app_nil_r.
    apply drop_ge. rewrite length_fmap, length_take. lia.
Qed.

Lemma length_fmap_take_drop {A} (f : A -> A) (l : list A) (n : nat) :
  length ((f <$> take n l) ++ drop n l) = length l.
Proof. rewrite length_app, length_fmap, length_take, length_drop. lia. Qed.

(** A loop that rewrites the slots below [n] of the mass array one by one
    maps the function over these slots and leaves the others alone. *)
Lemma iter_loop_masses (f : Mass T -> Mass T) (sys : System T) (n : N) :
  iter_loop n (fun i s =>
      match masses s !! N.to_nat i with
      | Some m => set_masses s (<[N.to_nat i := f m]> (masses s))
      | None => s
      end) sys
  = set_masses sys ((f <$> take (N.to_nat n) (masses sys))
                      ++ drop (N.to_nat n) (masses sys)).
Proof.
  apply (iter_loop_inv (fun j s =>
           s = set_masses sys ((f <$> take (N.to_nat j) (masses sys))
                                 ++ drop (N.to_nat j) (masses sys)))).
  - change (N.to_nat 0) with 0%nat. rewrite take_0, drop_0. cbn [fmap list_fmap app].
    symmetry. apply set_masses_id.
  - intros j s _ ->. cbn [masses set_masses]. rewrite N2Nat.inj_succ.
    rewrite lookup_fmap_take_drop.
    destruct (masses sys !! N.to_nat j) as [m|] eqn:E.
    + unfold set_masses. cbn [springs mass_count spring_count].
      f_equal. apply insert_fmap_take_drop. exact E.
    + apply lookup_ge_None_1 in E.
      rewrite !take_ge, !drop_ge by lia. reflexivity.
Qed.

Lemma for_loop_masses (g : Mass T -> Out (Mass T)) (sys : System T) (n : N) :
  for_loop n (fun i s =>
      ms <- update_at (MassAt i) g (masses s) ;; ret (set_masses s ms)) sys
  = (set_masses sys (((fun m => fst (g m)) <$> take (N.to_nat n) (masses sys))
                       ++ drop (N.to_nat n) (masses sys)),
     concat ((fun m => snd (g m)) <$> take (N.to_nat n) (masses sys))).
Proof.
  set (body := fun i s =>
      ms <- update_at (MassAt i) g (masses s) ;; ret (set_masses s ms)).
  pose proof (for_loop_inv (fun j s o =>
           s = set_masses sys (((fun m => fst (g m)) <$> take (N.to_nat j) (masses sys))
                                 ++ drop (N.to_nat j) (masses sys)) /\
           o = concat ((fun m => snd (g m)) <$> take (N.to_nat j) (masses sys)))
         body n sys) as H.
  cbv beta in H.
  destruct (for_loop n body sys) as [s o]. cbn [fst snd] in H.
  destruct H as [-> ->]; [| |reflexivity].
  - change (N.to_nat 0) with 0%nat. rewrite take_0, drop_0.
    cbn [fmap list_fmap app concat]. split; [|reflexivity].
    symmetry. apply set_masses_id.
  - intros j s' o' _ [-> ->]. unfold body. rewrite bind_fst, bind_snd.
    cbn [ret fst snd masses set_masses update_at]. rewrite app_nil_r.
    rewrite N2Nat.inj_succ, lookup_fmap_take_drop.
    destruct (masses sys !! N.to_nat j) as [m|] eqn:E.
    + rewrite bind_fst, bind_snd. cbn [ret fst snd]. rewrite app_nil_r.
      split.
      * unfold set_masses. cbn [springs mass_count spring_count]. f_equal.
        apply (insert_fmap_take_drop (fun m => fst (g m))). exact E.
      * rewrite (take_S_r _ _ _ E), fmap_app, concat_app.
        cbn [fmap list_fmap concat]. rewrite app_nil_r. reflexivity.
    + apply lookup_ge_None_1 in E. cbn [ret fst snd]. rewrite app_nil_r.
      rewrite !take_ge, !drop_ge by lia. split; reflexivity.
Qed.

End Collections.

(** ** stepMasses, resetForces, applyUniformForce, addMass *)

Section Steps.
Context {T : Type} {AT : Arith T}.

Lemma system_mass_update_eq (sys : System T) (dt : T) :
  system_mass_update sys dt =
    set_masses sys
      (((fun m => mass_update m dt) <$> mass_collection sys)
         ++ drop (N.to_nat (mass_count sys)) (masses sys)).
Proof.
  exact (iter_loop_masses (fun m => mass_update m dt) sys (mass_count sys)).
Qed.

Lemma system_mass_reset_forces_eq (sys : System T) :
  system_mass_reset_forces sys =
    set_masses sys
      ((mass_reset_forces <$> mass_collection sys)
         ++ drop (N.to_nat (mass_count sys)) (masses sys)).
Proof. exact (iter_loop_masses mass_reset_forces sys (mass_count sys)). Qed.

Lemma system_mass_force_append_eq (sys : System T) (force : Vector2 T) :
  system_mass_force_append sys force =
    (set_masses sys
       (((fun m => fst (mass_force_append m force)) <$> mass_collection sys)
          ++ drop (N.to_nat (mass_count sys)) (masses sys)),
     concat ((fun m => snd (mass_force_append m force)) <$> mass_collection sys)).
Proof.
  exact (for_loop_masses (fun m => mass_force_append m force) sys
           (mass_count sys)).
Qed.

Lemma mass_collection_set_masses (sys : System T) (f : Mass T -> Mass T) :
  mass_collection
    (set_masses sys ((f <$> mass_collection sys)
                       ++ drop (N.to_nat (mass_count sys)) (masses sys)))
  = f <$> mass_collection sys.
Proof. apply take_fmap_take_drop. Qed.

(** The reports of one uniform force: one line per mass whose list is
    full. *)
Lemma force_append_reports (force : Vector2 T) (l : list (Mass T)) :
  concat ((fun m => snd (mass_force_append m force)) <$> l)
  = replicate (length (filter (fun m => FORCES_CAPACITY <= force_count m) l))
              ERR_FORCES.
Proof.
  induction l as [|m l IH]; [reflexivity|].
  rewrite fmap_cons. cbn [concat]. rewrite IH, filter_cons.
  destruct (decide (FORCES_CAPACITY <= force_count m)) as [Hfull|Hfree].
  - rewrite mass_force_append_full by exact Hfull. reflexivity.
  - rewrite mass_force_append_free by lia. reflexivity.
Qed.

Lemma mass_update_forces (m : Mass T) (dt : T) :
  forces (mass_update m dt) = forces m /\
  force_count (mass_update m dt) = force_count m /\
  mass (mass_update m dt) = mass m /\ fixed (mass_update m dt) = fixed m.
Proof.
  destruct (fixed m) eqn:Hf.
  - rewrite mass_update_fixed by exact Hf. auto.
  - rewrite mass_update_free by exact Hf. cbn. auto.
Qed.

(** X1. stepMasses replaces every mass of the collection by its integrated
    value, each computed from that mass alone, and changes nothing else: the
    slots beyond the mass count, the springs and the counts are kept.  The
    integration keeps the force list and the force count of a mass, so a
    second stepMasses without resetForces applies the same forces again. *)
Theorem system_mass_update_each (sys : System T) (dt : T) :
  (forall m : Mass T,
     forces (mass_update m dt) = forces m /\
     force_count (mass_update m dt) = force_count m /\
     mass (mass_update m dt) = mass m /\ fixed (mass_update m dt) = fixed m) /\
  mass_collection (system_mass_update sys dt)
    = (fun m => mass_update m dt) <$> mass_collection sys /\
  drop (N.to_nat (mass_count sys)) (masses (system_mass_update sys dt))
    = drop (N.to_nat (mass_count sys)) (masses sys) /\
  length (masses (system_mass_update sys dt)) = length (masses sys) /\
  same_topology sys (system_mass_update sys dt).
Proof.
  split; [intros m; apply mass_update_forces|].
  rewrite system_mass_update_eq. split; [|split; [|split]].
  - apply mass_collection_set_masses.
  - apply drop_fmap_take_drop.
  - apply length_fmap_take_drop.
  - apply same_topology_set_masses.
Qed.

(** X2. resetForces only sets the force counts of the masses of the
    collection to zero: every such mass then has no accumulated force, the
    stored forces stay in the array but are not read again (the next
    integration of a free mass gives exactly the gravitational
    acceleration), and nothing else in the system changes. *)
Theorem system_mass_reset_forces_each (sys : System T) :
  (forall (m : Mass T) (dt : T),
     forces (mass_reset_forces m) = forces m /\
     (fixed m = false ->
      acceleration (mass_update (mass_reset_forces m) dt)
        = GRAVITATIONAL_ACCELERATION)) /\
  mass_collection (system_mass_reset_forces sys)
    = mass_reset_forces <$> mass_collection sys /\
  Forall (fun m => force_count m = 0 /\ accumulated m = [])
         (mass_collection (system_mass_reset_forces sys)) /\
  drop (N.to_nat (mass_count sys)) (masses (system_mass_reset_forces sys))
    = drop (N.to_nat (mass_count sys)) (masses sys) /\
  length (masses (system_mass_reset_forces sys)) = length (masses sys) /\
  same_topology sys (system_mass_reset_forces sys).
Proof.
  rewrite system_mass_reset_forces_eq.
  split; [|split; [|split; [|split; [|split]]]].
  - intros m dt. split; [reflexivity|]. intros Hfree.
    rewrite mass_update_free by exact Hfree. reflexivity.
  - apply mass_collection_set_masses.
  - rewrite mass_collection_set_masses. apply Forall_fmap, Forall_forall.
    intros m _. split; reflexivity.
  - apply drop_fmap_take_drop.
  - apply length_fmap_take_drop.
  - apply same_topology_set_masses.
Qed.

(** X3. applyUniformForce applies the force to every mass of the
    collection and to no other slot, and prints one line per mass whose
    force list is full. *)
Theorem system_mass_force_append_each (sys : System T) (force : Vector2 T) :
  mass_collection (fst (system_mass_force_append sys force))
    = (fun m => fst (mass_force_append m force)) <$> mass_collection sys /\
  snd (system_mass_force_append sys force)
    = replicate
        (length (filter (fun m => FORCES_CAPACITY <= force_count m)
                        (mass_collection sys)))
        ERR_FORCES /\
  drop (N.to_nat (mass_count sys))
       (masses (fst (system_mass_force_append sys force)))
    = drop (N.to_nat (mass_count sys)) (masses sys) /\
  same_topology sys (fst (system_mass_force_append sys force)).
Proof.
  rewrite system_mass_force_append_eq. cbn [fst snd].
  split; [|split; [|split]].
  - apply (mass_collection_set_masses sys
             (fun m => fst (mass_force_append m force))).
  - apply force_append_reports.
  - apply (drop_fmap_take_drop (fun m => fst (mass_force_append m force))).
  - apply same_topology_set_masses.
Qed.

(** X4. Below the capacity addMass prints nothing, stores the mass at the
    end of the mass collection, adds one to the mass count and keeps the
    springs and the size of the array. *)
Theorem system_add_mass_appends (sys : System T) (m : Mass T) :
  wf_system sys -> mass_count sys < SYSTEM_CAPACITY ->
  exists sys',
    system_add_mass sys m = (sys', []) /\
    mass_collection sys' = mass_collection sys ++ [m] /\
    mass_count sys' = mass_count sys + 1 /\
    springs sys' = springs sys /\ spring_count sys' = spring_count sys /\
    length (masses sys') = length (masses sys).
Proof.
  intros [Hlen _] Hfree. eexists. split; [apply system_add_mass_free; exact Hfree|].
  unfold mass_collection. cbn [masses mass_count springs spring_count].
  split; [|split; [|split; [|split]]]; try reflexivity.
  - replace (N.to_nat (mass_count sys + 1)) with (S (N.to_nat (mass_count sys)))
      by lia.
    apply take_insert_snoc. rewrite Hlen. lia.
  - apply length_insert.
Qed.

Lemma accumulated_length (m : Mass T) :
  mass_ok m -> length (accumulated m) = N.to_nat (force_count m).
Proof.
  intros [Hwf Hc]. unfold accumulated, wf_mass in *.
  rewrite length_take, Hwf. lia.
Qed.

(** X5. Saturation of the force list.  Forces applied one after the other
    to a mass are kept in order up to FORCES_CAPACITY accumulated forces;
    each further one is rejected with one printed line and changes
    nothing. *)
Theorem mass_force_append_saturates (m : Mass T) (fs : list (Vector2 T)) :
  mass_ok m ->
  fst (mass_force_append_all m fs) = apply_forces m fs /\
  accumulated (fst (mass_force_append_all m fs))
    = take (N.to_nat FORCES_CAPACITY) (accumulated m ++ fs) /\
  force_count (fst (mass_force_append_all m fs))
    = N.min (force_count m + N.of_nat (length fs)) FORCES_CAPACITY /\
  snd (mass_force_append_all m fs)
    = replicate (length fs - (N.to_nat FORCES_CAPACITY
                              - N.to_nat (force_count m)))
                ERR_FORCES.
Proof.
  intros Hok. revert m Hok.
  induction fs as [|f fs IH]; intros m Hok.
  - pose proof (accumulated_length m Hok) as Hlen. destruct Hok as [Hwf Hc].
    cbn [mass_force_append_all ret fst snd length].
    split; [reflexivity|]. split; [|split; [lia|reflexivity]].
    rewrite app_nil_r, take_ge by lia. reflexivity.
  - cbn [mass_force_append_all]. rewrite bind_fst, bind_snd, apply_forces_cons.
    pose proof (accumulated_length m Hok) as Hlen.
    destruct (N.lt_ge_cases (force_count m) FORCES_CAPACITY) as [Hfree|Hfull].
    + rewrite mass_force_append_free by exact Hfree. cbn [fst snd app].
      assert (Hok' : mass_ok (pushed m f)).
      { split; [apply pushed_wf, Hok|]. cbn. lia. }
      destruct (IH (pushed m f) Hok') as (Hfst & Hacc & Hcount & Hout).
      split; [exact Hfst|]. split; [|split].
      * rewrite Hacc, accumulated_pushed by (apply Hok || exact Hfree).
        rewrite <- app_assoc. reflexivity.
      * rewrite Hcount. cbn [pushed set_forces force_count length]. lia.
      * rewrite Hout. f_equal. cbn [pushed set_forces force_count length].
        lia.
    + rewrite mass_force_append_full by exact Hfull. cbn [fst snd].
      destruct (IH m Hok) as (Hfst & Hacc & Hcount & Hout).
      split; [exact Hfst|]. split; [|split].
      * rewrite Hacc. destruct Hok as [_ Hc].
        rewrite !take_app_le by lia. reflexivity.
      * rewrite Hcount. destruct Hok as [_ Hc]. cbn [length]. lia.
      * rewrite Hout. destruct Hok as [_ Hc].
        replace (length (f :: fs) - (N.to_nat FORCES_CAPACITY
                                     - N.to_nat (force_count m)))%nat
          with (S (length fs - (N.to_nat FORCES_CAPACITY
                                - N.to_nat (force_count m))))
          by (cbn [length]; lia).
        reflexivity.
Qed.

End Steps.

(** ** Forces are only appended; arrays stay in bounds *)

Section Appended.
Context {T : Type} {AT : Arith T}.

Lemma forces_appended_refl (m : Mass T) : forces_appended m m.
Proof.
  unfold forces_appended. split_and!; try reflexivity; [auto|].
  intros _. exists []. rewrite app_nil_r. reflexivity.
Qed.

Lemma forces_appended_trans (m1 m2 m3 : Mass T) :
  forces_appended m1 m2 -> forces_appended m2 m3 -> forces_appended m1 m3.
Proof.
  intros (Hp & Hv & Ha & Hm & Hf & Hl & Hc & Hb & Hacc)
         (Hp' & Hv' & Ha' & Hm' & Hf' & Hl' & Hc' & Hb' & Hacc').
  unfold forces_appended. split_and!; try congruence; [lia|auto|].
  intros Hwf. destruct (Hacc Hwf) as [fs Hfs].
  destruct Hacc' as [fs' Hfs']; [unfold wf_mass in *; congruence|].
  exists (fs ++ fs'). rewrite Hfs', Hfs, app_assoc. reflexivity.
Qed.

Lemma forces_appended_ok (m m' : Mass T) :
  forces_appended m m' -> mass_ok m -> mass_ok m'.
Proof.
  intros (_ & _ & _ & _ & _ & Hl & _ & Hb & _) [Hwf Hc].
  split; [unfold wf_mass in *; congruence|auto].
Qed.

Lemma mass_force_append_appended (m : Mass T) (force : Vector2 T) :
  forces_appended m (fst (mass_force_append m force)).
Proof.
  destruct (decide (FORCES_CAPACITY <= force_count m)) as [Hfull|Hfree].
  - rewrite mass_force_append_full by exact Hfull. apply forces_appended_refl.
  - rewrite mass_force_append_free by lia. cbn [fst].
    unfold forces_appended, pushed.
    cbn [position velocity acceleration mass fixed forces force_count set_forces].
    split_and!; try reflexivity; [apply length_insert|lia|lia|].
    intros Hwf. exists [force]. apply accumulated_append; [exact Hwf|lia].
Qed.

Lemma pushed_appended (m : Mass T) (force : Vector2 T) :
  force_count m < FORCES_CAPACITY -> forces_appended m (pushed m force).
Proof.
  intros H. pose proof (mass_force_append_appended m force) as Ha.
  rewrite mass_force_append_free in Ha by exact H. exact Ha.
Qed.

Lemma only_forces_appended_refl (ms : list (Mass T)) :
  only_forces_appended ms ms.
Proof.
  split; [reflexivity|]. intros i m Hi. exists m.
  split; [exact Hi|apply forces_appended_refl].
Qed.

Lemma only_forces_appended_trans (ms1 ms2 ms3 : list (Mass T)) :
  only_forces_appended ms1 ms2 -> only_forces_appended ms2 ms3 ->
  only_forces_appended ms1 ms3.
Proof.
  intros [Hl H12] [Hl' H23]. split; [congruence|].
  intros i m Hi. destruct (H12 i m Hi) as (m2 & Hi2 & Hm2).
  destruct (H23 i m2 Hi2) as (m3 & Hi3 & Hm3).
  exists m3. split; [exact Hi3|].
  eapply forces_appended_trans; eassumption.
Qed.

Lemma only_forces_appended_ok (ms ms' : list (Mass T)) :
  only_forces_appended ms ms' -> Forall mass_ok ms -> Forall mass_ok ms'.
Proof.
  intros [Hl H] Hok. apply Forall_lookup. intros i m' Hi'.
  assert (Hlt : (i < length ms)%nat)
    by (rewrite <- Hl; eapply lookup_lt_Some; exact Hi').
  destruct (lookup_lt_is_Some_2 _ _ Hlt) as [m Hi].
  destruct (H i m Hi) as (m'' & Hi'' & Happ).
  assert (m'' = m') by congruence. subst m''.
  eapply forces_appended_ok; [exact Happ|].
  eapply Forall_lookup_1; eassumption.
Qed.

Lemma update_at_appended (p : MassPtr) (force : Vector2 T)
    (ms : list (Mass T)) :
  only_forces_appended ms
    (fst (update_at p (fun m => mass_force_append m force) ms)).
Proof.
  destruct p as [|k]; [apply only_forces_appended_refl|].
  cbn [update_at].
  destruct (ms !! N.to_nat k) as [mk|] eqn:Hk;
    [|apply only_forces_appended_refl].
  rewrite bind_fst. cbn [ret fst].
  split; [apply length_insert|].
  intros i m Hi. destruct (decide (i = N.to_nat k)) as [->|Hne].
  - eexists. split.
    + apply list_lookup_insert_eq. eapply lookup_lt_Some; exact Hk.
    + assert (m = mk) by congruence. subst m.
      apply mass_force_append_appended.
  - exists m. split; [|apply forces_appended_refl].
    rewrite list_lookup_insert_ne by congruence. exact Hi.
Qed.

Lemma update_at_frame (p : MassPtr) (f : Mass T -> Out (Mass T))
    (ms : list (Mass T)) (k : nat) :
  p <> MassAt (N.of_nat k) ->
  fst (update_at p f ms) !! k = ms !! k.
Proof.
  intros Hp. destruct p as [|j]; [reflexivity|].
  cbn [update_at]. destruct (ms !! N.to_nat j); [|reflexivity].
  rewrite bind_fst. cbn [ret fst].
  apply list_lookup_insert_ne. intros <-. apply Hp.
  rewrite N2Nat.id. reflexivity.
Qed.

Lemma mass_update_ok (m : Mass T) (dt : T) :
  mass_ok m -> mass_ok (mass_update m dt).
Proof.
  destruct (mass_update_forces m dt) as (Hf & Hc & _).
  unfold mass_ok, wf_mass. rewrite Hf, Hc. auto.
Qed.

Lemma mass_reset_forces_ok (m : Mass T) :
  mass_ok m -> mass_ok (mass_reset_forces m).
Proof.
  intros [Hwf _]. split; [exact Hwf|]. cbn. unfold FORCES_CAPACITY. lia.
Qed.

Lemma Forall_fmap_take_drop {A} (P : A -> Prop) (f : A -> A) (l : list A)
    (n : nat) :
  (forall x, P x -> P (f x)) -> Forall P l ->
  Forall P ((f <$> take n l) ++ drop n l).
Proof.
  intros Hf Hl. apply Forall_app. split.
  - apply Forall_fmap. eapply Forall_impl; [apply Forall_take; exact Hl|].
    intros x Hx. apply Hf. exact Hx.
  - apply Forall_drop. exact Hl.
Qed.

Lemma Mass_zero_ok : mass_ok (Mass_zero (T := T)).
Proof.
  split.
  - unfold wf_mass, Mass_zero. cbn [forces]. apply length_replicate.
  - cbn. unfold FORCES_CAPACITY. lia.
Qed.

Lemma lattice_mass_ok (origin : Vector2 T) (cell_size mass0 : T) (r c : N) :
  mass_ok (lattice_mass origin cell_size mass0 r c).
Proof.
  split.
  - unfold wf_mass, lattice_mass. cbn [forces]. apply length_replicate.
  - cbn. unfold FORCES_CAPACITY. lia.
Qed.

Lemma arrays_ok_zero : arrays_ok (System_zero (T := T)).
Proof.
  split; [apply wf_system_zero|].
  unfold System_zero. cbn [masses]. apply Forall_replicate, Mass_zero_ok.
Qed.

Lemma arrays_ok_same (sys sys' : System T) :
  same_topology sys sys' -> length (masses sys') = length (masses sys) ->
  Forall mass_ok (masses sys') ->
  arrays_ok sys -> arrays_ok sys'.
Proof.
  intros (Hs & _ & _) Hl Hok [[Hlm Hls] _].
  split; [split; congruence|exact Hok].
Qed.

Lemma system_mass_update_ok (sys : System T) (dt : T) :
  arrays_ok sys -> arrays_ok (system_mass_update sys dt).
Proof.
  intros Hok. rewrite system_mass_update_eq.
  eapply arrays_ok_same; [apply same_topology_set_masses| | |exact Hok].
  - apply length_fmap_take_drop.
  - apply Forall_fmap_take_drop; [|apply Hok].
    intros m. apply mass_update_ok.
Qed.

Lemma system_mass_reset_forces_ok (sys : System T) :
  arrays_ok sys -> arrays_ok (system_mass_reset_forces sys).
Proof.
  intros Hok. rewrite system_mass_reset_forces_eq.
  eapply arrays_ok_same; [apply same_topology_set_masses| | |exact Hok].
  - apply length_fmap_take_drop.
  - apply Forall_fmap_take_drop; [|apply Hok].
    intros m. apply mass_reset_forces_ok.
Qed.

Lemma system_mass_force_append_ok (sys : System T) (force : Vector2 T) :
  arrays_ok sys -> arrays_ok (fst (system_mass_force_append sys force)).
Proof.
  intros Hok. rewrite system_mass_force_append_eq. cbn [fst].
  eapply arrays_ok_same; [apply same_topology_set_masses| | |exact Hok].
  - apply (length_fmap_take_drop (fun m => fst (mass_force_append m force))).
  - apply (Forall_fmap_take_drop mass_ok
             (fun m => fst (mass_force_append m force))); [|apply Hok].
    intros m. apply forces_appended_ok, mass_force_append_appended.
Qed.

Lemma system_add_mass_ok (sys : System T) (m : Mass T) :
  mass_ok m -> arrays_ok sys -> arrays_ok (fst (system_add_mass sys m)).
Proof.
  intros Hm [[Hlm Hls] Hok]. unfold system_add_mass.
  destruct (SYSTEM_CAPACITY <=? mass_count sys).
  - cbn. split; [split|]; assumption.
  - cbn [ret fst]. split; [split|]; cbn [masses springs].
    + rewrite length_insert. exact Hlm.
    + exact Hls.
    + apply Forall_insert; assumption.
Qed.

Lemma system_add_spring_ok (sys : System T) (spring : Spring T) (m1 m2 : N) :
  arrays_ok sys -> arrays_ok (fst (system_add_spring sys spring m1 m2)).
Proof.
  intros [[Hlm Hls] Hok]. unfold system_add_spring.
  destruct (SYSTEM_CAPACITY <=? spring_count sys);
    [cbn; split; [split|]; assumption|].
  destruct (mass_count sys <=? m1); [cbn; split; [split|]; assumption|].
  destruct (mass_count sys <=? m2); [cbn; split; [split|]; assumption|].
  cbn [ret fst]. split; [split|]; cbn [masses springs].
  - exact Hlm.
  - rewrite length_insert. exact Hls.
  - exact Hok.
Qed.

Lemma system_init_grid_ok (sys : System T) (rows cols : N)
    (origin : Vector2 T) (cell_size mass0 spring_strength spring_dampening : T) :
  arrays_ok sys ->
  arrays_ok (fst (system_init_grid sys rows cols origin cell_size mass0
                    spring_strength spring_dampening)).
Proof.
  intros Hok. unfold system_init_grid. rewrite bind_fst.
  apply (for_loop_inv (fun _ s _ => arrays_ok s)).
  - apply (for_loop_inv (fun _ s _ => arrays_ok s)).
    + exact Hok.
    + intros r s _ _ Hs.
      apply (for_loop_inv (fun _ s _ => arrays_ok s)); [exact Hs|].
      intros c s' _ _ Hs'. apply system_add_mass_ok; [|exact Hs'].
      apply (lattice_mass_ok origin cell_size mass0 r c).
  - intros r s _ _ Hs.
    apply (for_loop_inv (fun _ s _ => arrays_ok s)); [exact Hs|].
    intros c s' _ _ Hs'. rewrite bind_fst.
    assert (Hstep : forall (b : bool) (s0 : System T) (spr : Spring T)
                      (x y : N),
               arrays_ok s0 ->
               arrays_ok (fst (if b then system_add_spring s0 spr x y
                               else ret s0))).
    { intros b s0 spr x y H0. destruct b; [|exact H0].
      apply system_add_spring_ok. exact H0. }
    apply Hstep, Hstep, Hs'.
Qed.

Context {RM : Raymath T}.

Lemma spring_update_appended (spring : Spring T) (ms : list (Mass T)) :
  only_forces_appended ms (fst (spring_update spring ms)).
Proof.
  rewrite spring_update_contributions, !bind_fst.
  eapply only_forces_appended_trans; [apply update_at_appended|].
  eapply only_forces_appended_trans; [apply update_at_appended|].
  eapply only_forces_appended_trans; [apply update_at_appended|].
  apply update_at_appended.
Qed.

Lemma spring_update_frame (spring : Spring T) (ms : list (Mass T)) (k : nat) :
  first spring <> MassAt (N.of_nat k) -> second spring <> MassAt (N.of_nat k) ->
  fst (spring_update spring ms) !! k = ms !! k.
Proof.
  intros H1 H2. rewrite spring_update_contributions, !bind_fst.
  rewrite !update_at_frame by assumption. reflexivity.
Qed.

Lemma system_spring_update_appended (sys : System T) :
  only_forces_appended (masses sys) (masses (fst (system_spring_update sys))).
Proof.
  unfold system_spring_update.
  apply (for_loop_inv (fun _ s _ => only_forces_appended (masses sys) (masses s))).
  - apply only_forces_appended_refl.
  - intros j s o _ IH.
    destruct (springs s !! N.to_nat j); [|exact IH].
    rewrite bind_fst. cbn [ret fst set_masses masses].
    eapply only_forces_appended_trans; [exact IH|apply spring_update_appended].
Qed.

Lemma system_spring_update_ok (sys : System T) :
  arrays_ok sys -> arrays_ok (fst (system_spring_update sys)).
Proof.
  intros Hok. pose proof (system_spring_update_appended sys) as Happ.
  eapply arrays_ok_same; [apply system_spring_update_topology| | |exact Hok].
  - apply Happ.
  - eapply only_forces_appended_ok; [exact Happ|apply Hok].
Qed.

Lemma tick_ok (w : bool) (dt : T) (sys : System T) :
  arrays_ok sys -> arrays_ok (fst (tick w dt sys)).
Proof.
  intros Hok. unfold tick. rewrite bind_fst.
  pose proof (system_mass_reset_forces_ok _
                (system_mass_update_ok _ dt (system_spring_update_ok _ Hok)))
    as H.
  destruct w; [|exact H].
  apply system_mass_force_append_ok. exact H.
Qed.

End Appended.

(** ** One tick *)

Section Tick.
Context {T : Type} {AT : Arith T}.

Lemma system_mass_update_collection (sys : System T) (dt : T) :
  mass_collection (system_mass_update sys dt)
  = (fun m => mass_update m dt) <$> mass_collection sys.
Proof. rewrite system_mass_update_eq. apply mass_collection_set_masses. Qed.

Lemma system_mass_reset_forces_collection (sys : System T) :
  mass_collection (system_mass_reset_forces sys)
  = mass_reset_forces <$> mass_collection sys.
Proof. rewrite system_mass_reset_forces_eq. apply mass_collection_set_masses. Qed.

Lemma system_mass_force_append_collection (sys : System T) (force : Vector2 T) :
  mass_collection (fst (system_mass_force_append sys force))
  = (fun m => fst (mass_force_append m force)) <$> mass_collection sys.
Proof.
  rewrite system_mass_force_append_eq. cbn [fst].
  apply (mass_collection_set_masses sys
           (fun m => fst (mass_force_append m force))).
Qed.

Lemma system_mass_force_append_quiet (sys : System T) (force : Vector2 T) :
  Forall (fun m => force_count m < FORCES_CAPACITY) (mass_collection sys) ->
  snd (system_mass_force_append sys force) = [].
Proof.
  intros Hfree. rewrite system_mass_force_append_eq. cbn [snd].
  induction (mass_collection sys) as [|m l IH]; [reflexivity|].
  rewrite fmap_cons. cbn [concat].
  apply Forall_cons in Hfree as [Hm Hl].
  rewrite mass_force_append_free by exact Hm. cbn [snd app].
  apply IH. exact Hl.
Qed.

Lemma collection_wf_appended (sys sys' : System T) :
  only_forces_appended (masses sys) (masses sys') ->
  mass_count sys' = mass_count sys ->
  Forall wf_mass (mass_collection sys) ->
  Forall wf_mass (mass_collection sys').
Proof.
  intros [Hl H] Hc Hwf. apply Forall_lookup. intros i m' Hi'.
  unfold mass_collection in Hi'. rewrite Hc in Hi'.
  apply lookup_take_Some in Hi' as [Hi' Hlt].
  assert (Hlt' : (i < length (masses sys))%nat)
    by (rewrite <- Hl; eapply lookup_lt_Some; exact Hi').
  destruct (lookup_lt_is_Some_2 _ _ Hlt') as [m Hi].
  destruct (H i m Hi) as (m'' & Hi'' & Happ).
  assert (m'' = m') by congruence. subst m''.
  assert (Hm : wf_mass m).
  { eapply Forall_lookup_1; [exact Hwf|].
    unfold mass_collection. rewrite lookup_take_lt by exact Hlt. exact Hi. }
  destruct Happ as (_ & _ & _ & _ & _ & Hlen & _).
  unfold wf_mass in *. congruence.
Qed.

Context {RM : Raymath T}.

Lemma tick_collection (w : bool) (dt : T) (sys : System T) :
  mass_collection (fst (tick w dt sys))
  = (fun m =>
       let m := mass_reset_forces (mass_update m dt) in
       if w then fst (mass_force_append m (V2 WIND_STRENGTH (a_of_Z c_float 0)))
       else m)
    <$> mass_collection (fst (system_spring_update sys)).
Proof.
  unfold tick. rewrite bind_fst. cbv zeta.
  destruct w.
  - rewrite system_mass_force_append_collection,
      system_mass_reset_forces_collection, system_mass_update_collection.
    rewrite <- !list_fmap_compose. reflexivity.
  - cbn [ret fst].
    rewrite system_mass_reset_forces_collection, system_mass_update_collection.
    rewrite <- !list_fmap_compose. reflexivity.
Qed.

Lemma tick_reports (w : bool) (dt : T) (sys : System T) :
  snd (tick w dt sys) = snd (system_spring_update sys).
Proof.
  unfold tick. rewrite bind_snd. cbv zeta.
  destruct w; [|cbn [ret snd]; apply app_nil_r].
  rewrite system_mass_force_append_quiet; [apply app_nil_r|].
  rewrite system_mass_reset_forces_collection.
  apply Forall_fmap, Forall_forall. intros m _. cbn.
  unfold FORCES_CAPACITY. lia.
Qed.

Lemma tick_force_counts (w : bool) (dt : T) (sys : System T) :
  Forall (fun m => force_count m = if w then 1 else 0)
         (mass_collection (fst (tick w dt sys))).
Proof.
  rewrite tick_collection. apply Forall_fmap, Forall_forall.
  intros m _. destruct w; reflexivity.
Qed.

Lemma tick_accumulated (w : bool) (dt : T) (sys : System T) :
  Forall wf_mass (mass_collection sys) ->
  Forall (fun m => accumulated m =
                     if w then [V2 WIND_STRENGTH (a_of_Z c_float 0)] else [])
         (mass_collection (fst (tick w dt sys))).
Proof.
  intros Hwf. rewrite tick_collection. apply Forall_fmap.
  pose proof (collection_wf_appended sys (fst (system_spring_update sys))
                (system_spring_update_appended sys)
                (proj1 (proj2 (system_spring_update_topology sys))) Hwf) as Hwf1.
  eapply Forall_impl; [exact Hwf1|].
  intros m Hm. unfold compose. cbv beta zeta. destruct w; [|reflexivity].
  assert (Hm' : wf_mass (mass_reset_forces (mass_update m dt))).
  { destruct (mass_update_forces m dt) as (Hf & _).
    unfold wf_mass. cbn [mass_reset_forces set_forces forces]. rewrite Hf.
    exact Hm. }
  rewrite mass_force_append_free by (cbn; unfold FORCES_CAPACITY; lia).
  cbn [fst]. rewrite accumulated_pushed;
    [reflexivity|exact Hm'|cbn; unfold FORCES_CAPACITY; lia].
Qed.

End Tick.

(** ** stepSprings without overflow *)

Section Incidence.
Context {T : Type} {AT : Arith T}.

Lemma incidence_app (i : N) (l1 l2 : list (Spring T)) :
  incidence i (l1 ++ l2) = incidence i l1 + incidence i l2.
Proof.
  induction l1 as [|s l1 IH]; [reflexivity|].
  cbn [app incidence]. rewrite IH. lia.
Qed.

Lemma incidence_take_le (i : N) (l : list (Spring T)) (k : nat) :
  incidence i (take k l) <= incidence i l.
Proof.
  rewrite <- (take_drop k l) at 2. rewrite incidence_app. lia.
Qed.

Lemma incidence_take_mono (i : N) (l : list (Spring T)) (k n : nat) :
  (k <= n)%nat -> incidence i (take k l) <= incidence i (take n l).
Proof.
  intros Hkn. replace (take k l) with (take k (take n l)).
  - apply incidence_take_le.
  - rewrite take_take. f_equal. lia.
Qed.

Lemma ends_at_bound (s : Spring T) (a b i : N) :
  first s = MassAt a -> second s = MassAt b ->
  ends_at s i = (if a =? i then 1 else 0) + (if b =? i then 1 else 0).
Proof. intros Ha Hb. unfold ends_at. rewrite Ha, Hb. reflexivity. Qed.

Lemma incidence_le_max (i : N) (l : list (Spring T)) :
  incidence i l <= max_incidence l.
Proof.
  unfold max_incidence.
  assert (H : forall l',
             incidence i l' = 0 \/
             incidence i l <=
               foldr (fun (s : Spring T) acc =>
                        N.max (N.max (ptr_incidence (first s) l)
                                     (ptr_incidence (second s) l)) acc) 0 l').
  { induction l' as [|s l' IH]; [left; reflexivity|].
    cbn [incidence foldr]. unfold ends_at.
    destruct (first s) as [|a] eqn:Ha; destruct (second s) as [|b] eqn:Hb;
      cbn [ptr_is ptr_incidence];
      repeat match goal with
             | |- context [?x =? i] => destruct (N.eqb_spec x i); subst
             end;
      destruct IH as [IH|IH]; try (left; lia); right; lia. }
  destruct (H l) as [H0|Hle]; [lia|exact Hle].
Qed.

Context {RM : Raymath T}.

(** A spring from a mass to itself with four free slots: the four
    contributions are appended to this mass, in the order of the calls. *)
Lemma spring_update_looped (spring : Spring T) (ms : list (Mass T))
    (i : N) (mi : Mass T) :
  first spring = MassAt i -> second spring = MassAt i ->
  ms !! N.to_nat i = Some mi ->
  force_count mi + 4 <= FORCES_CAPACITY ->
  spring_update spring ms =
    (<[N.to_nat i :=
         pushed (pushed (pushed (pushed mi (spring_force_first spring ms))
                                (spring_force_second spring ms))
                        (dampener_force_first spring ms))
                (dampener_force_second spring ms)]> ms, []).
Proof.
  intros Hf Hs Hi Hfree.
  assert (Hli : (N.to_nat i < length ms)%nat)
    by (eapply lookup_lt_Some; eassumption).
  rewrite spring_update_contributions, Hf, Hs.
  rewrite (update_at_append_free i ms mi) by (assumption || lia).
  rewrite bind_ret_l_out.
  erewrite (update_at_append_free i _ (pushed mi _));
    [| apply list_lookup_insert_eq; assumption | cbn; lia].
  rewrite bind_ret_l_out, list_insert_insert_eq.
  erewrite (update_at_append_free i _ (pushed (pushed mi _) _));
    [| apply list_lookup_insert_eq; assumption | cbn; lia].
  rewrite bind_ret_l_out, list_insert_insert_eq.
  erewrite (update_at_append_free i _ (pushed (pushed (pushed mi _) _) _));
    [| apply list_lookup_insert_eq; assumption | cbn; lia].
  rewrite list_insert_insert_eq. reflexivity.
Qed.

Lemma system_spring_update_room (sys : System T) :
  endpoints_in_collection sys ->
  (N.to_nat (mass_count sys) <= length (masses sys))%nat ->
  (forall i m, masses sys !! N.to_nat i = Some m ->
     0 < incidence i (spring_collection sys) ->
     force_count m + 2 * incidence i (spring_collection sys)
       <= FORCES_CAPACITY) ->
  snd (system_spring_update sys) = [] /\
  forall i m, masses sys !! N.to_nat i = Some m ->
    exists m',
      masses (fst (system_spring_update sys)) !! N.to_nat i = Some m' /\
      force_count m' =
        force_count m + 2 * incidence i (spring_collection sys).
Proof.
  intros Hin Hlen Hroom.
  set (inv := fun (j : N) (s : System T) (o : list string) =>
     o = [] /\ springs s = springs sys /\
     forall i m, masses sys !! N.to_nat i = Some m ->
       exists m', masses s !! N.to_nat i = Some m' /\
         force_count m' =
           force_count m + 2 * incidence i (take (N.to_nat j) (springs sys))).
  assert (H : inv (spring_count sys) (fst (system_spring_update sys))
                  (snd (system_spring_update sys))).
  { unfold system_spring_update. apply (for_loop_inv inv).
    - split; [reflexivity|]. split; [reflexivity|].
      intros i m Hi. exists m. split; [exact Hi|].
      change (N.to_nat 0) with 0%nat. rewrite take_0. cbn [incidence]. lia.
    - intros j s o Hj (-> & Hsp & Hms). unfold inv.
      rewrite Hsp, N2Nat.inj_succ.
      destruct (springs sys !! N.to_nat j) as [spring|] eqn:Hj'.
      2: { cbn [ret fst snd]. split; [reflexivity|]. split; [exact Hsp|].
           apply lookup_ge_None_1 in Hj'.
           intros i m Hi. destruct (Hms i m Hi) as (m' & Hm' & Hc').
           exists m'. split; [exact Hm'|].
           rewrite take_ge by lia. rewrite take_ge in Hc' by lia. exact Hc'. }
      assert (Hel : spring ∈ spring_collection sys).
      { unfold spring_collection. apply list_elem_of_lookup.
        exists (N.to_nat j). rewrite lookup_take_lt by lia. exact Hj'. }
      destruct (Hin spring Hel) as (a & b & Ha & Hb & Hlta & Hltb).
      rewrite (take_S_r _ _ _ Hj').
      assert (Hinc : forall i,
                 incidence i (take (N.to_nat j) (springs sys) ++ [spring])
                 = incidence i (take (N.to_nat j) (springs sys))
                   + ((if a =? i then 1 else 0) + (if b =? i then 1 else 0))).
      { intros i. rewrite incidence_app. cbn [incidence].
        rewrite (ends_at_bound spring a b i Ha Hb). lia. }
      assert (Hmono : forall i,
                 incidence i (take (N.to_nat j) (springs sys) ++ [spring])
                 <= incidence i (spring_collection sys)).
      { intros i. rewrite <- (take_S_r _ _ _ Hj').
        apply incidence_take_mono. lia. }
      destruct (lookup_lt_is_Some_2 (masses sys) (N.to_nat a)) as [ma0 Ha0];
        [lia|].
      destruct (lookup_lt_is_Some_2 (masses sys) (N.to_nat b)) as [mb0 Hb0];
        [lia|].
      destruct (Hms a ma0 Ha0) as (ma & Hma & Hca).
      destruct (Hms b mb0 Hb0) as (mb & Hmb & Hcb).
      rewrite bind_fst, bind_snd.
      destruct (N.eq_dec a b) as [Hab|Hne].
      { subst b.
        assert (Hra : force_count ma + 4 <= FORCES_CAPACITY).
        { pose proof (Hmono a) as Hm. rewrite Hinc, N.eqb_refl in Hm.
          pose proof (Hroom a ma0 Ha0). lia. }
        rewrite (spring_update_looped spring (masses s) a ma Ha Hb Hma Hra).
        cbn [ret fst snd set_masses masses springs app].
        split; [reflexivity|]. split; [exact Hsp|].
        intros i m Hi. destruct (Hms i m Hi) as (m' & Hm' & Hc').
        rewrite Hinc.
        destruct (N.eqb_spec a i) as [Hai|Hai].
        - subst i. eexists. split.
          + apply list_lookup_insert_eq. eapply lookup_lt_Some; exact Hma.
          + assert (m' = ma) by congruence. subst m'. cbn. lia.
        - exists m'. split; [|lia].
          rewrite list_lookup_insert_ne by lia. exact Hm'. }
      assert (Hra : force_count ma + 2 <= FORCES_CAPACITY).
      { pose proof (Hmono a) as Hm. rewrite Hinc, N.eqb_refl in Hm.
        pose proof (Hroom a ma0 Ha0). lia. }
      assert (Hrb : force_count mb + 2 <= FORCES_CAPACITY).
      { pose proof (Hmono b) as Hm. rewrite Hinc, N.eqb_refl in Hm.
        pose proof (Hroom b mb0 Hb0). lia. }
      rewrite (spring_update_paired spring (masses s) a b ma mb Ha Hb Hne
                 Hma Hmb Hra Hrb).
      cbn [ret fst snd set_masses masses springs app].
      split; [reflexivity|]. split; [exact Hsp|].
      intros i m Hi. destruct (Hms i m Hi) as (m' & Hm' & Hc').
      rewrite Hinc.
      destruct (N.eqb_spec a i) as [Hai|Hai], (N.eqb_spec b i) as [Hbi|Hbi].
      + congruence.
      + subst i. eexists. split.
        * rewrite list_lookup_insert_ne by lia.
          apply list_lookup_insert_eq. eapply lookup_lt_Some; exact Hma.
        * assert (m' = ma) by congruence. subst m'. cbn. lia.
      + subst i. eexists. split.
        * apply list_lookup_insert_eq. rewrite length_insert.
          eapply lookup_lt_Some; exact Hmb.
        * assert (m' = mb) by congruence. subst m'. cbn. lia.
      + exists m'. split; [|lia].
        rewrite !list_lookup_insert_ne by lia. exact Hm'. }
  destruct H as (Ho & _ & Hms). split; [exact Ho|exact Hms].
Qed.

End Incidence.

(** ** buildGrid: the springs *)

Lemma size_mul_small (a b : N) : a * b < SIZE_MOD -> size_mul a b = a * b.
Proof. intros H. unfold size_mul. apply N.mod_small. exact H. Qed.

Lemma size_sub_small (a b : N) :
  b <= a -> a < SIZE_MOD -> size_sub a b = a - b.
Proof.
  intros Hle Hlt. unfold size_sub.
  rewrite Z.mod_small; [lia|].
  unfold SIZE_MOD in *. simpl in *. lia.
Qed.

Section Grid_springs.
Context {T : Type} {AT : Arith T}.

Lemma system_add_spring_free (sys : System T) (spring : Spring T) (m1 m2 : N) :
  spring_count sys < SYSTEM_CAPACITY ->
  m1 < mass_count sys -> m2 < mass_count sys ->
  system_add_spring sys spring m1 m2 =
    (mkSystem (masses sys)
       (<[N.to_nat (spring_count sys) :=
            mkSpring (MassAt m1) (MassAt m2) (length_ spring) (strength spring)
                     (dampening spring)]> (springs sys))
       (mass_count sys) (spring_count sys + 1), []).
Proof.
  intros Hs H1 H2. unfold system_add_spring.
  rewrite (proj2 (N.leb_gt _ _) Hs), (proj2 (N.leb_gt _ _) H1),
    (proj2 (N.leb_gt _ _) H2).
  rewrite size_add_small by size_lia. reflexivity.
Qed.

(** A guarded [system_add_spring], as in the two tests of the second pass
    of [system_init_grid]. *)
Lemma system_add_spring_if (b : bool) (sys : System T) (spring : Spring T)
    (x y : N) :
  mass_count (fst (if b then system_add_spring sys spring x y else ret sys))
    = mass_count sys /\
  (forall s,
     s ∈ spring_collection
           (fst (if b then system_add_spring sys spring x y else ret sys)) ->
     s ∈ spring_collection sys \/
     (b = true /\
      s = mkSpring (MassAt x) (MassAt y) (length_ spring) (strength spring)
                   (dampening spring))) /\
  ((b = true ->
    spring_count sys < SYSTEM_CAPACITY /\ x < mass_count sys /\
    y < mass_count sys) ->
   snd (if b then system_add_spring sys spring x y else ret sys) = [] /\
   spring_count (fst (if b then system_add_spring sys spring x y else ret sys))
     = spring_count sys + (if b then 1 else 0)).
Proof.
  destruct b.
  - split; [apply system_add_spring_masses|]. split.
    + intros s Hs.
      destruct (system_add_spring_collection sys spring x y s Hs)
        as [H|(H & _)]; [left; exact H|right; split; [reflexivity|exact H]].
    + intros H. destruct (H eq_refl) as (Hs & Hx & Hy).
      rewrite system_add_spring_free by assumption. split; reflexivity.
  - cbn [ret fst snd]. split; [reflexivity|]. split; [auto|].
    intros _. split; [reflexivity|lia].
Qed.

Lemma grid_row_bound (r rows cols : N) :
  r < rows -> r * cols + cols <= rows * cols.
Proof.
  intros Hr.
  assert (H : (r + 1) * cols <= rows * cols) by (apply N.mul_le_mono_r; lia).
  lia.
Qed.



Lemma lattice_edge_right (rows cols r c : N) (cell_size k d : T) :
  r < rows -> c < cols -> c <> cols - 1 ->
  lattice_edge rows cols cell_size k d
    (mkSpring (MassAt (r * cols + c)) (MassAt (r * cols + c + 1))
              cell_size k d).
Proof.
  intros Hr Hc Hne. exists r, c. split_and!; try reflexivity; try assumption.
  left. split; [reflexivity|lia].
Qed.

Lemma lattice_edge_below (rows cols r c : N) (cell_size k d : T) :
  r < rows -> c < cols -> r <> rows - 1 ->
  lattice_edge rows cols cell_size k d
    (mkSpring (MassAt (r * cols + c)) (MassAt ((r + 1) * cols + c))
              cell_size k d).
Proof.
  intros Hr Hc Hne. exists r, c. split_and!; try reflexivity; try assumption.
  right. split; [reflexivity|lia].
Qed.

Lemma system_add_spring_at_capacity (sys : System T) (spring : Spring T)
    (m1 m2 : N) :
  SYSTEM_CAPACITY <= spring_count sys ->
  system_add_spring sys spring m1 m2 = (sys, [ERR_SPRINGS]).
Proof.
  intros H. unfold system_add_spring.
  rewrite (proj2 (N.leb_le _ _) H). reflexivity.
Qed.

Lemma system_init_grid_springs (sys : System T) (rows cols : N)
    (origin : Vector2 T) (cell_size mass0 k d : T) :
  rows * cols <= SYSTEM_CAPACITY ->
  mass_count (fst (system_init_grid sys rows cols origin cell_size mass0 k d))
    = rows * cols /\
  (forall s,
     s ∈ spring_collection
           (fst (system_init_grid sys rows cols origin cell_size mass0 k d)) ->
     lattice_edge rows cols cell_size k d s) /\
  spring_count
    (fst (system_init_grid sys rows cols origin cell_size mass0 k d))
    = N.min (grid_spring_count rows cols) SYSTEM_CAPACITY /\
  snd (system_init_grid sys rows cols origin cell_size mass0 k d)
    = replicate (N.to_nat (grid_spring_count rows cols - SYSTEM_CAPACITY))
                ERR_SPRINGS.
Proof.
  intros Hcap. unfold system_init_grid. rewrite bind_fst, bind_snd.
  (* first pass: the masses *)
  set (P1 := fun (r c : N) (s : System T) (o : list string) =>
         o = [] /\ mass_count s = r * cols + c /\ spring_count s = 0).
  match goal with
  | |- context [for_loop rows _ (fst (for_loop rows ?body1 ?init))] =>
      assert (H1 : P1 rows 0 (fst (for_loop rows body1 init))
                      (snd (for_loop rows body1 init)))
  end.
  { apply (for_loop_inv (fun r s o => P1 r 0 s o)).
    - split; [reflexivity|]. split; reflexivity.
    - intros r s o Hr (-> & Hm & Hs).
      assert (Hrow : P1 r cols
                (fst (for_loop cols (fun c s0 =>
                   system_add_mass s0
                     (lattice_mass origin cell_size mass0 r c)) s))
                (snd (for_loop cols (fun c s0 =>
                   system_add_mass s0
                     (lattice_mass origin cell_size mass0 r c)) s))).
      { apply (for_loop_inv (fun c s0 o0 => P1 r c s0 o0)).
        - split; [reflexivity|]. split; [lia|exact Hs].
        - intros c s0 o0 Hc (-> & Hm0 & Hs0).
          assert (Hfree : mass_count s0 < SYSTEM_CAPACITY)
            by (rewrite Hm0; eapply row_major_capacity; eassumption).
          rewrite system_add_mass_free by exact Hfree. cbn [fst snd].
          split; [reflexivity|]. split; [cbn [mass_count]; lia|exact Hs0]. }
      destruct Hrow as (Ho & Hm' & Hs').
      split; [exact Ho|]. split; [etransitivity; [exact Hm'|lia]|exact Hs']. }
  destruct H1 as (Ho1 & Hm1 & Hs1). rewrite Ho1. cbn [app]. clear Ho1.
  revert Hm1 Hs1.
  match goal with
  | |- context [for_loop rows _ (fst (for_loop rows ?body1 ?init))] =>
      generalize (fst (for_loop rows body1 init))
  end.
  intros s1 Hm1 Hs1. rewrite N.add_0_r in Hm1.
  (* second pass: the springs *)
  set (edges := fun s : System T =>
         forall x, x ∈ spring_collection s ->
                   lattice_edge rows cols cell_size k d x).
  set (P2 := fun (n : N) (s : System T) (o : list string) =>
         mass_count s = rows * cols /\ edges s /\
         spring_count s = N.min n SYSTEM_CAPACITY /\
         o = replicate (N.to_nat (n - SYSTEM_CAPACITY)) ERR_SPRINGS).
  match goal with
  | |- context [for_loop rows ?body2 s1] =>
      assert (H2 : P2 (rows * (cols - 1) + N.min rows (rows - 1) * cols)
                      (fst (for_loop rows body2 s1))
                      (snd (for_loop rows body2 s1)))
  end.
  { apply (for_loop_inv (fun r s o =>
             P2 (r * (cols - 1) + N.min r (rows - 1) * cols) s o)).
    - split; [exact Hm1|]. split.
      + intros x Hx. unfold spring_collection in Hx. rewrite Hs1 in Hx.
        apply elem_of_nil in Hx. contradiction.
      + rewrite Hs1, N.mul_0_l, N.min_0_l, N.mul_0_l.
        split; reflexivity.
    - intros r s o Hr HP.
      set (row := fun c : N =>
             r * (cols - 1) + r * cols + N.min c (cols - 1)
             + (if r =? rows - 1 then 0 else c)).
      assert (Heq : forall n n' s' o', n = n' -> P2 n s' o' -> P2 n' s' o')
        by (intros n n' s' o' ->; auto).
      apply (Heq (row cols)).
      { unfold row. destruct (N.eqb_spec r (rows - 1)) as [Hlast|Hlast].
        - rewrite (N.min_r (N.succ r)) by lia.
          destruct (N.eq_dec cols 0) as [->|Hcols]; [lia|].
          rewrite N.min_r by lia. lia.
        - rewrite (N.min_l (N.succ r)) by lia.
          destruct (N.eq_dec cols 0) as [->|Hcols]; [lia|].
          rewrite N.min_r by lia. lia. }
      apply (for_loop_inv (fun c s' o' => P2 (row c) s' (o ++ o'))).
      { rewrite app_nil_r. eapply Heq; [|exact HP].
        unfold row. rewrite (N.min_l r) by lia. rewrite N.min_0_l.
        destruct (r =? rows - 1); lia. }
      intros c s' o' Hc HP'.
      assert (Hstep : forall (b : bool) (s0 : System T) (o0 : list string)
                        (x y n : N),
                 P2 n s0 o0 ->
                 (b = true ->
                  x < rows * cols /\ y < rows * cols /\
                  lattice_edge rows cols cell_size k d
                    (mkSpring (MassAt x) (MassAt y) cell_size k d)) ->
                 P2 (n + (if b then 1 else 0))
                    (fst (if b then system_add_spring s0
                                 (mkSpring NullPtr NullPtr cell_size k d) x y
                          else ret s0))
                    (o0 ++ snd (if b then system_add_spring s0
                                 (mkSpring NullPtr NullPtr cell_size k d) x y
                                else ret s0))).
      { intros b s0 o0 x y n (Hm0 & He0 & Hc0 & Ho0) Hb.
        destruct b.
        2: { cbn [ret fst snd]. rewrite app_nil_r, N.add_0_r.
             split_and!; assumption. }
        destruct (Hb eq_refl) as (Hx & Hy & Hedge).
        destruct (N.lt_ge_cases n SYSTEM_CAPACITY) as [Hlt|Hge].
        - rewrite system_add_spring_free by (rewrite ?Hc0, ?Hm0; lia).
          cbn [fst snd]. rewrite app_nil_r.
          split; [exact Hm0|]. split; [|split].
          + intros e He. unfold spring_collection in He.
            cbn [springs spring_count] in He.
            replace (N.to_nat (spring_count s0 + 1))
              with (Datatypes.S (N.to_nat (spring_count s0))) in He by lia.
            apply elem_of_take_insert in He as [He| ->];
              [apply He0; exact He|exact Hedge].
          + cbn [spring_count]. lia.
          + rewrite Ho0. f_equal. lia.
        - rewrite system_add_spring_at_capacity by lia. cbn [fst snd].
          split; [exact Hm0|]. split; [exact He0|]. split; [lia|].
          rewrite Ho0.
          replace (N.to_nat (n + 1 - SYSTEM_CAPACITY))
            with (Datatypes.S (N.to_nat (n - SYSTEM_CAPACITY))) by lia.
          symmetry. apply replicate_S_end. }
      pose proof (grid_row_bound r rows cols Hr) as Hrc.
      assert (Hrows : rows * 1 <= rows * cols)
        by (apply N.mul_le_mono_l; lia).
      assert (HM : SYSTEM_CAPACITY < SIZE_MOD) by (vm_compute; reflexivity).
      rewrite bind_fst, bind_snd.
      assert (Hcols : 1 * cols <= rows * cols)
        by (apply N.mul_le_mono_r; lia).
      assert (HM2 : 2 * SYSTEM_CAPACITY < SIZE_MOD) by (vm_compute; reflexivity).
      rewrite (size_mul_small rows cols), (size_mul_small r cols),
        (size_add_small r 1) by lia.
      rewrite (size_mul_small (r + 1) cols), (size_sub_small cols 1),
        (size_sub_small rows 1) by lia.
      rewrite (size_add_small (r * cols) c) by lia.
      rewrite (size_add_small (r * cols + c) 1),
        (size_add_small ((r + 1) * cols) c) by lia.
      rewrite !app_assoc.
      assert (Hb1 : negb (c =? cols - 1) && (r * cols + c + 1 <? rows * cols)
                    = negb (c =? cols - 1)).
      { destruct (N.eqb_spec c (cols - 1)); [reflexivity|].
        cbn [negb andb]. apply N.ltb_lt. lia. }
      assert (Hb2 : negb (r =? rows - 1) && ((r + 1) * cols + c <? rows * cols)
                    = negb (r =? rows - 1)).
      { destruct (N.eqb_spec r (rows - 1)); [reflexivity|].
        cbn [negb andb]. apply N.ltb_lt.
        assert ((r + 2) * cols <= rows * cols)
          by (apply N.mul_le_mono_r; lia).
        lia. }
      rewrite Hb1, Hb2.
      eapply Heq; [|apply Hstep; [apply Hstep; [exact HP'|]|]].
      + unfold row.
        destruct (N.eqb_spec r (rows - 1)); destruct (N.eqb_spec c (cols - 1));
          cbn [negb]; lia.
      + intros Hb. apply negb_true_iff, N.eqb_neq in Hb.
        split_and!; [lia|lia|apply lattice_edge_right; assumption].
      + intros Hb. apply negb_true_iff, N.eqb_neq in Hb.
        assert ((r + 2) * cols <= rows * cols)
          by (apply N.mul_le_mono_r; lia).
        split_and!; [lia|lia|apply lattice_edge_below; assumption]. }
  destruct H2 as (Hm & He & Hc & Ho). split; [exact Hm|]. split; [exact He|].
  assert (Hn : rows * (cols - 1) + N.min rows (rows - 1) * cols
               = grid_spring_count rows cols)
    by (unfold grid_spring_count; rewrite N.min_r by lia; reflexivity).
  rewrite Hn in Hc, Ho. split; assumption.
Qed.

End Grid_springs.

(** ** Equilibrium of a spring *)

Section Equilibrium.
Context {RM : Raymath spec_float}.

Lemma Vector2Scale_by_zero (d : Vector2 spec_float) (k : spec_float) :
  finite_vec d -> sf_is_zero k = true -> zero_vec (Vector2Scale d k).
Proof.
  intros [Hx Hy] Hk. split; simpl; apply SFmul_zero_r; assumption.
Qed.

Lemma scaled_by_zero_factor (d : Vector2 spec_float) (k z : spec_float) :
  finite_vec d -> sf_finite k = true -> sf_is_zero z = true ->
  zero_vec (Vector2Scale d
              (a_cast c_float (a_mul c_double k z))).
Proof.
  intros Hd Hk Hz. apply Vector2Scale_by_zero; [exact Hd|].
  cbn [a_cast a_mul binary_arith]. apply sf_cast_zero.
  apply SFmul_zero_r; assumption.
Qed.

(** X11. Equilibrium.  With a finite direction vector: a spring whose
    endpoints are exactly its rest length apart applies zero spring forces,
    and a spring whose endpoints move with the same velocity applies zero
    dampener forces (for finite rest length, stiffness, damping and closing
    rate). *)
Theorem spring_update_equilibrium
    (spring : Spring spec_float) (ms : list (Mass spec_float)) :
  finite_vec (spring_direction spring ms) ->
  (length_ spring = a_cast c_double (Vector2Length (spring_span spring ms)) ->
   sf_finite (length_ spring) = true -> sf_finite (strength spring) = true ->
   zero_vec (spring_force_first spring ms) /\
   zero_vec (spring_force_second spring ms)) /\
  (velocity (mass_at (first spring) ms) = velocity (mass_at (second spring) ms) ->
   sf_finite
     (a_cast c_double
        (Vector2DotProduct (velocity (mass_at (first spring) ms))
                           (spring_direction spring ms))) = true ->
   sf_finite (dampening spring) = true ->
   zero_vec (dampener_force_first spring ms) /\
   zero_vec (dampener_force_second spring ms)).
Proof.
  intros Hdir. split.
  - intros Hrest Hlen Hk.
    assert (Hdisp : spring_displacement spring ms = S754_zero false).
    { unfold spring_displacement. rewrite <- Hrest.
      cbn [a_sub binary_arith]. apply SFsub_diag. exact Hlen. }
    unfold spring_force_first, spring_force_second. rewrite Hdisp.
    split; apply scaled_by_zero_factor; try assumption; reflexivity.
  - intros Hv Hfin Hd.
    assert (Hrate : displacement_rate spring ms = S754_zero false).
    { unfold displacement_rate. rewrite <- Hv.
      cbn [a_add a_cast a_neg binary_arith] in *.
      rewrite sf_cast_opp. apply SFadd_opp_diag. exact Hfin. }
    unfold dampener_force_first, dampener_force_second. rewrite Hrate.
    split; apply scaled_by_zero_factor; try assumption; reflexivity.
Qed.

End Equilibrium.

Lemma spring_update_equilibrium_witness :
  (zero_vec (spring_force_first (RM := raymath) rest_spring drifting_masses) /\
   zero_vec (spring_force_second (RM := raymath) rest_spring drifting_masses)) /\
  (zero_vec (dampener_force_first (RM := raymath) rest_spring drifting_masses) /\
   zero_vec (dampener_force_second (RM := raymath) rest_spring drifting_masses)).
Proof.
  assert (Hdir : finite_vec (spring_direction (RM := raymath) rest_spring
                               drifting_masses))
    by (vm_compute; split; reflexivity).
  split.
  - apply (proj1 (spring_update_equilibrium (RM := raymath) rest_spring
                    drifting_masses Hdir)); vm_compute; reflexivity.
  - apply (proj2 (spring_update_equilibrium (RM := raymath) rest_spring
                    drifting_masses Hdir)); vm_compute; reflexivity.
Defined.

(** ** The running program *)

Section Cloth.
Context {T : Type} {AT : Arith T}.

Lemma default_incidence :
  max_incidence
    (spring_collection (fst (INIT_DEFAULT_GRID (T := T) System_zero))) = 4.
Proof. vm_compute. reflexivity. Qed.

Lemma incidence_bound (n i : N) (l : list (Spring T)) :
  (forall s, s ∈ l -> spring_bound n s) -> 0 < incidence i l -> i < n.
Proof.
  induction l as [|s l IH]; intros Hb Hpos; [cbn in Hpos; lia|].
  destruct (Hb s) as (a & b & Ha & Hb' & Hlta & Hltb);
    [apply list_elem_of_here|].
  cbn [incidence] in Hpos. rewrite (ends_at_bound s a b i Ha Hb') in Hpos.
  destruct (N.eqb_spec a i); [lia|].
  destruct (N.eqb_spec b i); [lia|].
  apply IH; [|lia].
  intros s' Hs'. apply Hb. apply list_elem_of_further. exact Hs'.
Qed.

Lemma system_init_grid_rest (sys : System T) (rows cols : N)
    (origin : Vector2 T) (cell_size mass0 k d : T) :
  wf_system sys -> rows * cols <= SYSTEM_CAPACITY ->
  Forall (fun m => force_count m = 0)
         (mass_collection
            (fst (system_init_grid sys rows cols origin cell_size mass0 k d))).
Proof.
  intros [Hlen _] Hcap.
  destruct (system_init_grid_masses sys rows cols origin cell_size mass0 k d
              Hlen Hcap) as [Hcount Hlook].
  apply Forall_lookup. intros i m Hi.
  unfold mass_collection in Hi. rewrite Hcount in Hi.
  apply lookup_take_Some in Hi as [Hi Hlt].
  assert (Hcols : cols <> 0) by (intros ->; lia).
  pose proof (N.div_mod' (N.of_nat i) cols) as Hdm.
  pose proof (N.mod_lt (N.of_nat i) cols Hcols) as Hmod.
  assert (Hr : N.of_nat i / cols < rows)
    by (apply N.Div0.div_lt_upper_bound; lia).
  specialize (Hlook _ _ Hr Hmod).
  replace (N.to_nat (N.of_nat i / cols * cols + N.of_nat i mod cols))
    with i in Hlook by lia.
  assert (m = lattice_mass origin cell_size mass0 (N.of_nat i / cols)
                           (N.of_nat i mod cols)) by congruence.
  subst m. reflexivity.
Qed.

Lemma INIT_DEFAULT_GRID_cloth (sys : System T) :
  arrays_ok sys ->
  cloth (fst (INIT_DEFAULT_GRID sys)) /\ snd (INIT_DEFAULT_GRID sys) = [].
Proof.
  intros Hok. unfold INIT_DEFAULT_GRID.
  assert (Hcap : DEFAULT_GRID_ROWS * DEFAULT_GRID_COLS <= SYSTEM_CAPACITY)
    by (vm_compute; discriminate).
  assert (Hsp : grid_spring_count DEFAULT_GRID_ROWS DEFAULT_GRID_COLS
                <= SYSTEM_CAPACITY) by (vm_compute; discriminate).
  match goal with
  | |- cloth (fst (system_init_grid sys ?r ?c ?o ?cs ?m ?k ?d)) /\ _ =>
      destruct (system_init_grid_springs sys r c o cs m k d Hcap)
        as (Hmc & _ & Hsc & Hout);
      destruct (system_init_grid_inv sys r c o cs m k d) as [Hinv Hdist];
      destruct (system_init_grid_alike sys System_zero r c o cs m k d
                  (proj1 Hok) wf_system_zero) as [[(_ & _ & _ & Hcoll) _] _];
      pose proof (system_init_grid_rest sys r c o cs m k d (proj1 Hok) Hcap)
        as Hrest;
      destruct (system_init_grid_masses sys r c o cs m k d
                  (proj1 (proj1 Hok)) Hcap) as [_ Hlook];
      pose proof (system_init_grid_ok sys r c o cs m k d Hok) as Hok'
  end.
  rewrite N.min_l in Hsc by exact Hsp.
  replace (grid_spring_count DEFAULT_GRID_ROWS DEFAULT_GRID_COLS
           - SYSTEM_CAPACITY) with 0 in Hout by (vm_compute; reflexivity).
  split; [|exact Hout].
  unfold cloth. split_and!; try assumption.
  - apply Hdist. vm_compute. reflexivity.
  - eapply Forall_impl; [exact Hrest|]. intros m ->. lia.
  - intros c Hc.
    assert (H0 : 0 < DEFAULT_GRID_ROWS) by (vm_compute; reflexivity).
    specialize (Hlook 0 c H0 Hc).
    replace (N.to_nat (0 * DEFAULT_GRID_COLS + c)) with (N.to_nat c) in Hlook
      by lia.
    eexists. split; [exact Hlook|]. split_and!; reflexivity.
Qed.

Context {RM : Raymath T}.

Lemma cloth_spring_update_quiet (sys : System T) :
  cloth sys -> snd (system_spring_update sys) = [].
Proof.
  intros (Hok & Hinv & Hdist & Hmc & Hcoll & Hsc & Hfc & _).
  apply system_spring_update_room; [apply Hinv| |].
  - destruct Hok as [[Hlen _] _]. rewrite Hlen, Hmc.
    unfold DEFAULT_GRID_ROWS, DEFAULT_GRID_COLS, SYSTEM_CAPACITY. lia.
  - intros i m Hi Hpos.
    pose proof (incidence_le_max i (spring_collection sys)) as Hmax.
    rewrite Hcoll, default_incidence in Hmax. rewrite Hcoll in Hpos |- *.
    assert (Hlt : i < mass_count sys).
    { eapply incidence_bound; [apply Hinv|]. rewrite Hcoll. exact Hpos. }
    assert (Hm : force_count m <= 1).
    { apply (Forall_lookup_1 (fun m : Mass T => force_count m <= 1) _
               (N.to_nat i) m Hfc). unfold mass_collection.
      rewrite lookup_take_lt by lia. exact Hi. }
    unfold FORCES_CAPACITY. lia.
Qed.

Lemma top_row_pinned_unmoved (sys sys' : System T) :
  unmoved (masses sys) (masses sys') ->
  top_row_pinned sys -> top_row_pinned sys'.
Proof.
  intros Hun Hpin c Hc. destruct (Hpin c Hc) as (m & Hm & Hf & Hv & Hp).
  destruct (Hun _ m Hm Hf) as (m' & Hm' & Hf' & Hp' & Hv').
  exists m'. split; [exact Hm'|]. split; [exact Hf'|]. split; congruence.
Qed.

Lemma tick_cloth (w : bool) (dt : T) (sys : System T) :
  cloth sys -> cloth (fst (tick w dt sys)) /\ snd (tick w dt sys) = [].
Proof.
  intros Hcl. split.
  - destruct Hcl as (Hok & Hinv & Hdist & Hmc & Hcoll & Hsc & Hfc & Hpin).
    pose proof (tick_topology w dt sys) as Htop.
    destruct (same_topology_inv _ _ Htop) as [Hi Hd].
    destruct Htop as (Hs & Hm & Hc).
    unfold cloth. split_and!.
    + apply tick_ok. exact Hok.
    + apply Hi. exact Hinv.
    + apply Hd. exact Hdist.
    + congruence.
    + unfold spring_collection in *. rewrite Hs, Hc. exact Hcoll.
    + congruence.
    + eapply Forall_impl; [apply tick_force_counts|].
      intros m ->. destruct w; lia.
    + eapply top_row_pinned_unmoved; [apply tick_unmoved|exact Hpin].
  - rewrite tick_reports. apply cloth_spring_update_quiet. exact Hcl.
Qed.

Lemma main_frame_cloth (fr : Frame T) (st : Program T) :
  cloth (system st) ->
  cloth (system (fst (main_frame fr st))) /\ snd (main_frame fr st) = [].
Proof.
  intros Hcl. unfold main_frame. cbv zeta. rewrite bind_fst, bind_snd.
  match goal with
  | |- context [snd ?init ++ _] =>
      assert (Hinit : cloth (fst init) /\ snd init = [])
  end.
  { destruct (key_enter fr); [|split; [exact Hcl|reflexivity]].
    apply INIT_DEFAULT_GRID_cloth. apply Hcl. }
  destruct Hinit as [Hcl' Ho]. rewrite Ho. cbn [app].
  destruct (negb (if key_space fr then negb (running st) else running st)).
  - cbn [ret fst snd system]. split; [exact Hcl'|reflexivity].
  - rewrite bind_fst, bind_snd. cbn [ret fst snd system].
    rewrite app_nil_r. apply tick_cloth. exact Hcl'.
Qed.

Lemma main_loop_cloth (frames : list (Frame T)) :
  forall st : Program T,
    cloth (system st) ->
    cloth (system (fst (main_loop frames st))) /\
    snd (main_loop frames st) = [].
Proof.
  induction frames as [|fr frames IH]; intros st Hcl.
  - cbn. split; [exact Hcl|reflexivity].
  - cbn [main_loop]. rewrite bind_fst, bind_snd.
    destruct (main_frame_cloth fr st Hcl) as [Hcl' Ho]. rewrite Ho.
    cbn [app]. apply IH. exact Hcl'.
Qed.

Lemma main_start_eq :
  fst (main_start (T := T)) =
    mkProgram false false (fst (INIT_DEFAULT_GRID System_zero)) /\
  snd (main_start (T := T)) = snd (INIT_DEFAULT_GRID (T := T) System_zero).
Proof.
  unfold main_start. rewrite bind_fst, bind_snd. cbn [ret fst snd].
  rewrite app_nil_r. split; reflexivity.
Qed.

Lemma main_cloth (frames : list (Frame T)) :
  cloth (system (fst (main frames))) /\ snd (main frames) = [].
Proof.
  unfold main. rewrite bind_fst, bind_snd.
  destruct main_start_eq as [-> ->].
  destruct (INIT_DEFAULT_GRID_cloth System_zero arrays_ok_zero) as [Hcl Ho].
  rewrite Ho. cbn [app].
  apply (main_loop_cloth frames
           (mkProgram false false (fst (INIT_DEFAULT_GRID System_zero)))).
  exact Hcl.
Qed.

End Cloth.

(** ** Spring steps, bounds, ticks and the loop of [main] *)

Section Program.
Context {T : Type} {AT : Arith T} {RM : Raymath T}.

(** X6. A spring step, and so stepSprings, changes no position, velocity,
    acceleration, inertia or fixed flag of any mass: it only appends forces
    to force lists, never beyond their capacity.  One spring step leaves
    every slot other than its two endpoints untouched, and stepSprings
    keeps the springs and the counts. *)
Theorem spring_step_only_appends :
  (forall (spring : Spring T) (ms : list (Mass T)),
     only_forces_appended ms (fst (spring_update spring ms)) /\
     forall k : nat,
       first spring <> MassAt (N.of_nat k) ->
       second spring <> MassAt (N.of_nat k) ->
       fst (spring_update spring ms) !! k = ms !! k) /\
  (forall sys : System T,
     only_forces_appended (masses sys)
       (masses (fst (system_spring_update sys))) /\
     same_topology sys (fst (system_spring_update sys))).
Proof.
  split.
  - intros spring ms. split; [apply spring_update_appended|].
    intros k. apply spring_update_frame.
  - intros sys. split; [apply system_spring_update_appended|].
    apply system_spring_update_topology.
Qed.

(** X9. Array bounds.  In the zeroed system the arrays have their declared
    sizes and every force count is at most FORCES_CAPACITY; buildGrid,
    addMass, addSpring, stepSprings, stepMasses, resetForces,
    applyUniformForce and a whole tick keep this, as do applyForce,
    integrate and resetForces on a single mass.  So every read forces[i]
    with i below the force count stays inside the array. *)
Theorem arrays_stay_in_bounds :
  arrays_ok (System_zero (T := T)) /\
  (forall (sys : System T) (rows cols : N) (origin : Vector2 T)
          (cell_size mass0 spring_strength spring_dampening : T),
     arrays_ok sys ->
     arrays_ok (fst (system_init_grid sys rows cols origin cell_size mass0
                       spring_strength spring_dampening))) /\
  (forall (sys : System T) (m : Mass T),
     mass_ok m -> arrays_ok sys -> arrays_ok (fst (system_add_mass sys m))) /\
  (forall (spring : Spring T) (m1 m2 : N),
     preserves arrays_ok
       (fun sys : System T => fst (system_add_spring sys spring m1 m2))) /\
  preserves arrays_ok (fun sys : System T => fst (system_spring_update sys)) /\
  (forall dt, preserves arrays_ok (fun sys : System T => system_mass_update sys dt)) /\
  preserves arrays_ok (fun sys : System T => system_mass_reset_forces sys) /\
  (forall force,
     preserves arrays_ok
       (fun sys : System T => fst (system_mass_force_append sys force))) /\
  (forall w dt, preserves arrays_ok (fun sys : System T => fst (tick w dt sys))) /\
  (forall (m : Mass T) (force : Vector2 T),
     mass_ok m -> mass_ok (fst (mass_force_append m force))) /\
  (forall (m : Mass T) (dt : T), mass_ok m -> mass_ok (mass_update m dt)) /\
  (forall m : Mass T, mass_ok m -> mass_ok (mass_reset_forces m)).
Proof.
  split_and!.
  - apply arrays_ok_zero.
  - intros. apply system_init_grid_ok. assumption.
  - intros. apply system_add_mass_ok; assumption.
  - intros spring m1 m2 sys. apply system_add_spring_ok.
  - intros sys. apply system_spring_update_ok.
  - intros dt sys. apply system_mass_update_ok.
  - intros sys. apply system_mass_reset_forces_ok.
  - intros force sys. apply system_mass_force_append_ok.
  - intros w dt sys. apply tick_ok.
  - intros m force. apply forces_appended_ok, mass_force_append_appended.
  - intros m dt. apply mass_update_ok.
  - intros m. apply mass_reset_forces_ok.
Qed.

(** X10. After a tick every mass of the collection holds exactly the wind
    force when the wind is on and no force when it is off, whatever was
    accumulated before: forces never carry over to the next tick.  The only
    lines a tick can print are those of stepSprings. *)
Theorem tick_leaves_wind_only (w : bool) (dt : T) (sys : System T) :
  snd (tick w dt sys) = snd (system_spring_update sys) /\
  Forall (fun m => force_count m = if w then 1 else 0)
         (mass_collection (fst (tick w dt sys))) /\
  (Forall wf_mass (mass_collection sys) ->
   Forall (fun m => accumulated m =
                      if w then [V2 WIND_STRENGTH (a_of_Z c_float 0)] else [])
          (mass_collection (fst (tick w dt sys)))).
Proof.
  split; [apply tick_reports|]. split; [apply tick_force_counts|].
  apply tick_accumulated.
Qed.

(** X8. stepSprings without overflow.  If every spring of the collection
    has its endpoints in the mass collection and every mass has room for
    two more forces per spring end attached to it, then stepSprings prints
    nothing and the force count of every mass grows by exactly twice the
    number of spring ends attached to it. *)
Theorem system_spring_update_no_overflow (sys : System T) :
  endpoints_in_collection sys ->
  (N.to_nat (mass_count sys) <= length (masses sys))%nat ->
  (forall i m, masses sys !! N.to_nat i = Some m ->
     0 < incidence i (spring_collection sys) ->
     force_count m + 2 * incidence i (spring_collection sys)
       <= FORCES_CAPACITY) ->
  snd (system_spring_update sys) = [] /\
  forall i m, masses sys !! N.to_nat i = Some m ->
    exists m',
      masses (fst (system_spring_update sys)) !! N.to_nat i = Some m' /\
      force_count m' =
        force_count m + 2 * incidence i (spring_collection sys).
Proof. apply system_spring_update_room. Qed.

(** X7. A spring from a mass to itself (addSpring accepts one): with four
    free slots the spring step appends all four contributions to that one
    mass, in the order spring force on first, on second, dampener force on
    first, on second, and prints nothing. *)
Theorem spring_update_self_loop (spring : Spring T) (ms : list (Mass T))
    (i : N) (mi : Mass T) :
  first spring = MassAt i -> second spring = MassAt i ->
  ms !! N.to_nat i = Some mi -> wf_mass mi ->
  force_count mi + 4 <= FORCES_CAPACITY ->
  exists mi',
    spring_update spring ms = (<[N.to_nat i := mi']> ms, []) /\
    applied mi mi' =
      [spring_force_first spring ms; spring_force_second spring ms;
       dampener_force_first spring ms; dampener_force_second spring ms] /\
    forces_appended mi mi'.
Proof.
  intros Hf Hs Hi Hwf Hfree. eexists. split; [|split].
  - apply spring_update_looped; eassumption.
  - unfold applied.
    rewrite accumulated_pushed2
      by (try (apply pushed_wf, pushed_wf; exact Hwf); cbn; lia).
    rewrite accumulated_pushed2 by (assumption || lia).
    rewrite <- app_assoc, drop_app_length'; [reflexivity|].
    unfold accumulated, wf_mass in *. rewrite length_take. lia.
  - eapply forces_appended_trans; [|apply pushed_appended; cbn; lia].
    eapply forces_appended_trans; [|apply pushed_appended; cbn; lia].
    eapply forces_appended_trans; [|apply pushed_appended; cbn; lia].
    apply pushed_appended. lia.
Qed.

(** X12. The springs of buildGrid.  When rows * cols masses fit, every
    spring of the resulting collection joins a mass of the lattice to its
    right or to its lower neighbour, with rest length cellSize and the given
    stiffness and damping.  The lattice has
    rows * (cols - 1) + (rows - 1) * cols such edges: the spring count is
    this number capped at SYSTEM_CAPACITY, and one line is printed for every
    edge beyond the capacity (none when all of them fit). *)
Theorem system_init_grid_spring_lattice (sys : System T) (rows cols : N)
    (origin : Vector2 T) (cell_size mass0 k d : T) :
  rows * cols <= SYSTEM_CAPACITY ->
  mass_count (fst (system_init_grid sys rows cols origin cell_size mass0 k d))
    = rows * cols /\
  (forall s,
     s ∈ spring_collection
           (fst (system_init_grid sys rows cols origin cell_size mass0 k d)) ->
     lattice_edge rows cols cell_size k d s) /\
  spring_count
    (fst (system_init_grid sys rows cols origin cell_size mass0 k d))
    = N.min (grid_spring_count rows cols) SYSTEM_CAPACITY /\
  snd (system_init_grid sys rows cols origin cell_size mass0 k d)
    = replicate (N.to_nat (grid_spring_count rows cols - SYSTEM_CAPACITY))
                ERR_SPRINGS.
Proof. apply system_init_grid_springs. Qed.


(** X13. None of the program's error messages is ever printed: for every
    sequence of frames (key presses and frame times), neither the set-up of
    the default grid nor any tick or reset exceeds a capacity or passes an
    invalid index. *)
Theorem main_never_reports (frames : list (Frame T)) :
  snd (main frames) = [].
Proof. apply main_cloth. Qed.

(** X14. After every sequence of frames the system still holds the cloth
    of the default grid: 400 masses and 760 springs, the spring collection
    set up at the start, every spring between two different masses of the
    collection, arrays and force counts within bounds, at most one
    accumulated force per mass, and the 20 masses of the top row fixed at
    rest at their initial positions. *)
Theorem main_keeps_cloth (frames : list (Frame T)) :
  mass_count (system (fst (main frames))) = 400 /\
  spring_count (system (fst (main frames))) = 760 /\
  spring_collection (system (fst (main frames)))
    = spring_collection (fst (INIT_DEFAULT_GRID System_zero)) /\
  system_inv (system (fst (main frames))) /\
  endpoints_distinct (system (fst (main frames))) /\
  arrays_ok (system (fst (main frames))) /\
  Forall (fun m => force_count m <= 1)
         (mass_collection (system (fst (main frames)))) /\
  top_row_pinned (system (fst (main frames))).
Proof.
  destruct (main_cloth frames)
    as [(Hok & Hinv & Hdist & Hmc & Hcoll & Hsc & Hfc & Hpin) _].
  split_and!; assumption.
Qed.

Lemma main_frame_switches (fr : Frame T) (st : Program T) :
  running (fst (main_frame fr st)) = xorb (running st) (key_space fr) /\
  wind_on (fst (main_frame fr st)) = xorb (wind_on st) (key_period fr).
Proof.
  unfold main_frame. cbv zeta. rewrite bind_fst.
  assert (Hr : (if key_space fr then negb (running st) else running st)
               = xorb (running st) (key_space fr))
    by (destruct (key_space fr), (running st); reflexivity).
  assert (Hw : (if key_period fr then negb (wind_on st) else wind_on st)
               = xorb (wind_on st) (key_period fr))
    by (destruct (key_period fr), (wind_on st); reflexivity).
  rewrite Hr, Hw.
  destruct (negb (xorb (running st) (key_space fr))).
  - cbn [ret fst running wind_on]. split; reflexivity.
  - rewrite bind_fst. cbn [ret fst running wind_on]. split; reflexivity.
Qed.

Lemma main_frame_paused (fr : Frame T) (st : Program T) :
  running (fst (main_frame fr st)) = false ->
  system (fst (main_frame fr st))
  = fst (if key_enter fr then INIT_DEFAULT_GRID (system st)
         else ret (system st)).
Proof.
  intros Hrun. pose proof (proj1 (main_frame_switches fr st)) as Hsw.
  rewrite Hrun in Hsw. revert Hrun.
  unfold main_frame. cbv zeta. rewrite bind_fst.
  replace (if key_space fr then negb (running st) else running st)
    with false
    by (rewrite Hsw; destruct (key_space fr), (running st); reflexivity).
  cbn [negb ret fst system]. reflexivity.
Qed.

Lemma main_loop_last (frames : list (Frame T)) (fr : Frame T) :
  forall st : Program T,
    fst (main_loop (frames ++ [fr]) st)
    = fst (main_frame fr (fst (main_loop frames st))).
Proof.
  induction frames as [|fr' frames IH]; intros st.
  - cbn [app main_loop]. rewrite bind_fst. reflexivity.
  - cbn [app main_loop]. rewrite !bind_fst. apply IH.
Qed.

Lemma main_last (frames : list (Frame T)) (fr : Frame T) :
  fst (main (frames ++ [fr])) = fst (main_frame fr (fst (main frames))).
Proof.
  unfold main. rewrite (bind_fst main_start), (bind_fst main_start).
  apply main_loop_last.
Qed.

Lemma main_loop_switches (frames : list (Frame T)) :
  forall st : Program T,
    running (fst (main_loop frames st))
      = foldl xorb (running st) (key_space <$> frames) /\
    wind_on (fst (main_loop frames st))
      = foldl xorb (wind_on st) (key_period <$> frames).
Proof.
  induction frames as [|fr frames IH]; intros st.
  - cbn. split; reflexivity.
  - cbn [main_loop]. rewrite bind_fst, !fmap_cons. cbn [foldl].
    destruct (main_frame_switches fr st) as [<- <-]. apply IH.
Qed.

(** X15. The two switches: after any sequence of frames the simulation
    runs exactly when SPACE was pressed in an odd number of frames, and
    the wind blows exactly when PERIOD was pressed in an odd number of
    frames; both start switched off. *)
Theorem main_switches (frames : list (Frame T)) :
  running (fst (main frames)) = foldl xorb false (key_space <$> frames) /\
  wind_on (fst (main frames)) = foldl xorb false (key_period <$> frames).
Proof.
  unfold main. rewrite bind_fst. destruct main_start_eq as [-> _].
  apply (main_loop_switches frames
           (mkProgram false false (fst (INIT_DEFAULT_GRID System_zero)))).
Qed.

(** X16. Reset.  Whatever happened before, a frame in which ENTER is
    pressed and after which the simulation is paused leaves the mass and
    spring collections of the freshly set up default grid. *)
Theorem main_reset_restores (frames : list (Frame T)) (fr : Frame T) :
  key_enter fr = true ->
  running (fst (main (frames ++ [fr]))) = false ->
  same_collections (system (fst (main (frames ++ [fr]))))
                   (fst (INIT_DEFAULT_GRID System_zero)).
Proof.
  intros Henter. rewrite main_last. intros Hrun.
  rewrite (main_frame_paused fr _ Hrun), Henter.
  destruct (main_cloth frames) as [(Hok & _) _].
  unfold INIT_DEFAULT_GRID.
  apply system_init_grid_alike; [apply Hok|apply wf_system_zero].
Qed.

End Program.

(** ** Instances of the further properties *)

Lemma system_add_mass_appends_witness :
  exists sys',
    system_add_mass two_mass_system Mass_zero = (sys', []) /\
    mass_collection sys' = mass_collection two_mass_system ++ [Mass_zero] /\
    mass_count sys' = 2 + 1 /\
    springs sys' = springs two_mass_system /\
    spring_count sys' = 0 /\
    length (masses sys') = length (masses two_mass_system).
Proof.
  apply (system_add_mass_appends two_mass_system Mass_zero).
  - exact two_mass_system_wf.
  - reflexivity.
Defined.

Lemma spring_step_only_appends_witness :
  fst (spring_update (RM := raymath) example_spring (example_masses 0 0))
    !! 2%nat
  = example_masses 0 0 !! 2%nat.
Proof.
  apply (proj2 (proj1 (spring_step_only_appends (RM := raymath))
                  example_spring (example_masses 0 0)) 2%nat).
  - discriminate.
  - discriminate.
Defined.

Lemma arrays_stay_in_bounds_witness :
  arrays_ok
    (fst (tick (RM := raymath) true (f64 1)
            (fst (system_init_grid System_zero 2 2 (v2 0 0) (f64 1) (f64 1)
                    (f64 1000) (f64 1))))).
Proof.
  pose proof (arrays_stay_in_bounds (RM := raymath)) as H.
  apply (proj1 (proj2 (proj2 (proj2 (proj2 (proj2 (proj2 (proj2 (proj2 H)))))))) true (f64 1)).
  apply (proj1 (proj2 H)).
  apply (proj1 H).
Defined.

Lemma tick_leaves_wind_only_witness :
  Forall (fun m => accumulated m = [V2 WIND_STRENGTH (a_of_Z c_float 0)])
         (mass_collection (fst (tick (RM := raymath) true (f64 1)
                                  two_mass_system))).
Proof.
  apply (proj2 (proj2 (tick_leaves_wind_only (RM := raymath) true (f64 1)
                         two_mass_system))).
  vm_compute. repeat constructor.
Defined.

Lemma sprung_system_bound : endpoints_in_collection sprung_system.
Proof.
  intros s Hs.
  assert (Hc : spring_collection sprung_system = [example_spring])
    by (vm_compute; reflexivity).
  rewrite Hc in Hs. apply list_elem_of_singleton in Hs. subst s.
  exists 0, 1. repeat split.
Qed.

Lemma sprung_system_room (i : N) (m : Mass spec_float) :
  masses sprung_system !! N.to_nat i = Some m ->
  0 < incidence i (spring_collection sprung_system) ->
  force_count m + 2 * incidence i (spring_collection sprung_system)
    <= FORCES_CAPACITY.
Proof.
  assert (Hc : spring_collection sprung_system = [example_spring])
    by (vm_compute; reflexivity).
  rewrite Hc. cbn [incidence]. unfold ends_at. cbn [first second example_spring ptr_is].
  intros Hi Hpos.
  destruct (N.eqb_spec 0 i) as [E0|H0]; destruct (N.eqb_spec 1 i) as [E1|H1];
    try lia; subst i; vm_compute in Hi; injection Hi as <-; vm_compute;
    discriminate.
Qed.

Lemma system_spring_update_no_overflow_witness :
  snd (system_spring_update (RM := raymath) sprung_system) = [].
Proof.
  apply (system_spring_update_no_overflow (RM := raymath) sprung_system).
  - exact sprung_system_bound.
  - vm_compute. lia.
  - exact sprung_system_room.
Defined.

Lemma system_init_grid_spring_lattice_witness :
  mass_count (fst (system_init_grid System_zero 64 100 (v2 0 0) (f64 1)
                     (f64 1) (f64 1000) (f64 1))) = 64 * 100 /\
  spring_count (fst (system_init_grid System_zero 64 100 (v2 0 0) (f64 1)
                       (f64 1) (f64 1000) (f64 1)))
    = N.min (grid_spring_count 64 100) SYSTEM_CAPACITY /\
  snd (system_init_grid System_zero 64 100 (v2 0 0) (f64 1) (f64 1)
         (f64 1000) (f64 1))
    = replicate (N.to_nat (grid_spring_count 64 100 - SYSTEM_CAPACITY))
                ERR_SPRINGS.
Proof.
  destruct (system_init_grid_spring_lattice System_zero 64 100 (v2 0 0)
              (f64 1) (f64 1) (f64 1000) (f64 1)) as (Hm & _ & Hs & Ho).
  - vm_compute. discriminate.
  - split; [exact Hm|]. split; [exact Hs|exact Ho].
Defined.

Lemma spring_update_self_loop_witness :
  exists mi',
    spring_update (RM := raymath)
      looped_spring
      (example_masses 0 0)
    = (<[N.to_nat 0 := mi']> (example_masses 0 0), []) /\
    applied (example_mass (v2 0 0) (v2 1 0) 0) mi' =
      [spring_force_first (RM := raymath)
         looped_spring
         (example_masses 0 0);
       spring_force_second (RM := raymath)
         looped_spring
         (example_masses 0 0);
       dampener_force_first (RM := raymath)
         looped_spring
         (example_masses 0 0);
       dampener_force_second (RM := raymath)
         looped_spring
         (example_masses 0 0)] /\
    forces_appended (example_mass (v2 0 0) (v2 1 0) 0) mi'.
Proof.
  apply (spring_update_self_loop (RM := raymath)
           looped_spring
           (example_masses 0 0) 0 (example_mass (v2 0 0) (v2 1 0) 0)).
  - reflexivity.
  - reflexivity.
  - reflexivity.
  - reflexivity.
  - vm_compute. discriminate.
Defined.

Lemma mass_force_append_saturates_witness :
  snd (mass_force_append_all (example_mass (v2 0 0) (v2 1 0) 62)
         [v2 1 0; v2 2 0; v2 3 0])
  = replicate (3 - (N.to_nat FORCES_CAPACITY - N.to_nat 62)) ERR_FORCES.
Proof.
  apply (mass_force_append_saturates (example_mass (v2 0 0) (v2 1 0) 62)
           [v2 1 0; v2 2 0; v2 3 0]).
  split; [reflexivity|]. vm_compute. discriminate.
Defined.

Lemma system_mass_reset_forces_each_witness :
  acceleration (mass_update (mass_reset_forces
                               (example_mass (v2 0 0) (v2 1 0) 2)) (f64 1))
  = GRAVITATIONAL_ACCELERATION.
Proof.
  apply (proj1 (system_mass_reset_forces_each two_mass_system)
           (example_mass (v2 0 0) (v2 1 0) 2) (f64 1)).
  reflexivity.
Defined.

Lemma main_reset_restores_witness :
  same_collections
    (system (fst (main (RM := raymath) ([] ++ [enter_frame]))))
    (fst (INIT_DEFAULT_GRID System_zero)).
Proof.
  apply (main_reset_restores (RM := raymath) [] enter_frame).
  - reflexivity.
  - vm_compute. reflexivity.
Defined.

(** ** The reports of addSpring *)

Section Reports.
Context {T : Type} {AT : Arith T}.

(** X17. addSpring tests the spring capacity first, then the first index,
    then the second, and prints the message of the first test that fails,
    leaving the system unchanged; the three messages are different. *)
Theorem system_add_spring_reports (sys : System T) (spring : Spring T)
    (m1 m2 : N) :
  (SYSTEM_CAPACITY <= spring_count sys ->
   system_add_spring sys spring m1 m2 = (sys, [ERR_SPRINGS])) /\
  (spring_count sys < SYSTEM_CAPACITY -> mass_count sys <= m1 ->
   system_add_spring sys spring m1 m2 = (sys, [ERR_FIRST])) /\
  (spring_count sys < SYSTEM_CAPACITY -> m1 < mass_count sys ->
   mass_count sys <= m2 ->
   system_add_spring sys spring m1 m2 = (sys, [ERR_SECOND])) /\
  ERR_SPRINGS <> ERR_FIRST /\ ERR_SPRINGS <> ERR_SECOND /\
  ERR_FIRST <> ERR_SECOND.
Proof.
  unfold system_add_spring. split_and!.
  - intros H. rewrite (proj2 (N.leb_le _ _) H). reflexivity.
  - intros Hc H1. rewrite (proj2 (N.leb_gt _ _) Hc), (proj2 (N.leb_le _ _) H1).
    reflexivity.
  - intros Hc H1 H2.
    rewrite (proj2 (N.leb_gt _ _) Hc), (proj2 (N.leb_gt _ _) H1),
      (proj2 (N.leb_le _ _) H2).
    reflexivity.
  - discriminate.
  - discriminate.
  - discriminate.
Qed.

End Reports.

Lemma system_add_spring_reports_witness :
  system_add_spring two_mass_system example_spring 2 5
  = (two_mass_system, [ERR_FIRST]).
Proof.
  apply (proj1 (proj2 (system_add_spring_reports two_mass_system
                         example_spring 2 5))).
  - reflexivity.
  - vm_compute. discriminate.
Defined.

(** ** A mass of inertia zero *)

Section Lost.

Lemma SFadd_lost_l (prec emax : Z) (x y : spec_float) :
  sf_finite x = false -> sf_finite (SFadd prec emax x y) = false.
Proof.
  destruct x as [?| [|] | |? ? ?], y as [?| [|] | |? ? ?];
    simpl; try discriminate; reflexivity.
Qed.

Lemma SFadd_lost_r (prec emax : Z) (x y : spec_float) :
  sf_finite y = false -> sf_finite (SFadd prec emax x y) = false.
Proof.
  destruct x as [?| [|] | |? ? ?], y as [?| [|] | |? ? ?];
    simpl; try discriminate; reflexivity.
Qed.

Lemma SFmul_lost_l (prec emax : Z) (x y : spec_float) :
  sf_finite x = false -> sf_finite (SFmul prec emax x y) = false.
Proof.
  destruct x as [?| ? | |? ? ?], y as [?| ? | |? ? ?];
    simpl; try discriminate; reflexivity.
Qed.

Lemma SFmul_lost_r (prec emax : Z) (x y : spec_float) :
  sf_finite y = false -> sf_finite (SFmul prec emax x y) = false.
Proof.
  destruct x as [?| ? | |? ? ?], y as [?| ? | |? ? ?];
    simpl; try discriminate; reflexivity.
Qed.

Lemma reciprocal_of_zero (z : spec_float) :
  sf_is_zero z = true ->
  sf_finite (a_cast c_float (a_div c_double (a_of_Z c_double 1) z)) = false.
Proof. destruct z as [[|]| | |]; try discriminate; intros _; reflexivity. Qed.

Lemma Vector2Add_lost_l (v w : Vector2 spec_float) :
  lost_vec v -> lost_vec (Vector2Add v w).
Proof. intros [Hx Hy]. split; simpl; apply SFadd_lost_l; assumption. Qed.

Lemma Vector2Add_lost_r (v w : Vector2 spec_float) :
  lost_vec w -> lost_vec (Vector2Add v w).
Proof. intros [Hx Hy]. split; simpl; apply SFadd_lost_r; assumption. Qed.

Lemma Vector2Scale_lost_l (v : Vector2 spec_float) (k : spec_float) :
  lost_vec v -> lost_vec (Vector2Scale v k).
Proof. intros [Hx Hy]. split; simpl; apply SFmul_lost_l; assumption. Qed.

Lemma Vector2Scale_lost_r (v : Vector2 spec_float) (k : spec_float) :
  sf_finite k = false -> lost_vec (Vector2Scale v k).
Proof. intros Hk. split; simpl; apply SFmul_lost_r; assumption. Qed.

Lemma acceleration_lost (mass0 : spec_float) (fs : list (Vector2 spec_float)) :
  forall a : Vector2 spec_float,
    lost_vec a ->
    lost_vec (foldl (fun a force =>
                       Vector2Add a (acceleration_from mass0 force)) a fs).
Proof.
  induction fs as [|f fs IH]; intros a Ha; [exact Ha|].
  cbn [foldl]. apply IH. apply Vector2Add_lost_l. exact Ha.
Qed.

(** X18. Inertia zero is not rejected: integrating a free mass whose
    inertia is zero and that has at least one accumulated force divides by
    zero, and every component of the resulting acceleration, velocity and
    position is an infinity or NaN. *)
Theorem mass_update_zero_inertia (m : Mass spec_float) (dt : spec_float) :
  fixed m = false -> sf_is_zero (mass m) = true ->
  accumulated m <> [] ->
  lost_vec (acceleration (mass_update m dt)) /\
  lost_vec (velocity (mass_update m dt)) /\
  lost_vec (position (mass_update m dt)).
Proof.
  intros Hfree Hzero Hacc. rewrite mass_update_free by exact Hfree.
  unfold integrate_spec.
  cbn [acceleration velocity position].
  destruct (accumulated m) as [|f fs]; [contradiction|]. cbn [foldl].
  assert (Ha : lost_vec
                 (foldl (fun a force =>
                           Vector2Add a (acceleration_from (mass m) force))
                        (Vector2Add GRAVITATIONAL_ACCELERATION
                                    (acceleration_from (mass m) f)) fs)).
  { apply acceleration_lost. apply Vector2Add_lost_r.
    unfold acceleration_from. apply Vector2Scale_lost_r.
    apply reciprocal_of_zero. exact Hzero. }
  assert (Hv : forall v, lost_vec v ->
                 lost_vec (Vector2Scale v (a_cast c_float dt)))
    by (intros v; apply Vector2Scale_lost_l).
  split; [exact Ha|]. split.
  - apply Vector2Add_lost_r, Hv, Ha.
  - apply Vector2Add_lost_r, Hv, Vector2Add_lost_r, Hv, Ha.
Qed.

End Lost.

Lemma mass_update_zero_inertia_witness :
  lost_vec (acceleration (mass_update weightless_mass (f64 1))) /\
  lost_vec (velocity (mass_update weightless_mass (f64 1))) /\
  lost_vec (position (mass_update weightless_mass (f64 1))).
Proof.
  apply (mass_update_zero_inertia weightless_mass (f64 1)).
  - reflexivity.
  - reflexivity.
  - vm_compute. discriminate.
Defined.
